(** * HexCraft: the hex-grid editing core of the 2D hex-art editor and of
    the 3D voxel builder, embedded from the JavaScript sources.

    - [JsNum]  : the fragment of JavaScript number semantics the coordinate
                 code relies on (binary64 arithmetic, [Math.round], [% 2]).
    - [Hex2D]  : the 2D editor (HexGrid, drawAtPosition, floodFill,
                 saveState / undo / redo, handleMouseDown).
    - [Hex3D]  : the 3D builder (hexToWorld / worldToHex, addBlock,
                 removeBlock, placeBlock, saveState / undo / redo / loadState).
    - [Cells2D] : 2D drawing on cells whose coordinates may be NaN, as
                 [pixelToHex] returns them for a pointer at client
                 coordinate 0.
    - [Binary64] : the values of binary64 numbers as reals, and the error
                 of one operation; [LayoutBounds] follows the two layouts
                 through it.

    Modelling conventions.
    - A JavaScript [Map] keyed by the template literal [`${col},${row}`]
      (resp. [`${x},${y},${z}`]) is a [gmap] keyed by the integer pair
      (resp. triple): on integers the rendering is injective, and
      [key.split(',').map(Number)] is its inverse.
    - [new Map(m)] copies; snapshots are never aliased with the live store,
      so maps are plain values.
    - Rendering, audio, DOM and animation calls have no effect on the
      modelled state and are left out.
    - Numbers that are coordinates of pixels or of the world are binary64
      floats; grid coordinates, which the code only ever obtains from
      [Math.round] or from integer arithmetic on its results, are integers
      wherever they index the store; [Cells2D] adds the keys that hold a
      NaN.
    - A call of the 3D builder that can throw returns a completion next to
      the state: what it wrote before throwing stays written. *)

From Stdlib Require Import ZArith Floats List Lia Reals Lra.
From stdpp Require Import gmap strings list.

(* ===================================================================== *)
(** ** JavaScript numbers *)
(* ===================================================================== *)

Module JsNum.

(** An integer as the binary64 number nearest to it (exact below 2^53). *)
Definition of_Z (z : Z) : float :=
  SF2Prim (binary_normalize prec emax z 0 false).

Definition signed (s : bool) (m : positive) : Z :=
  if s then Z.neg m else Z.pos m.

(** [Math.round(x)]: the integer nearest to [x], ties towards +infinity,
    computed exactly; NaN, the infinities and the zeros are returned as
    they are, and a result of zero keeps the sign of [x]. *)
Definition Math_round (x : float) : float :=
  match Prim2SF x with
  | S754_finite s m e =>
      let n := if (0 <=? e)%Z then (signed s m * 2 ^ e)%Z
               else ((2 * signed s m + 2 ^ (- e)) / 2 ^ (1 - e))%Z in
      if (n =? 0)%Z then (if s then (-0)%float else 0%float) else of_Z n
  | _ => x
  end.

(** [x % 2 !== 0]. The remainder is exact in binary64: it is zero exactly
    when [x] is an even integer, and NaN for NaN and the infinities. *)
Definition mod2_nonzero (x : float) : bool :=
  match Prim2SF x with
  | S754_zero _ => false
  | S754_finite _ m e =>
      if (1 <=? e)%Z then false else negb (Z.pos m mod 2 ^ (1 - e) =? 0)%Z
  | _ => true
  end.

(** [if (s)] on a string: the empty string is the only falsy one. *)
Definition truthy (s : string) : bool := negb (String.eqb s "").

(** [arr.slice(0, end)] *)
Definition slice0 {A} (l : list A) (end_ : Z) : list A :=
  if (end_ <? 0)%Z then take (Z.to_nat (Z.of_nat (length l) + end_)) l
  else take (Z.to_nat end_) l.

(** [arr[i]] for a number [i]: [undefined] outside the array. *)
Definition index {A} (l : list A) (i : Z) : option A :=
  if (i <? 0)%Z then None else l !! Z.to_nat i.

End JsNum.

(* ===================================================================== *)
(** ** The 2D hex-art editor *)
(* ===================================================================== *)

Module Hex2D.
Import JsNum.

(** *** HexGrid: the offset ("brick") layout, in binary64 *)

Record HexGrid := {
  hexWidth : float;
  hexHeight : float;
  verticalSpacing : float;
  horizontalSpacing : float
}.

Definition updateDimensions (hexSize : float) : HexGrid :=
  let hexWidth := (hexSize * 2)%float in
  let hexHeight := (PrimFloat.sqrt 3 * hexSize)%float in
  {| hexWidth := hexWidth;
     hexHeight := hexHeight;
     verticalSpacing := hexHeight;
     horizontalSpacing := (hexWidth * 0.75)%float |}.

(** [pixelToHex(x, y, hexSize, offset)]; [zoom] is [STATE.zoom], and the
    unused parameter [hexSize] is dropped. *)
Definition pixelToHex (g : HexGrid) (zoom : float) (x y : float)
    (offset : float * float) : float * float :=
  let adjustedX := ((x - fst offset) / zoom)%float in
  let adjustedY := ((y - snd offset) / zoom)%float in
  let col := Math_round (adjustedX / horizontalSpacing g)%float in
  let isOddCol := mod2_nonzero col in
  let rowOffset := if isOddCol then (hexHeight g / 2)%float else 0%float in
  let row := Math_round ((adjustedY - rowOffset) / verticalSpacing g)%float in
  (col, row).

Definition hexToPixel (g : HexGrid) (col row : float) : float * float :=
  let x := (col * horizontalSpacing g)%float in
  let isOddCol := mod2_nonzero col in
  let rowOffset := if isOddCol then (hexHeight g / 2)%float else 0%float in
  let y := (row * verticalSpacing g + rowOffset)%float in
  (x, y).

(** *** Editor state *)

(** [CONFIG.maxHistorySteps] *)
Definition maxHistorySteps : nat := 50.

(** The fields of [STATE] and [CONFIG] the editing core reads or writes.
    [gridSize] is [CONFIG.gridSize] (changed by applySettings). *)
Record State := {
  currentTool : string;
  currentColor : string;
  isDrawing : bool;
  isPanning : bool;
  hexCells : gmap (Z * Z) string;
  history : list (gmap (Z * Z) string);
  historyIndex : Z;
  gridSize : Z
}.

Definition set_hexCells (c : gmap (Z * Z) string) (st : State) : State :=
  {| currentTool := currentTool st; currentColor := currentColor st;
     isDrawing := isDrawing st; isPanning := isPanning st;
     hexCells := c;
     history := history st; historyIndex := historyIndex st;
     gridSize := gridSize st |}.

Definition set_history (h : list (gmap (Z * Z) string)) (i : Z) (st : State)
    : State :=
  {| currentTool := currentTool st; currentColor := currentColor st;
     isDrawing := isDrawing st; isPanning := isPanning st;
     hexCells := hexCells st;
     history := h; historyIndex := i;
     gridSize := gridSize st |}.

Definition set_flags (drawing panning : bool) (st : State) : State :=
  {| currentTool := currentTool st; currentColor := currentColor st;
     isDrawing := drawing; isPanning := panning;
     hexCells := hexCells st;
     history := history st; historyIndex := historyIndex st;
     gridSize := gridSize st |}.

Definition set_tool (t : string) (st : State) : State :=
  {| currentTool := t; currentColor := currentColor st;
     isDrawing := isDrawing st; isPanning := isPanning st;
     hexCells := hexCells st;
     history := history st; historyIndex := historyIndex st;
     gridSize := gridSize st |}.

Definition set_color (c : string) (st : State) : State :=
  {| currentTool := currentTool st; currentColor := c;
     isDrawing := isDrawing st; isPanning := isPanning st;
     hexCells := hexCells st;
     history := history st; historyIndex := historyIndex st;
     gridSize := gridSize st |}.

(** The module-level [STATE] / [CONFIG] literals. *)
Definition STATE0 : State :=
  {| currentTool := "draw"; currentColor := "#6366f1";
     isDrawing := false; isPanning := false;
     hexCells := ∅; history := []; historyIndex := -1;
     gridSize := 20 |}.

(** *** Neighbours and flood fill *)

(** [HexGrid.getNeighbors(col, row)] for the grid size [gs]. *)
Definition getNeighbors (gs : Z) (col row : Z) : list (Z * Z) :=
  let isOddCol := negb (Z.rem col 2 =? 0)%Z in
  let neighbors :=
    [ (col + 1, if isOddCol then row else row - 1);
      (col + 1, if isOddCol then row + 1 else row);
      (col - 1, if isOddCol then row else row - 1);
      (col - 1, if isOddCol then row + 1 else row);
      (col, row - 1);
      (col, row + 1) ]%Z in
  filter (λ n, (0 <= n.1 ∧ n.1 < gs ∧ 0 <= n.2 ∧ n.2 < gs)%Z) neighbors.

(** The write of one fill step: [set] for a truthy colour, else [delete]. *)
Definition fillCell (fillColor : string) (key : Z * Z)
    (cells : gmap (Z * Z) string) : gmap (Z * Z) string :=
  if truthy fillColor then <[key := fillColor]> cells else delete key cells.

(** The [for (const neighbor of neighbors)] loop: push what is unvisited.
    The head of the list is the top of the JavaScript stack. *)
Definition pushNeighbors (visited : gset (Z * Z)) (neighbors : list (Z * Z))
    (stack : list (Z * Z)) : list (Z * Z) :=
  fold_left (λ s n, if decide (n ∈ visited) then s else n :: s) neighbors stack.

(** The fill cap of the [while] condition. *)
Definition fillCap : nat := 1000.

(** The [while (stack.length > 0 && filled < 1000)] loop. [fuel] bounds the
    number of iterations; [None] means the bound was hit before the loop
    condition failed. *)
Fixpoint floodFill_loop (fuel : nat) (gs : Z) (targetColor : option string)
    (fillColor : string) (cells : gmap (Z * Z) string) (visited : gset (Z * Z))
    (stack : list (Z * Z)) (filled : nat) : option (gmap (Z * Z) string * nat) :=
  match stack with
  | [] => Some (cells, filled)
  | top :: rest =>
      if (fillCap <=? filled)%nat then Some (cells, filled) else
      match fuel with
      | O => None
      | S fuel' =>
          if decide (top ∈ visited) then
            floodFill_loop fuel' gs targetColor fillColor cells visited rest filled
          else
            let visited' := {[top]} ∪ visited in
            if decide (cells !! top = targetColor) then
              let cells' := fillCell fillColor top cells in
              let neighbors := getNeighbors gs top.1 top.2 in
              floodFill_loop fuel' gs targetColor fillColor cells' visited'
                (pushNeighbors visited' neighbors rest) (S filled)
            else
              floodFill_loop fuel' gs targetColor fillColor cells visited' rest filled
      end
  end.

(** Each iteration pops one entry and pushes at most six, and it pushes only
    when it fills; so [6 * 1000 + 1] iterations always suffice. *)
Definition floodFill_fuel : nat := 6 * fillCap + 1.

(** [floodFill]'s effect on the store together with the local [filled]. *)
Definition floodFill_run (startCol startRow : Z) (targetColor : option string)
    (fillColor : string) (st : State) : option (gmap (Z * Z) string * nat) :=
  if decide (targetColor = Some fillColor) then Some (hexCells st, 0%nat)
  else floodFill_loop floodFill_fuel (gridSize st) targetColor fillColor
         (hexCells st) ∅ [(startCol, startRow)] 0.

Definition floodFill (startCol startRow : Z) (targetColor : option string)
    (fillColor : string) (st : State) : State :=
  match floodFill_run startCol startRow targetColor fillColor st with
  | Some (cells, _) => set_hexCells cells st
  | None => st
  end.

(** *** Drawing tools *)

(** [drawAtPosition(x, y)] from the point where
    [hex = hexGrid.pixelToHex(x, y, ...)] has been computed, for [x] and [y]
    that are numbers: [hex] holds the two integers [hex.col], [hex.row].
    [getCanvasCoordinates] gives NaN for a pointer at client coordinate 0,
    and [hex.col] or [hex.row] is then NaN: [Cells2D.drawAtPosition] is the
    same function on such cells too, and agrees with this one on integer
    cells. *)
Definition drawAtPosition (hex : Z * Z) (st : State) : State :=
  let '(col, row) := hex in
  if ((col <? 0) || (gridSize st <=? col) || (row <? 0) || (gridSize st <=? row))%Z
  then st
  else
    let key := (col, row) in
    let currentCellColor := hexCells st !! key in
    if String.eqb (currentTool st) "draw" then
      if decide (currentCellColor = Some (currentColor st)) then st
      else set_hexCells (<[key := currentColor st]> (hexCells st)) st
    else if String.eqb (currentTool st) "erase" then
      if decide (is_Some (hexCells st !! key))
      then set_hexCells (delete key (hexCells st)) st
      else st
    else if String.eqb (currentTool st) "fill" then
      floodFill col row currentCellColor (currentColor st) st
    else st.

(** *** History *)

Definition saveState (st : State) : State :=
  let history1 :=
    if (historyIndex st <? Z.of_nat (length (history st)) - 1)%Z
    then slice0 (history st) (historyIndex st + 1)
    else history st in
  let snapshot := hexCells st in
  let history2 := history1 ++ [snapshot] in
  if (maxHistorySteps <? length history2)%nat
  then set_history (drop 1 history2) (historyIndex st) st
  else set_history history2 (historyIndex st + 1) st.

(** [new Map(undefined)] is the empty map. *)
Definition snapshotAt (h : list (gmap (Z * Z) string)) (i : Z)
    : gmap (Z * Z) string :=
  default ∅ (index h i).

Definition undo (st : State) : State :=
  if (0 <? historyIndex st)%Z then
    let i := (historyIndex st - 1)%Z in
    set_hexCells (snapshotAt (history st) i) (set_history (history st) i st)
  else st.

Definition redo (st : State) : State :=
  if (historyIndex st <? Z.of_nat (length (history st)) - 1)%Z then
    let i := (historyIndex st + 1)%Z in
    set_hexCells (snapshotAt (history st) i) (set_history (history st) i st)
  else st.

Definition clearCanvas (st : State) : State :=
  if (size (hexCells st) =? 0)%nat then st
  else set_hexCells ∅ (saveState st).

(** *** Mouse events *)

Record MouseEvent := { button : Z; altKey : bool }.

(** [handleMouseDown(e)]; [hex] is the cell under the pointer. *)
Definition handleMouseDown (e : MouseEvent) (hex : Z * Z) (st : State) : State :=
  if ((button e =? 1) || ((button e =? 0) && altKey e))%Z then
    set_flags (isDrawing st) true st
  else if (button e =? 0)%Z then
    drawAtPosition hex (saveState (set_flags true (isPanning st) st))
  else st.

Definition handleMouseMove (hex : Z * Z) (st : State) : State :=
  if isPanning st then st
  else if isDrawing st then drawAtPosition hex st
  else st.

Definition handleMouseUp (st : State) : State := set_flags false false st.

(** [handleTouchStart(e)] with a single touch on the cell [hex]. *)
Definition handleTouchStart (hex : Z * Z) (st : State) : State :=
  drawAtPosition hex (saveState (set_flags true (isPanning st) st)).

(** *** Tool, colour and settings *)

Definition selectTool (tool : string) (st : State) : State := set_tool tool st.

Definition setColor (color : string) (st : State) : State := set_color color st.

(** [applySettings()]: of [CONFIG], the core reads [gridSize] only. *)
Definition applySettings (gs : Z) (st : State) : State :=
  {| currentTool := currentTool st; currentColor := currentColor st;
     isDrawing := isDrawing st; isPanning := isPanning st;
     hexCells := hexCells st;
     history := history st; historyIndex := historyIndex st;
     gridSize := gs |}.

(** [init()]: the initial state is recorded once. *)
Definition init : State := saveState STATE0.

(** *** Sessions: the events the listeners dispatch *)

Inductive Event :=
  | MouseDown (e : MouseEvent) (hex : Z * Z)
  | MouseMove (hex : Z * Z)
  | MouseUp
  | TouchStart (hex : Z * Z)
  | UndoClick
  | RedoClick
  | ClearClick
  | ToolClick (tool : string)
  | ColorInput (color : string)
  | SettingsApplied (gs : Z).

Definition step (ev : Event) (st : State) : State :=
  match ev with
  | MouseDown e hex => handleMouseDown e hex st
  | MouseMove hex => handleMouseMove hex st
  | MouseUp => handleMouseUp st
  | TouchStart hex => handleTouchStart hex st
  | UndoClick => undo st
  | RedoClick => redo st
  | ClearClick => clearCanvas st
  | ToolClick tool => selectTool tool st
  | ColorInput color => setColor color st
  | SettingsApplied gs => applySettings gs st
  end.

Definition run (evs : list Event) (st : State) : State :=
  fold_left (λ s ev, step ev s) evs st.

(** [saveState()] called once after each of the given store contents. *)
Definition record_all (stores : list (gmap (Z * Z) string)) (st : State) : State :=
  fold_left (λ s cells, saveState (set_hexCells cells s)) stores st.

End Hex2D.

(* ===================================================================== *)
(** ** The 3D voxel builder *)
(* ===================================================================== *)

Module Hex3D.
Import JsNum.

(** *** CONFIG and MATERIALS *)

Definition hexRadius : float := 1%float.
Definition maxHeight : Z := 20.

Record Material := {
  name : string;
  color : string;
  behavior : option string
}.

Definition MATERIALS : list Material :=
  [ {| name := "Stone";  color := "#6b7280"; behavior := None |};
    {| name := "Grass";  color := "#22c55e"; behavior := None |};
    {| name := "Water";  color := "#0ea5e9"; behavior := Some "flows" |};
    {| name := "Lava";   color := "#ef4444"; behavior := Some "converts_water" |};
    {| name := "Fire";   color := "#f97316"; behavior := Some "destroys" |};
    {| name := "Sand";   color := "#fbbf24"; behavior := Some "falls" |};
    {| name := "Wood";   color := "#92400e"; behavior := None |};
    {| name := "Ice";    color := "#67e8f9"; behavior := None |};
    {| name := "Purple"; color := "#a855f7"; behavior := None |};
    {| name := "Pink";   color := "#ec4899"; behavior := None |};
    {| name := "White";  color := "#f5f5f5"; behavior := None |};
    {| name := "Black";  color := "#1f2937"; behavior := None |} ].

(** *** The axial layout, in binary64 *)

Definition hexToWorld (q r : float) : float * float :=
  let x := (hexRadius * PrimFloat.sqrt 3 * (q + r / 2))%float in
  let z := (hexRadius * 1.5 * r)%float in
  (x, z).

Definition worldToHex (x z : float) : float * float :=
  let q := ((PrimFloat.sqrt 3 / 3 * x - 1 / 3 * z) / hexRadius)%float in
  let r := ((2 / 3 * z) / hexRadius)%float in
  (Math_round q, Math_round r).

(** *** State *)

(** What the builder keeps of a mesh: its [userData] and the colour of its
    material. *)
Record Mesh := {
  mesh_q : Z;
  mesh_r : Z;
  mesh_y : Z;
  mesh_materialIndex : nat;
  mesh_color : string
}.

(** The fields of [STATE] the editing core uses, and the module-level
    [blockMeshes]. *)
Record State := {
  currentMaterial : nat;
  blocks : gmap (Z * Z * Z) nat;
  blockMeshes : gmap (Z * Z * Z) Mesh;
  hoveredBlock : option (Z * Z * Z);
  isPlacing : bool;
  history : list (gmap (Z * Z * Z) nat);
  historyIndex : Z
}.

Definition set_blocks (b : gmap (Z * Z * Z) nat) (st : State) : State :=
  {| currentMaterial := currentMaterial st; blocks := b;
     blockMeshes := blockMeshes st; hoveredBlock := hoveredBlock st;
     isPlacing := isPlacing st;
     history := history st; historyIndex := historyIndex st |}.

Definition set_blockMeshes (m : gmap (Z * Z * Z) Mesh) (st : State) : State :=
  {| currentMaterial := currentMaterial st; blocks := blocks st;
     blockMeshes := m; hoveredBlock := hoveredBlock st;
     isPlacing := isPlacing st;
     history := history st; historyIndex := historyIndex st |}.

Definition set_history (h : list (gmap (Z * Z * Z) nat)) (i : Z) (st : State)
    : State :=
  {| currentMaterial := currentMaterial st; blocks := blocks st;
     blockMeshes := blockMeshes st; hoveredBlock := hoveredBlock st;
     isPlacing := isPlacing st;
     history := h; historyIndex := i |}.

Definition set_hoveredBlock (h : option (Z * Z * Z)) (st : State) : State :=
  {| currentMaterial := currentMaterial st; blocks := blocks st;
     blockMeshes := blockMeshes st; hoveredBlock := h;
     isPlacing := isPlacing st;
     history := history st; historyIndex := historyIndex st |}.

Definition set_currentMaterial (m : nat) (st : State) : State :=
  {| currentMaterial := m; blocks := blocks st;
     blockMeshes := blockMeshes st; hoveredBlock := hoveredBlock st;
     isPlacing := isPlacing st;
     history := history st; historyIndex := historyIndex st |}.

Definition set_isPlacing (p : bool) (st : State) : State :=
  {| currentMaterial := currentMaterial st; blocks := blocks st;
     blockMeshes := blockMeshes st; hoveredBlock := hoveredBlock st;
     isPlacing := p;
     history := history st; historyIndex := historyIndex st |}.

Definition STATE0 : State :=
  {| currentMaterial := 0; blocks := ∅; blockMeshes := ∅;
     hoveredBlock := None; isPlacing := false;
     history := []; historyIndex := -1 |}.

(** *** Completions

    A call either returns a value or throws; either way the mutations made
    so far stay in the state. *)

Inductive completion (A : Type) : Type :=
  | Normal (a : A)
  | Thrown.
Arguments Normal {A} a.
Arguments Thrown {A}.

Definition M (A : Type) : Type := State → completion A * State.

Definition ret {A} (a : A) : M A := λ st, (Normal a, st).

Definition bind {A B} (m : M A) (k : A → M B) : M B :=
  λ st, match m st with
        | (Normal a, st') => k a st'
        | (Thrown, st') => (Thrown, st')
        end.

(** *** Block management *)

Definition getBlockKey (x y z : Z) : Z * Z * Z := (x, y, z).

(** [addBlock(q, r, y, materialIndex, animate)]. [material.color] throws
    when [MATERIALS[materialIndex]] is [undefined], after [STATE.blocks]
    was written. [animate] only selects animation and sound. *)
Definition addBlock (q r y : Z) (materialIndex : nat) (animate : bool) : M bool :=
  λ st,
    let key := getBlockKey q r y in
    if decide (is_Some (blocks st !! key)) then (Normal false, st)
    else
      let st1 := set_blocks (<[key := materialIndex]> (blocks st)) st in
      match MATERIALS !! materialIndex with
      | None => (Thrown, st1)
      | Some material =>
          let mesh := {| mesh_q := q; mesh_r := r; mesh_y := y;
                         mesh_materialIndex := materialIndex;
                         mesh_color := color material |} in
          (Normal true, set_blockMeshes (<[key := mesh]> (blockMeshes st1)) st1)
      end.

(** [removeBlock(q, r, y, animate)]; a stored mesh is an object, so
    [if (mesh)] tests its presence. *)
Definition removeBlock (q r y : Z) (animate : bool) : M bool :=
  λ st,
    let key := getBlockKey q r y in
    if decide (is_Some (blocks st !! key)) then
      let st1 := set_blocks (delete key (blocks st)) st in
      match blockMeshes st1 !! key with
      | Some mesh => (Normal true, set_blockMeshes (delete key (blockMeshes st1)) st1)
      | None => (Normal true, st1)
      end
    else (Normal false, st).

(** *** History *)

Definition saveState (st : State) : State :=
  let history1 :=
    if (historyIndex st <? Z.of_nat (length (history st)) - 1)%Z
    then slice0 (history st) (historyIndex st + 1)
    else history st in
  let snapshot := blocks st in
  let history2 := history1 ++ [snapshot] in
  let historyIndex2 := (Z.of_nat (length history2) - 1)%Z in
  if (50 <? length history2)%nat
  then set_history (drop 1 history2) (historyIndex2 - 1) st
  else set_history history2 historyIndex2 st.

(** [saveState()] as a call that returns normally. *)
Definition saveState' : M unit := λ st, (Normal tt, saveState st).

(** The [for (const [key, materialIndex] of snapshot)] loop over the
    entries of the snapshot; a throwing [addBlock] ends it. [loadState]
    passes the entries in the order of [map_to_list]; when every [addBlock]
    returns, the maps built do not depend on the order. *)
Fixpoint addBlocks (entries : list (Z * Z * Z * nat)) : M unit :=
  match entries with
  | [] => ret tt
  | (q, r, y, materialIndex) :: rest =>
      bind (addBlock q r y materialIndex false) (λ _, addBlocks rest)
  end.

(** [loadState(snapshot)]; [snapshot] is [undefined] when the history index
    is outside the array, and iterating [undefined] throws. *)
Definition loadState (snapshot : option (gmap (Z * Z * Z) nat)) : M unit :=
  λ st,
    let st1 := set_blocks ∅ (set_blockMeshes ∅ st) in
    match snapshot with
    | None => (Thrown, st1)
    | Some snapshot => addBlocks (map_to_list snapshot) st1
    end.

Definition undo : M unit :=
  λ st,
    if (historyIndex st <=? 0)%Z then (Normal tt, st)
    else
      let st1 := set_history (history st) (historyIndex st - 1) st in
      loadState (index (history st1) (historyIndex st1)) st1.

Definition redo : M unit :=
  λ st,
    if (Z.of_nat (length (history st)) - 1 <=? historyIndex st)%Z
    then (Normal tt, st)
    else
      let st1 := set_history (history st) (historyIndex st + 1) st in
      loadState (index (history st1) (historyIndex st1)) st1.

(** *** Game logic *)

(** The local [placeY] of [placeBlock]: [y === -1 ? 0 : y]. *)
Definition placeY_of (y : Z) : Z := if (y =? -1)%Z then 0%Z else y.

Definition placeBlock : M unit :=
  λ st,
    match hoveredBlock st with
    | None => (Normal tt, st)
    | Some (q, r, y) =>
        let placeY := placeY_of y in
        if ((0 <=? placeY) && (placeY <? maxHeight))%Z then
          bind (addBlock q r placeY (currentMaterial st) true)
            (λ ok : bool, if ok then saveState' else ret tt) st
        else (Normal tt, st)
    end.

(** [removeBlockAtCursor()]; [hit] is the key of the mesh the raycaster
    returns first among [blockMeshes], if any. The block removed is the one
    in the mesh's [userData]. *)
Definition removeBlockAtCursor (hit : option (Z * Z * Z)) : M unit :=
  λ st,
    match hit ≫= (λ k, blockMeshes st !! k) with
    | None => (Normal tt, st)
    | Some block =>
        bind (removeBlock (mesh_q block) (mesh_r block) (mesh_y block) true)
          (λ ok : bool, if ok then saveState' else ret tt) st
    end.

(** [createStarterBlocks()] *)
Definition starterPositions : list (Z * Z * Z * nat) :=
  [ (0, 0, 0, 0%nat); (1, 0, 0, 0%nat); (-1, 0, 0, 0%nat);
    (0, 0, 1, 0%nat); (0, 0, -1, 0%nat); (1, 0, 1, 0%nat);
    (-1, 0, -1, 0%nat); (1, 0, -1, 0%nat); (-1, 0, 1, 0%nat) ]%Z.

Fixpoint addStarterBlocks (positions : list (Z * Z * Z * nat)) : M unit :=
  match positions with
  | [] => ret tt
  | (x, y, z, m) :: rest =>
      bind (addBlock x y z m true) (λ _, addStarterBlocks rest)
  end.

Definition createStarterBlocks : M unit :=
  bind (addStarterBlocks starterPositions) (λ _, saveState').

(** [init()] up to the starter platform. *)
Definition init : State := (createStarterBlocks STATE0).2.

(** [selectMaterial(index)] *)
Definition selectMaterial (index : nat) (st : State) : State :=
  set_currentMaterial index st.

(** *** Sessions: the events the listeners dispatch

    [Hover h] is a pointer move after which [updateRaycast] has set
    [STATE.hoveredBlock] to [h]; [MaterialChosen] is a palette click or a
    digit key, both of which pass an index of [MATERIALS] only. *)

Inductive Event :=
  | Hover (h : option (Z * Z * Z))
  | LeftDown
  | RightDown (hit : option (Z * Z * Z))
  | TouchEnd
  | UndoKey
  | RedoKey
  | MaterialChosen (num : nat).

Definition step (ev : Event) (st : State) : State :=
  match ev with
  | Hover h => set_hoveredBlock h st
  | LeftDown => (placeBlock (set_isPlacing true st)).2
  | RightDown hit => (removeBlockAtCursor hit st).2
  | TouchEnd => (placeBlock st).2
  | UndoKey => (undo st).2
  | RedoKey => (redo st).2
  | MaterialChosen num =>
      if (num <? length MATERIALS)%nat then selectMaterial num st else st
  end.

Definition run (evs : list Event) (st : State) : State :=
  fold_left (λ s ev, step ev s) evs st.

(** [saveState()] called once after each of the given store contents. *)
Definition record_all (stores : list (gmap (Z * Z * Z) nat)) (st : State) : State :=
  fold_left (λ s b, saveState (set_blocks b s)) stores st.

End Hex3D.

(* ===================================================================== *)
(** ** The 3D builder: columns, ray hits and keys *)
(* ===================================================================== *)

Module Hex3DUi.
Import JsNum Hex3D.

(** [getTopBlockAt(q, r)]: the loop [for (let y = CONFIG.maxHeight; y >= 0;
    y--)] from [y = n] down. *)
Fixpoint topBlockFrom (b : gmap (Z * Z * Z) nat) (q r : Z) (n : nat) : Z :=
  if decide (is_Some (b !! getBlockKey q r (Z.of_nat n))) then Z.of_nat n
  else match n with
       | O => -1
       | S n' => topBlockFrom b q r n'
       end.

Definition getTopBlockAt (q r : Z) (st : State) : Z :=
  topBlockFrom (blocks st) q r (Z.to_nat maxHeight).

(** The first intersection of [updateRaycast]: nothing, the ground at a
    point whose hex cell [worldToHex] gives as [hex], or one of the block
    meshes, [object], with the [y] component of the transformed face normal
    and with [dir = Math.round(angle / (Math.PI / 3))] for the horizontal
    angle of that normal. *)
Inductive RayHit :=
  | Miss
  | GroundHit (hex : Z * Z)
  | BlockHit (object : Mesh) (normal_y : float) (dir : Z).

(** The [neighbors] table of [updateRaycast]. *)
Definition sideNeighbors : list (Z * Z) :=
  [ (1, 0); (0, 1); (-1, 1); (-1, 0); (0, -1); (1, -1) ]%Z.

(** The fields of [STATE] next to the editing core that the pointer and
    the keyboard write: [STATE.brushSize] and [STATE.hoveredFace] ([None]
    is [null]). *)
Record Ui := { core : State; brushSize : Z; hoveredFace : option string }.

Definition set_core (st : State) (ui : Ui) : Ui :=
  {| core := st; brushSize := brushSize ui; hoveredFace := hoveredFace ui |}.

Definition set_brushSize (b : Z) (ui : Ui) : Ui :=
  {| core := core ui; brushSize := b; hoveredFace := hoveredFace ui |}.

(** The two assignments [STATE.hoveredBlock = h; STATE.hoveredFace = face]. *)
Definition set_hovered (h : option (Z * Z * Z)) (face : string) (ui : Ui) : Ui :=
  {| core := set_hoveredBlock h (core ui); brushSize := brushSize ui;
     hoveredFace := Some face |}.

(** [updateRaycast()]; [block] is [hit.object.userData]. Without an
    intersection [STATE.hoveredBlock] becomes [null] and
    [STATE.hoveredFace] is left as it is. Reading an entry of the table
    outside its six rows would throw, before either field is written. *)
Definition updateRaycast (hit : RayHit) (ui : Ui) : completion unit * Ui :=
  match hit with
  | Miss => (Normal tt, set_core (set_hoveredBlock None (core ui)) ui)
  | GroundHit hex =>
      (Normal tt, set_hovered (Some (hex.1, hex.2, -1)%Z) "top" ui)
  | BlockHit block normal_y dir =>
      let face := if (0.5 <? normal_y)%float then "top" else "side" in
      if (0.5 <? PrimFloat.abs normal_y)%float then
        let newY := if (0 <? normal_y)%float
                    then (mesh_y block + 1)%Z else (mesh_y block - 1)%Z in
        (Normal tt,
         set_hovered (Some (mesh_q block, mesh_r block, newY)) face ui)
      else
        let idx := Z.rem (Z.rem dir 6 + 6) 6 in
        match index sideNeighbors idx with
        | None => (Thrown, ui)
        | Some n =>
            (Normal tt,
             set_hovered
               (Some (mesh_q block + n.1, mesh_r block + n.2,
                      mesh_y block)%Z) face ui)
        end
  end.

(** The digit of a [DigitN] key code. *)
Definition digitOfCode (code : string) : option Z :=
  if String.eqb code "Digit0" then Some 0%Z
  else if String.eqb code "Digit1" then Some 1%Z
  else if String.eqb code "Digit2" then Some 2%Z
  else if String.eqb code "Digit3" then Some 3%Z
  else if String.eqb code "Digit4" then Some 4%Z
  else if String.eqb code "Digit5" then Some 5%Z
  else if String.eqb code "Digit6" then Some 6%Z
  else if String.eqb code "Digit7" then Some 7%Z
  else if String.eqb code "Digit8" then Some 8%Z
  else if String.eqb code "Digit9" then Some 9%Z
  else None.

(** [onKeyDown(event)] for [event.code] and [event.ctrlKey ||
    event.metaKey]; the movement, mode and sound keys change nothing that
    is modelled. *)
Definition onKeyDown (code : string) (ctrlOrMeta : bool) (ui : Ui) : Ui :=
  if String.eqb code "KeyQ" then
    set_brushSize (Z.max 1 (brushSize ui - 1)) ui
  else if String.eqb code "KeyE" then
    set_brushSize (Z.min 5 (brushSize ui + 1)) ui
  else if String.eqb code "KeyZ" then
    if ctrlOrMeta then set_core (undo (core ui)).2 ui
    else ui
  else if String.eqb code "KeyY" then
    if ctrlOrMeta then set_core (redo (core ui)).2 ui
    else ui
  else
    match digitOfCode code with
    | Some d =>
        let num := if String.eqb code "Digit0" then 9%Z else (d - 1)%Z in
        if (num <? Z.of_nat (length MATERIALS))%Z
        then set_core (selectMaterial (Z.to_nat num) (core ui)) ui
        else ui
    | None => ui
    end.

Definition typeKeys (keys : list (string * bool)) (ui : Ui) : Ui :=
  fold_left (λ u k, onKeyDown k.1 k.2 u) keys ui.

(** [STATE.brushSize] starts at 1 and [STATE.hoveredFace] at [null]. *)
Definition ui0 : Ui := {| core := init; brushSize := 1; hoveredFace := None |}.

End Hex3DUi.

(* ===================================================================== *)
(** ** The 2D editor: recent colours *)
(* ===================================================================== *)

Module Colors2D.

(** [Array.prototype.indexOf]: the first position of [c], or -1. *)
Fixpoint indexOf (l : list string) (c : string) : Z :=
  match l with
  | [] => -1
  | x :: l' =>
      if String.eqb x c then 0
      else let i := indexOf l' c in if (i <? 0)%Z then -1 else (i + 1)%Z
  end.

(** [Array.prototype.pop], as far as the array goes. *)
Definition pop (l : list string) : list string := take (length l - 1) l.

(** [addRecentColor(color)] on [STATE.recentColors]. *)
Definition addRecentColor (color : string) (recentColors : list string)
    : list string :=
  let index := indexOf recentColors color in
  let spliced :=
    if (-1 <? index)%Z then delete (Z.to_nat index) recentColors
    else recentColors in
  let unshifted := color :: spliced in
  if (8 <? length unshifted)%nat then pop unshifted else unshifted.

(** [STATE.recentColors] after [setColor] has been called with each of
    [colors] in turn, from the empty list of the [STATE] literal. *)
Definition recentAfter (colors : list string) : list string :=
  fold_left (λ recent c, addRecentColor c recent) colors [].

End Colors2D.

(* ===================================================================== *)
(** ** The 2D editor: zoom *)
(* ===================================================================== *)

Module View2D.

(** [-0], the one float [Math.min] and [Math.max] tell from [+0]. *)
Definition is_neg_zero (f : float) : bool :=
  match classify f with NZero => true | _ => false end.

(** [Math.min(a, b)] and [Math.max(a, b)] on binary64 numbers. *)
Definition Math_min (a b : float) : float :=
  if is_nan a || is_nan b then nan
  else if (a <? b)%float then a
  else if (b <? a)%float then b
  else if is_neg_zero a then a else b.

Definition Math_max (a b : float) : float :=
  if is_nan a || is_nan b then nan
  else if (a <? b)%float then b
  else if (b <? a)%float then a
  else if is_neg_zero a then b else a.

(** [STATE.zoom] and [STATE.panOffset]. *)
Record View := { zoom : float; panOffset : float * float }.

(** [setZoom(newZoom, centerX, centerY)]; [None] is [undefined]. *)
Definition setZoom (newZoom : float) (centerX centerY : option float)
    (v : View) : View :=
  let oldZoom := zoom v in
  let zoom' := Math_max 0.25 (Math_min 4 newZoom) in
  match centerX, centerY with
  | Some cx, Some cy =>
      let zoomFactor := (zoom' / oldZoom)%float in
      {| zoom := zoom';
         panOffset := ((cx - (cx - (panOffset v).1) * zoomFactor)%float,
                       (cy - (cy - (panOffset v).2) * zoomFactor)%float) |}
  | _, _ => {| zoom := zoom'; panOffset := panOffset v |}
  end.

End View2D.

(* ===================================================================== *)
(** ** The 2D editor: the drawing tools on every key of the cell store *)
(* ===================================================================== *)

(** [Hex2D] keeps the cells whose column and row are integers. The
    column and the row [pixelToHex] returns come from [Math.round] and can
    also be [NaN] or an infinity, and [drawAtPosition] prints them into
    the key as they are. This module has the drawing tools on all such
    keys; on integer cells it is [Hex2D] again. *)
Module Cells2D.
Import JsNum.

(** What [Math.round] returns: an integer, [NaN] or an infinity. *)
Inductive Coord := Int (z : Z) | NaN | Infinity (negative : bool).

#[global] Instance Coord_eq_dec : EqDecision Coord.
Proof. solve_decision. Defined.

#[global] Instance Coord_countable : Countable Coord.
Proof.
  refine (inj_countable'
            (λ c, match c with
                  | Int z => inl z
                  | NaN => inr None
                  | Infinity s => inr (Some s)
                  end)
            (λ x, match x with
                  | inl z => Int z
                  | inr None => NaN
                  | inr (Some s) => Infinity s
                  end) _).
  by intros [].
Defined.

(** [c + d] for an integer [d] *)
Definition plus (c : Coord) (d : Z) : Coord :=
  match c with Int z => Int (z + d) | _ => c end.

(** [c < n] and [c >= n] for an integer [n]; both are false at [NaN]. *)
Definition lt (c : Coord) (n : Z) : bool :=
  match c with Int z => (z <? n)%Z | NaN => false | Infinity s => s end.

Definition ge (c : Coord) (n : Z) : bool :=
  match c with Int z => (n <=? z)%Z | NaN => false | Infinity s => negb s end.

(** [c % 2 !== 0]; the remainder of [NaN] and of an infinity is [NaN]. *)
Definition odd (c : Coord) : bool :=
  match c with Int z => negb (Z.rem z 2 =? 0)%Z | _ => true end.

(** The fields of [STATE] and [CONFIG] that [drawAtPosition] reads or
    writes. *)
Record Canvas := {
  currentTool : string;
  currentColor : string;
  hexCells : gmap (Coord * Coord) string;
  gridSize : Z
}.

Definition set_hexCells (cells : gmap (Coord * Coord) string) (cv : Canvas)
    : Canvas :=
  {| currentTool := currentTool cv; currentColor := currentColor cv;
     hexCells := cells; gridSize := gridSize cv |}.

(** [HexGrid.getNeighbors(col, row)] *)
Definition getNeighbors (gs : Z) (col row : Coord) : list (Coord * Coord) :=
  let isOddCol := odd col in
  let neighbors :=
    [ (plus col 1, if isOddCol then row else plus row (-1));
      (plus col 1, if isOddCol then plus row 1 else row);
      (plus col (-1), if isOddCol then row else plus row (-1));
      (plus col (-1), if isOddCol then plus row 1 else row);
      (col, plus row (-1));
      (col, plus row 1) ] in
  List.filter (λ n, ge n.1 0 && lt n.1 gs && ge n.2 0 && lt n.2 gs) neighbors.

Definition fillCell (fillColor : string) (key : Coord * Coord)
    (cells : gmap (Coord * Coord) string) : gmap (Coord * Coord) string :=
  if truthy fillColor then <[key := fillColor]> cells else delete key cells.

Definition pushNeighbors (visited : gset (Coord * Coord))
    (neighbors : list (Coord * Coord)) (stack : list (Coord * Coord))
    : list (Coord * Coord) :=
  fold_left (λ s n, if decide (n ∈ visited) then s else n :: s) neighbors stack.

(** The loop of [floodFill], as in [Hex2D.floodFill_loop]. *)
Fixpoint floodFill_loop (fuel : nat) (gs : Z) (targetColor : option string)
    (fillColor : string) (cells : gmap (Coord * Coord) string)
    (visited : gset (Coord * Coord)) (stack : list (Coord * Coord))
    (filled : nat) : option (gmap (Coord * Coord) string * nat) :=
  match stack with
  | [] => Some (cells, filled)
  | top :: rest =>
      if (Hex2D.fillCap <=? filled)%nat then Some (cells, filled) else
      match fuel with
      | O => None
      | S fuel' =>
          if decide (top ∈ visited) then
            floodFill_loop fuel' gs targetColor fillColor cells visited rest filled
          else
            let visited' := {[top]} ∪ visited in
            if decide (cells !! top = targetColor) then
              let cells' := fillCell fillColor top cells in
              let neighbors := getNeighbors gs top.1 top.2 in
              floodFill_loop fuel' gs targetColor fillColor cells' visited'
                (pushNeighbors visited' neighbors rest) (S filled)
            else
              floodFill_loop fuel' gs targetColor fillColor cells visited' rest filled
      end
  end.

Definition floodFill_run (startCol startRow : Coord)
    (targetColor : option string) (fillColor : string) (cv : Canvas)
    : option (gmap (Coord * Coord) string * nat) :=
  if decide (targetColor = Some fillColor) then Some (hexCells cv, 0%nat)
  else floodFill_loop Hex2D.floodFill_fuel (gridSize cv) targetColor fillColor
         (hexCells cv) ∅ [(startCol, startRow)] 0.

Definition floodFill (startCol startRow : Coord) (targetColor : option string)
    (fillColor : string) (cv : Canvas) : Canvas :=
  match floodFill_run startCol startRow targetColor fillColor cv with
  | Some (cells, _) => set_hexCells cells cv
  | None => cv
  end.

(** [drawAtPosition(x, y)] from the point where
    [hex = hexGrid.pixelToHex(x, y, ...)] has been computed. A [NaN]
    column or row fails none of the four comparisons of the guard. *)
Definition drawAtPosition (hex : Coord * Coord) (cv : Canvas) : Canvas :=
  let '(col, row) := hex in
  if lt col 0 || ge col (gridSize cv) || lt row 0 || ge row (gridSize cv)
  then cv
  else
    let key := (col, row) in
    let currentCellColor := hexCells cv !! key in
    if String.eqb (currentTool cv) "draw" then
      if decide (currentCellColor = Some (currentColor cv)) then cv
      else set_hexCells (<[key := currentColor cv]> (hexCells cv)) cv
    else if String.eqb (currentTool cv) "erase" then
      if decide (is_Some (hexCells cv !! key))
      then set_hexCells (delete key (hexCells cv)) cv
      else cv
    else if String.eqb (currentTool cv) "fill" then
      floodFill col row currentCellColor (currentColor cv) cv
    else cv.

(** An integer cell as a key, and a state of [Hex2D] as a canvas. *)
Definition cell (k : Z * Z) : Coord * Coord := (Int k.1, Int k.2).

Definition of_state (st : Hex2D.State) : Canvas :=
  {| currentTool := Hex2D.currentTool st;
     currentColor := Hex2D.currentColor st;
     hexCells := kmap cell (Hex2D.hexCells st);
     gridSize := Hex2D.gridSize st |}.

End Cells2D.

(* ===================================================================== *)
(** ** Array helpers *)
(* ===================================================================== *)

Section ArrayFacts.
Context {A : Type}.
Implicit Types (l : list A) (i : Z).

Lemma slice0_length_le l i : (length (JsNum.slice0 l i) ≤ length l)%nat.
Proof.
  unfold JsNum.slice0. destruct (i <? 0)%Z; rewrite length_take; lia.
Qed.

Lemma slice0_prefix l i :
  (-1 <= i < Z.of_nat (length l))%Z →
  JsNum.slice0 l (i + 1) = take (Z.to_nat (i + 1)) l
  ∧ length (JsNum.slice0 l (i + 1)) = Z.to_nat (i + 1).
Proof.
  intros Hi. unfold JsNum.slice0.
  destruct (i + 1 <? 0)%Z eqn:E; [apply Z.ltb_lt in E; lia|].
  split; [done|]. rewrite length_take. lia.
Qed.

Lemma index_Some_lt l i x :
  JsNum.index l i = Some x → (0 <= i < Z.of_nat (length l))%Z.
Proof.
  unfold JsNum.index. destruct (i <? 0)%Z eqn:E; [done|].
  apply Z.ltb_ge in E. intros H%lookup_lt_Some. lia.
Qed.

Lemma index_last l x :
  JsNum.index (l ++ [x]) (Z.of_nat (length (l ++ [x])) - 1) = Some x.
Proof.
  unfold JsNum.index. rewrite length_app. simpl.
  destruct (_ <? 0)%Z eqn:E; [apply Z.ltb_lt in E; lia|].
  replace (Z.to_nat (Z.of_nat (length l + 1) - 1)) with (length l + 0)%nat by lia.
  by rewrite lookup_app_r, Nat.add_0_r, Nat.sub_diag by lia.
Qed.

Lemma index_last_drop l x :
  (1 ≤ length l)%nat →
  JsNum.index (drop 1 (l ++ [x])) (Z.of_nat (length (drop 1 (l ++ [x]))) - 1)
  = Some x.
Proof.
  intros Hl. destruct l as [|a l]; [simpl in Hl; lia|].
  simpl. rewrite drop_0. apply index_last.
Qed.

End ArrayFacts.

(* ===================================================================== *)
(** ** History: both variants *)
(* ===================================================================== *)

Module History2D.
Import Hex2D.

(** The index points into the list (or is -1 while the list is empty) and
    the list respects the cap. *)
Definition hist_wf (st : State) : Prop :=
  (length (history st) ≤ maxHistorySteps)%nat
  ∧ (-1 <= historyIndex st < Z.of_nat (length (history st)))%Z.

(** The list [saveState] appends to: the entries up to the index. *)
Definition kept (st : State) : list (gmap (Z * Z) string) :=
  take (Z.to_nat (historyIndex st + 1)) (history st).

Lemma saveState_cells st : hexCells (saveState st) = hexCells st.
Proof. unfold saveState. by destruct (_ <? _)%nat. Qed.

Lemma saveState_frame st :
  currentTool (saveState st) = currentTool st
  ∧ currentColor (saveState st) = currentColor st
  ∧ gridSize (saveState st) = gridSize st
  ∧ isDrawing (saveState st) = isDrawing st.
Proof. unfold saveState. by destruct (_ <? _)%nat. Qed.

Lemma saveState_length_le st :
  (length (history st) ≤ maxHistorySteps)%nat →
  (length (history (saveState st)) ≤ maxHistorySteps)%nat.
Proof.
  intros H. unfold saveState.
  set (h1 := if (_ <? _)%Z then _ else _).
  assert (length h1 ≤ length (history st))%nat as Hh1.
  { subst h1. destruct (_ <? _)%Z; [apply slice0_length_le|done]. }
  destruct (_ <? _)%nat eqn:E; simpl.
  - rewrite length_drop, length_app. simpl. unfold maxHistorySteps in *. lia.
  - apply Nat.ltb_ge in E. done.
Qed.

Lemma saveState_history st :
  (-1 <= historyIndex st < Z.of_nat (length (history st)))%Z →
  history (saveState st) =
    (if (maxHistorySteps <? length (kept st ++ [hexCells st]))%nat
     then drop 1 (kept st ++ [hexCells st]) else kept st ++ [hexCells st])
  ∧ historyIndex (saveState st) = (Z.of_nat (length (history (saveState st))) - 1)%Z.
Proof.
  intros Hi. unfold saveState, kept.
  set (h1 := if (_ <? _)%Z then _ else _).
  assert (h1 = take (Z.to_nat (historyIndex st + 1)) (history st)
          ∧ length h1 = Z.to_nat (historyIndex st + 1)) as [Hh1 Hlen].
  { subst h1. destruct (_ <? _)%Z eqn:E.
    - by apply slice0_prefix.
    - apply Z.ltb_ge in E.
      rewrite take_ge by lia. split; [done|lia]. }
  rewrite <- Hh1.
  destruct (_ <? _)%nat eqn:E; simpl; (split; [done|]).
  - rewrite length_drop, length_app. simpl. lia.
  - rewrite length_app. simpl. lia.
Qed.

Lemma saveState_wf st : hist_wf st → hist_wf (saveState st).
Proof.
  intros [Hl Hi]. split; [by apply saveState_length_le|].
  destruct (saveState_history st Hi) as [Hh Hidx]. rewrite Hidx.
  assert (1 ≤ length (history (saveState st)))%nat; [|lia].
  rewrite Hh. destruct (_ <? _)%nat eqn:E.
  - apply Nat.ltb_lt in E. rewrite length_drop. unfold maxHistorySteps in E. lia.
  - rewrite length_app. simpl. lia.
Qed.

Lemma saveState_last st :
  hist_wf st →
  JsNum.index (history (saveState st)) (historyIndex (saveState st))
  = Some (hexCells st).
Proof.
  intros [Hl Hi]. destruct (saveState_history st Hi) as [Hh Hidx].
  rewrite Hidx, Hh. destruct (_ <? _)%nat eqn:E.
  - apply index_last_drop. apply Nat.ltb_lt in E.
    rewrite length_app in E. simpl in E. unfold maxHistorySteps in E. lia.
  - apply index_last.
Qed.

Lemma undo_history st : history (undo st) = history st.
Proof. unfold undo. by destruct (_ <? _)%Z. Qed.

Lemma redo_history st : history (redo st) = history st.
Proof. unfold redo. by destruct (_ <? _)%Z. Qed.

Lemma floodFill_history c r t f st :
  history (floodFill c r t f st) = history st
  ∧ historyIndex (floodFill c r t f st) = historyIndex st.
Proof. unfold floodFill. by destruct (floodFill_run _ _ _ _ _) as [[]|]. Qed.

Lemma drawAtPosition_history hex st :
  history (drawAtPosition hex st) = history st
  ∧ historyIndex (drawAtPosition hex st) = historyIndex st.
Proof.
  unfold drawAtPosition. destruct hex as [col row].
  repeat (first [done | apply floodFill_history | case_match]).
Qed.

Lemma drawAtPosition_wf hex st : hist_wf st → hist_wf (drawAtPosition hex st).
Proof.
  unfold hist_wf. by destruct (drawAtPosition_history hex st) as [-> ->].
Qed.

Lemma undo_wf st : hist_wf st → hist_wf (undo st).
Proof.
  unfold hist_wf, undo. destruct (_ <? _)%Z eqn:E; [|done].
  apply Z.ltb_lt in E. simpl. lia.
Qed.

Lemma redo_wf st : hist_wf st → hist_wf (redo st).
Proof.
  unfold hist_wf, redo. destruct (_ <? _)%Z eqn:E; [|done].
  apply Z.ltb_lt in E. simpl. lia.
Qed.

Lemma step_wf ev st : hist_wf st → hist_wf (step ev st).
Proof.
  intros H. destruct ev; simpl; try done.
  - unfold handleMouseDown. repeat case_match; try done.
    by apply drawAtPosition_wf, saveState_wf.
  - unfold handleMouseMove. repeat case_match; try done.
    by apply drawAtPosition_wf.
  - by apply drawAtPosition_wf, saveState_wf.
  - by apply undo_wf.
  - by apply redo_wf.
  - unfold clearCanvas. case_match; [done|]. by apply (saveState_wf st).
Qed.

Lemma STATE0_wf : hist_wf STATE0.
Proof. unfold hist_wf, maxHistorySteps. simpl. lia. Qed.

Lemma run_wf evs st : hist_wf st → hist_wf (run evs st).
Proof.
  revert st. induction evs as [|ev evs IH]; intros st H; [done|].
  simpl. apply IH. by apply step_wf.
Qed.

End History2D.

Module History3D.
Import Hex3D.

(** Every payload of the store is an index of [MATERIALS]. *)
Definition valid_store (b : gmap (Z * Z * Z) nat) : Prop :=
  map_Forall (λ _ m, (m < length MATERIALS)%nat) b.

(** The two maps hold the same keys. *)
Definition same_keys (st : State) : Prop :=
  dom (blocks st) = dom (blockMeshes st).

Definition hist_wf (st : State) : Prop :=
  (length (history st) ≤ 50)%nat
  ∧ (-1 <= historyIndex st < Z.of_nat (length (history st)))%Z.

Definition kept (st : State) : list (gmap (Z * Z * Z) nat) :=
  take (Z.to_nat (historyIndex st + 1)) (history st).

(** What a call leaves alone of the history and of the selection. *)
Definition frame (st st' : State) : Prop :=
  history st' = history st
  ∧ historyIndex st' = historyIndex st
  ∧ currentMaterial st' = currentMaterial st
  ∧ hoveredBlock st' = hoveredBlock st
  ∧ isPlacing st' = isPlacing st.

Lemma frame_refl st : frame st st.
Proof. by unfold frame. Qed.

Lemma frame_trans st1 st2 st3 : frame st1 st2 → frame st2 st3 → frame st1 st3.
Proof. unfold frame. intros (?&?&?&?&?) (?&?&?&?&?). repeat split; congruence. Qed.

Lemma addBlock_frame q r y m a st : frame st (addBlock q r y m a st).2.
Proof.
  unfold addBlock. destruct (decide _); [apply frame_refl|].
  by destruct (MATERIALS !! m).
Qed.

Lemma removeBlock_frame q r y a st : frame st (removeBlock q r y a st).2.
Proof.
  unfold removeBlock. destruct (decide _); [|apply frame_refl].
  by case_match.
Qed.

Lemma addBlocks_frame l st : frame st (addBlocks l st).2.
Proof.
  revert st. induction l as [|[[[q r] y] m] l IH]; intros st; [apply frame_refl|].
  simpl. unfold bind.
  pose proof (addBlock_frame q r y m false st) as H1.
  destruct (addBlock q r y m false st) as [[b|] st1]; simpl in *; [|done].
  eapply frame_trans; [exact H1|apply IH].
Qed.

Lemma loadState_frame s st : frame st (loadState s st).2.
Proof.
  unfold loadState. destruct s as [snap|]; [|done].
  eapply frame_trans; [|apply addBlocks_frame]. done.
Qed.

(** *** addBlock *)

Lemma addBlock_occupied q r y m a st :
  is_Some (blocks st !! (q, r, y)) → addBlock q r y m a st = (Normal false, st).
Proof. intros H. unfold addBlock, getBlockKey. by rewrite decide_True. Qed.

Lemma addBlock_free q r y m a st :
  blocks st !! (q, r, y) = None → (m < length MATERIALS)%nat →
  ∃ st', addBlock q r y m a st = (Normal true, st')
    ∧ blocks st' = <[(q, r, y) := m]> (blocks st)
    ∧ dom (blockMeshes st') = {[(q, r, y)]} ∪ dom (blockMeshes st)
    ∧ frame st st'.
Proof.
  intros Hfree Hm. unfold addBlock, getBlockKey.
  rewrite decide_False by (rewrite Hfree; by intros [? ?]).
  destruct (lookup_lt_is_Some_2 MATERIALS m Hm) as [mat ->].
  eexists. split; [done|]. simpl. split; [done|]. split; [|done].
  by rewrite dom_insert_L.
Qed.

Lemma addBlock_same_keys q r y m a st :
  (m < length MATERIALS)%nat → same_keys st →
  ∃ b st', addBlock q r y m a st = (Normal b, st') ∧ same_keys st'.
Proof.
  intros Hm Hinv. destruct (blocks st !! (q, r, y)) as [m0|] eqn:E.
  - exists false, st. split; [|done]. apply addBlock_occupied. by rewrite E.
  - destruct (addBlock_free q r y m a st E Hm) as (st' & -> & Hb & Hd & _).
    exists true, st'. split; [done|]. unfold same_keys in *.
    by rewrite Hb, Hd, dom_insert_L, Hinv.
Qed.

(** *** removeBlock *)

Lemma removeBlock_absent q r y a st :
  blocks st !! (q, r, y) = None → removeBlock q r y a st = (Normal false, st).
Proof.
  intros H. unfold removeBlock, getBlockKey.
  rewrite decide_False; [done|]. rewrite H. by intros [? ?].
Qed.

Lemma removeBlock_present q r y a st :
  is_Some (blocks st !! (q, r, y)) →
  ∃ st', removeBlock q r y a st = (Normal true, st')
    ∧ blocks st' = delete (q, r, y) (blocks st)
    ∧ blockMeshes st' = delete (q, r, y) (blockMeshes st)
    ∧ frame st st'.
Proof.
  intros H. unfold removeBlock, getBlockKey. rewrite decide_True by done.
  simpl. destruct (blockMeshes st !! (q, r, y)) eqn:E;
    (eexists; split; [done|]); simpl; repeat split; try done.
  by rewrite delete_id.
Qed.

Lemma removeBlock_same_keys q r y a st :
  same_keys st →
  ∃ b st', removeBlock q r y a st = (Normal b, st') ∧ same_keys st'.
Proof.
  intros Hinv. destruct (blocks st !! (q, r, y)) as [m0|] eqn:E.
  - destruct (removeBlock_present q r y a st) as (st' & -> & Hb & Hm & _).
    { by rewrite E. }
    exists true, st'. split; [done|]. unfold same_keys in *.
    by rewrite Hb, Hm, !dom_delete_L, Hinv.
  - exists false, st. split; [|done]. by apply removeBlock_absent.
Qed.

(** *** loadState *)

Lemma addBlocks_fresh l st :
  NoDup l.*1 →
  (∀ k m, (k, m) ∈ l → (m < length MATERIALS)%nat ∧ blocks st !! k = None) →
  ∃ st', addBlocks l st = (Normal tt, st')
    ∧ blocks st' = list_to_map l ∪ blocks st
    ∧ dom (blockMeshes st') = list_to_set l.*1 ∪ dom (blockMeshes st)
    ∧ frame st st'.
Proof.
  revert st. induction l as [|[[[q r] y] m] l IH]; intros st Hnd Hl.
  - exists st. simpl. split; [done|]. rewrite (left_id_L ∅ (∪)).
    split; [done|]. split; [|apply frame_refl].
    by rewrite (left_id_L ∅ (∪)).
  - apply NoDup_cons in Hnd as [Hnotin Hnd].
    destruct (Hl (q, r, y) m) as [Hm Hfree]; [left|].
    destruct (addBlock_free q r y m false st Hfree Hm) as (st1 & E1 & Hb1 & Hd1 & Hf1).
    destruct (IH st1 Hnd) as (st' & E' & Hb' & Hd' & Hf').
    { intros k m' Hin. destruct (Hl k m') as [? Hk]; [by right|].
      split; [done|]. rewrite Hb1, lookup_insert_ne; [done|].
      intros <-. apply Hnotin. apply list_elem_of_fmap. by exists (q, r, y, m'). }
    exists st'. simpl. unfold bind. rewrite E1, E'. split; [done|].
    split; [|split].
    + rewrite Hb', Hb1. rewrite <- insert_union_r, insert_union_l; [done|].
      by apply not_elem_of_list_to_map_1.
    + rewrite Hd', Hd1.
      rewrite (assoc_L (∪)). f_equal. apply (comm_L (∪)).
    + by eapply frame_trans.
Qed.

Lemma loadState_ok snap st :
  valid_store snap →
  ∃ st', loadState (Some snap) st = (Normal tt, st')
    ∧ blocks st' = snap
    ∧ dom (blockMeshes st') = dom snap
    ∧ frame st st'.
Proof.
  intros Hv. unfold loadState.
  destruct (addBlocks_fresh (map_to_list snap)
              (set_blocks ∅ (set_blockMeshes ∅ st)))
    as (st' & E & Hb & Hd & Hf).
  { apply NoDup_fst_map_to_list. }
  { intros k m Hin%elem_of_map_to_list. split; [by eapply Hv|done]. }
  exists st'. split; [done|]. simpl in Hb, Hd.
  split; [|split].
  - by rewrite Hb, list_to_map_to_list, (right_id_L ∅ (∪)).
  - rewrite Hd, dom_empty_L, (right_id_L ∅ (∪)).
    apply set_eq. intros k. rewrite elem_of_list_to_set, elem_of_dom.
    rewrite list_elem_of_fmap. split.
    + intros [[k' m] [-> Hin%elem_of_map_to_list]]. by exists m.
    + intros [m Hm]. exists (k, m). split; [done|]. by apply elem_of_map_to_list.
  - eapply frame_trans; [|exact Hf]. done.
Qed.

(** *** saveState *)

Lemma saveState_blocks st :
  blocks (saveState st) = blocks st
  ∧ blockMeshes (saveState st) = blockMeshes st
  ∧ currentMaterial (saveState st) = currentMaterial st
  ∧ hoveredBlock (saveState st) = hoveredBlock st.
Proof. unfold saveState. by destruct (_ <? _)%nat. Qed.

Lemma saveState_index st :
  historyIndex (saveState st)
  = (Z.of_nat (length (history (saveState st))) - 1)%Z.
Proof.
  unfold saveState. destruct (_ <? _)%nat eqn:E; simpl; [|done].
  apply Nat.ltb_lt in E. rewrite length_drop. lia.
Qed.

Lemma saveState3D_length_le st :
  (length (history st) ≤ 50)%nat → (length (history (saveState st)) ≤ 50)%nat.
Proof.
  intros H. unfold saveState.
  set (h1 := if (_ <? _)%Z then _ else _).
  assert (length h1 ≤ length (history st))%nat as Hh1.
  { subst h1. destruct (_ <? _)%Z; [apply slice0_length_le|done]. }
  destruct (_ <? _)%nat eqn:E; simpl.
  - rewrite length_drop, length_app. simpl. lia.
  - by apply Nat.ltb_ge in E.
Qed.

Lemma saveState3D_history st :
  (-1 <= historyIndex st < Z.of_nat (length (history st)))%Z →
  history (saveState st) =
    (if (50 <? length (kept st ++ [blocks st]))%nat
     then drop 1 (kept st ++ [blocks st]) else kept st ++ [blocks st]).
Proof.
  intros Hi. unfold saveState, kept.
  set (h1 := if (_ <? _)%Z then _ else _).
  assert (h1 = take (Z.to_nat (historyIndex st + 1)) (history st)) as Hh1.
  { subst h1. destruct (_ <? _)%Z eqn:E.
    - by apply slice0_prefix.
    - apply Z.ltb_ge in E. rewrite take_ge by lia. done. }
  rewrite <- Hh1. by destruct (_ <? _)%nat.
Qed.

Lemma saveState_nonempty st : (1 ≤ length (history (saveState st)))%nat.
Proof.
  unfold saveState. destruct (_ <? _)%nat eqn:E; simpl.
  - apply Nat.ltb_lt in E. rewrite length_drop. lia.
  - rewrite length_app. simpl. lia.
Qed.

Lemma saveState3D_wf st :
  (length (history st) ≤ 50)%nat → hist_wf (saveState st).
Proof.
  intros Hl. split; [by apply saveState3D_length_le|].
  rewrite saveState_index. pose proof (saveState_nonempty st). lia.
Qed.

Lemma saveState3D_last st :
  JsNum.index (history (saveState st)) (historyIndex (saveState st))
  = Some (blocks st).
Proof.
  rewrite saveState_index. unfold saveState.
  set (h1 := if (_ <? _)%Z then _ else _).
  destruct (_ <? _)%nat eqn:E; simpl.
  - apply index_last_drop. apply Nat.ltb_lt in E.
    rewrite length_app in E. simpl in E. lia.
  - apply index_last.
Qed.

(** *** undo and redo leave the history list alone *)

Lemma undo_frame st :
  history (undo st).2 = history st
  ∧ historyIndex (undo st).2 =
      (if (historyIndex st <=? 0)%Z then historyIndex st
       else (historyIndex st - 1)%Z).
Proof.
  unfold undo. destruct (_ <=? _)%Z; [done|].
  match goal with |- context [loadState ?s ?t] =>
    destruct (loadState_frame s t) as (-> & -> & _) end.
  done.
Qed.

Lemma redo_frame st :
  history (redo st).2 = history st
  ∧ historyIndex (redo st).2 =
      (if (Z.of_nat (length (history st)) - 1 <=? historyIndex st)%Z
       then historyIndex st else (historyIndex st + 1)%Z).
Proof.
  unfold redo. destruct (_ <=? _)%Z; [done|].
  match goal with |- context [loadState ?s ?t] =>
    destruct (loadState_frame s t) as (-> & -> & _) end.
  done.
Qed.

(** *** placeBlock and removeBlockAtCursor *)

Lemma placeBlock_nothing_hovered st :
  hoveredBlock st = None → placeBlock st = (Normal tt, st).
Proof. intros H. unfold placeBlock. by rewrite H. Qed.

Lemma placeBlock_out_of_range st q r y :
  hoveredBlock st = Some (q, r, y) →
  (placeY_of y < 0 ∨ maxHeight <= placeY_of y)%Z →
  placeBlock st = (Normal tt, st).
Proof.
  intros H Hy. unfold placeBlock. rewrite H.
  destruct (_ && _) eqn:E; [|done].
  apply andb_true_iff in E as [E1%Z.leb_le E2%Z.ltb_lt]. lia.
Qed.

Lemma placeBlock_in_range st q r y :
  hoveredBlock st = Some (q, r, y) →
  (0 <= placeY_of y < maxHeight)%Z →
  placeBlock st =
    bind (addBlock q r (placeY_of y) (currentMaterial st) true)
      (λ ok : bool, if ok then saveState' else ret tt) st.
Proof.
  intros H Hy. unfold placeBlock. rewrite H.
  destruct (_ && _) eqn:E; [done|].
  apply andb_false_iff in E as [E%Z.leb_gt|E%Z.ltb_ge]; lia.
Qed.

Lemma placeBlock_occupied st q r y :
  hoveredBlock st = Some (q, r, y) →
  is_Some (blocks st !! (q, r, placeY_of y)) →
  placeBlock st = (Normal tt, st).
Proof.
  intros H Hocc. unfold placeBlock. rewrite H.
  destruct (_ && _); [|done].
  unfold bind. by rewrite addBlock_occupied.
Qed.

Lemma placeBlock_free st q r y :
  hoveredBlock st = Some (q, r, y) →
  (0 <= placeY_of y < maxHeight)%Z →
  blocks st !! (q, r, placeY_of y) = None →
  (currentMaterial st < length MATERIALS)%nat →
  ∃ st1, addBlock q r (placeY_of y) (currentMaterial st) true st = (Normal true, st1)
    ∧ placeBlock st = (Normal tt, saveState st1)
    ∧ blocks st1 = <[(q, r, placeY_of y) := currentMaterial st]> (blocks st)
    ∧ dom (blockMeshes st1) = {[(q, r, placeY_of y)]} ∪ dom (blockMeshes st)
    ∧ frame st st1.
Proof.
  intros H Hy Hfree Hm.
  destruct (addBlock_free q r (placeY_of y) (currentMaterial st) true st Hfree Hm)
    as (st1 & E & Hb & Hd & Hf).
  exists st1. split; [done|]. split; [|done].
  rewrite (placeBlock_in_range st q r y H Hy). unfold bind. by rewrite E.
Qed.

(** A placement either changes nothing or stores the block and records. *)
Lemma placeBlock_cases st :
  (currentMaterial st < length MATERIALS)%nat →
  placeBlock st = (Normal tt, st)
  ∨ ∃ k st1, blocks st !! k = None
      ∧ blocks st1 = <[k := currentMaterial st]> (blocks st)
      ∧ dom (blockMeshes st1) = {[k]} ∪ dom (blockMeshes st)
      ∧ frame st st1
      ∧ placeBlock st = (Normal tt, saveState st1).
Proof.
  intros Hm. destruct (hoveredBlock st) as [[[q r] y]|] eqn:Hh.
  2: { left. by apply placeBlock_nothing_hovered. }
  destruct (decide (0 <= placeY_of y < maxHeight)%Z) as [Hy|Hy].
  2: { left. eapply placeBlock_out_of_range; [done|lia]. }
  destruct (blocks st !! (q, r, placeY_of y)) as [m0|] eqn:E.
  { left. eapply placeBlock_occupied; [done|]. by rewrite E. }
  right. destruct (placeBlock_free st q r y Hh Hy E Hm) as (st1 & _ & ? & ? & ? & ?).
  by exists (q, r, placeY_of y), st1.
Qed.

Lemma removeBlockAtCursor_cases hit st :
  removeBlockAtCursor hit st = (Normal tt, st)
  ∨ ∃ k st1, is_Some (blocks st !! k)
      ∧ blocks st1 = delete k (blocks st)
      ∧ blockMeshes st1 = delete k (blockMeshes st)
      ∧ frame st st1
      ∧ removeBlockAtCursor hit st = (Normal tt, saveState st1).
Proof.
  unfold removeBlockAtCursor.
  destruct (hit ≫= _) as [block|]; [|by left].
  destruct (blocks st !! (mesh_q block, mesh_r block, mesh_y block)) as [m0|] eqn:E.
  - right.
    destruct (removeBlock_present (mesh_q block) (mesh_r block) (mesh_y block) true st)
      as (st1 & E1 & ? & ? & ?); [by rewrite E|].
    exists (mesh_q block, mesh_r block, mesh_y block), st1.
    rewrite E. split; [done|]. repeat (split; [done|]).
    unfold bind. by rewrite E1.
  - left. unfold bind. by rewrite removeBlock_absent.
Qed.

(** *** The invariant of a session *)

Record session_inv (st : State) : Prop := {
  inv_wf : hist_wf st;
  inv_idx : (0 <= historyIndex st)%Z;
  inv_current : JsNum.index (history st) (historyIndex st) = Some (blocks st);
  inv_keys : same_keys st;
  inv_valid : valid_store (blocks st);
  inv_hist_valid : Forall valid_store (history st);
  inv_material : (currentMaterial st < length MATERIALS)%nat
}.

Lemma saveState_hist_valid st :
  Forall valid_store (history st) → valid_store (blocks st) →
  Forall valid_store (history (saveState st)).
Proof.
  intros Hh Hb. unfold saveState.
  set (h1 := if (_ <? _)%Z then _ else _).
  assert (Forall valid_store h1) as Hh1.
  { subst h1. destruct (_ <? _)%Z; [|done].
    unfold JsNum.slice0. destruct (_ <? _)%Z; by apply Forall_take. }
  assert (Forall valid_store (h1 ++ [blocks st])) as Hh2.
  { apply Forall_app. split; [done|]. by apply Forall_singleton. }
  destruct (_ <? _)%nat; simpl; [by apply Forall_drop|done].
Qed.

Lemma saveState_inv st :
  (length (history st) ≤ 50)%nat → same_keys st → valid_store (blocks st) →
  Forall valid_store (history st) →
  (currentMaterial st < length MATERIALS)%nat →
  session_inv (saveState st).
Proof.
  intros Hl Hk Hv Hhv Hm.
  destruct (saveState_blocks st) as (Eb & Em & Ec & _).
  split.
  - by apply saveState3D_wf.
  - rewrite saveState_index. pose proof (saveState_nonempty st). lia.
  - rewrite Eb. apply saveState3D_last.
  - unfold same_keys. by rewrite Eb, Em.
  - by rewrite Eb.
  - by apply saveState_hist_valid.
  - by rewrite Ec.
Qed.

Lemma placeBlock_inv st : session_inv st → session_inv (placeBlock st).2.
Proof.
  intros I. destruct (placeBlock_cases st (inv_material st I))
    as [->|(k & st1 & Hfree & Hb & Hd & (Hh & Hi & Hc & _) & ->)]; [done|].
  simpl. apply saveState_inv.
  - rewrite Hh. apply I.
  - unfold same_keys. rewrite Hb, Hd, dom_insert_L. by rewrite (inv_keys st I).
  - rewrite Hb. apply map_Forall_insert_2; [apply I|apply I].
  - rewrite Hh. apply I.
  - rewrite Hc. apply I.
Qed.

Lemma removeBlockAtCursor_inv hit st :
  session_inv st → session_inv (removeBlockAtCursor hit st).2.
Proof.
  intros I. destruct (removeBlockAtCursor_cases hit st)
    as [->|(k & st1 & Hocc & Hb & Hd & (Hh & Hi & Hc & _) & ->)]; [done|].
  simpl. apply saveState_inv.
  - rewrite Hh. apply I.
  - unfold same_keys. rewrite Hb, Hd, !dom_delete_L. by rewrite (inv_keys st I).
  - rewrite Hb. apply map_Forall_delete, I.
  - rewrite Hh. apply I.
  - rewrite Hc. apply I.
Qed.

(** Loading the snapshot at an index inside the history succeeds. *)
Lemma loadState_at st i :
  Forall valid_store (history st) → (0 <= i < Z.of_nat (length (history st)))%Z →
  ∃ snap st', JsNum.index (history st) i = Some snap
    ∧ loadState (Some snap) (set_history (history st) i st) = (Normal tt, st')
    ∧ blocks st' = snap
    ∧ dom (blockMeshes st') = dom snap
    ∧ frame (set_history (history st) i st) st'.
Proof.
  intros Hv Hi.
  destruct (lookup_lt_is_Some_2 (history st) (Z.to_nat i)) as [snap Hs]; [lia|].
  assert (JsNum.index (history st) i = Some snap) as Hidx.
  { unfold JsNum.index. destruct (i <? 0)%Z eqn:E; [apply Z.ltb_lt in E; lia|done]. }
  destruct (loadState_ok snap (set_history (history st) i st)) as (st' & ?).
  { eapply Forall_lookup_1; [exact Hv|exact Hs]. }
  by exists snap, st'.
Qed.

Lemma moved_inv st st' i snap :
  session_inv st → (0 <= i < Z.of_nat (length (history st)))%Z →
  JsNum.index (history st) i = Some snap →
  blocks st' = snap → dom (blockMeshes st') = dom snap →
  frame (set_history (history st) i st) st' →
  session_inv st'.
Proof.
  intros I Hi Hidx Hb Hd (Hh & Hix & Hc & _). simpl in *.
  split.
  - unfold hist_wf. rewrite Hh, Hix. split; [apply I|lia].
  - rewrite Hix. lia.
  - by rewrite Hh, Hix, Hb.
  - unfold same_keys. by rewrite Hb, Hd.
  - rewrite Hb. unfold JsNum.index in Hidx.
    destruct (i <? 0)%Z; [done|].
    eapply Forall_lookup_1; [apply (inv_hist_valid st I)|exact Hidx].
  - rewrite Hh. apply I.
  - rewrite Hc. apply I.
Qed.

Lemma undo_inv st : session_inv st → session_inv (undo st).2.
Proof.
  intros I. unfold undo. destruct (_ <=? _)%Z eqn:E; [done|].
  apply Z.leb_gt in E. destruct (inv_wf st I) as [_ Hi].
  destruct (loadState_at st (historyIndex st - 1)) as (snap & st' & Hidx & El & ?).
  { apply I. } { lia. }
  simpl. rewrite Hidx, El. simpl.
  eapply (moved_inv st st' (historyIndex st - 1) snap); try done; [lia|tauto..].
Qed.

Lemma redo_inv st : session_inv st → session_inv (redo st).2.
Proof.
  intros I. unfold redo. destruct (_ <=? _)%Z eqn:E; [done|].
  apply Z.leb_gt in E. destruct (inv_wf st I) as [_ Hi].
  pose proof (inv_idx st I).
  destruct (loadState_at st (historyIndex st + 1)) as (snap & st' & Hidx & El & ?).
  { apply I. } { lia. }
  simpl. rewrite Hidx, El. simpl.
  eapply (moved_inv st st' (historyIndex st + 1) snap); try done; [lia|tauto..].
Qed.

Lemma step_inv ev st : session_inv st → session_inv (step ev st).
Proof.
  intros I. destruct ev; simpl.
  - by destruct I.
  - apply placeBlock_inv. by destruct I.
  - by apply removeBlockAtCursor_inv.
  - by apply placeBlock_inv.
  - by apply undo_inv.
  - by apply redo_inv.
  - destruct (_ <? _)%nat eqn:E; [|done].
    apply Nat.ltb_lt in E. by destruct I.
Qed.

Lemma init_inv : session_inv init.
Proof.
  set (st1 := (addStarterBlocks starterPositions STATE0).2).
  assert (init = saveState st1) as -> by (vm_compute; reflexivity).
  assert (history st1 = []) as Hh by (vm_compute; reflexivity).
  apply saveState_inv.
  - rewrite Hh. simpl. lia.
  - unfold same_keys. vm_compute. reflexivity.
  - unfold valid_store. apply (bool_decide_unpack _). by vm_compute.
  - rewrite Hh. constructor.
  - assert (currentMaterial st1 = 0%nat) as -> by (vm_compute; reflexivity).
    simpl. lia.
Qed.

Lemma run_inv evs st : session_inv st → session_inv (run evs st).
Proof.
  revert st. induction evs as [|ev evs IH]; intros st I; [done|].
  simpl. by apply IH, step_inv.
Qed.

(** The cap alone is kept by every event, from any state. *)
Lemma step_length_le ev st :
  (length (history st) ≤ 50)%nat → (length (history (step ev st)) ≤ 50)%nat.
Proof.
  intros H.
  assert (∀ st0, (length (history st0) ≤ 50)%nat →
            (length (history (placeBlock st0).2) ≤ 50)%nat) as Hplace.
  { intros st0 H0. unfold placeBlock.
    destruct (hoveredBlock st0) as [[[q r] y]|]; [|done].
    destruct (_ && _); [|done]. unfold bind.
    pose proof (addBlock_frame q r (placeY_of y) (currentMaterial st0) true st0) as (Hh & _).
    destruct (addBlock _ _ _ _ _ _) as [[[|]|] st1]; simpl in *;
      [apply saveState3D_length_le| |]; by rewrite Hh. }
  destruct ev; simpl; try done.
  - by apply Hplace.
  - unfold removeBlockAtCursor. destruct (hit ≫= _) as [block|]; [|done].
    unfold bind.
    pose proof (removeBlock_frame (mesh_q block) (mesh_r block) (mesh_y block) true st)
      as (Hh & _).
    destruct (removeBlock _ _ _ _ _) as [[[|]|] st1]; simpl in *;
      [apply saveState3D_length_le| |]; by rewrite Hh.
  - by apply Hplace.
  - by destruct (undo_frame st) as [-> _].
  - by destruct (redo_frame st) as [-> _].
  - by destruct (_ <? _)%nat.
Qed.

End History3D.

(* ===================================================================== *)
(** ** Recording from the empty history *)
(* ===================================================================== *)

Section LastFifty.
Context {A : Type}.
Implicit Types (l : list A) (x : A).

(** Appending to the last fifty entries and dropping the oldest when the
    cap is passed gives the last fifty entries of the longer list. *)
Lemma last_fifty_snoc l x :
  (if (50 <? length (drop (length l - 50) l ++ [x]))%nat
   then drop 1 (drop (length l - 50) l ++ [x])
   else drop (length l - 50) l ++ [x])
  = drop (length (l ++ [x]) - 50) (l ++ [x]).
Proof.
  rewrite !length_app, length_drop. simpl.
  destruct (50 <? _)%nat eqn:E.
  - apply Nat.ltb_lt in E.
    rewrite drop_app_le by (rewrite length_drop; lia).
    rewrite drop_drop.
    replace (length l + 1 - 50)%nat with (length l - 50 + 1)%nat by lia.
    by rewrite drop_app_le by lia.
  - apply Nat.ltb_ge in E.
    replace (length l - 50)%nat with 0%nat by lia.
    replace (length l + 1 - 50)%nat with 0%nat by lia.
    done.
Qed.

End LastFifty.

Lemma record_all_2D (stores : list (gmap (Z * Z) string)) :
  Hex2D.history (Hex2D.record_all stores Hex2D.STATE0)
    = drop (length stores - 50) stores
  ∧ Hex2D.historyIndex (Hex2D.record_all stores Hex2D.STATE0)
    = (Z.of_nat (length (Hex2D.history (Hex2D.record_all stores Hex2D.STATE0))) - 1)%Z.
Proof.
  induction stores as [|x l IH] using rev_ind; [done|].
  unfold Hex2D.record_all in *. rewrite fold_left_app. simpl.
  set (st := fold_left _ l Hex2D.STATE0) in *.
  destruct IH as [Hh Hi].
  destruct (History2D.saveState_history (Hex2D.set_hexCells x st)) as [Hh' Hi'].
  { simpl. lia. }
  split; [|done]. rewrite Hh'. unfold History2D.kept. simpl.
  rewrite Hi, take_ge by lia. rewrite Hh. apply last_fifty_snoc.
Qed.

Lemma record_all_3D (stores : list (gmap (Z * Z * Z) nat)) :
  Hex3D.history (Hex3D.record_all stores Hex3D.STATE0)
    = drop (length stores - 50) stores
  ∧ Hex3D.historyIndex (Hex3D.record_all stores Hex3D.STATE0)
    = (Z.of_nat (length (Hex3D.history (Hex3D.record_all stores Hex3D.STATE0))) - 1)%Z.
Proof.
  induction stores as [|x l IH] using rev_ind; [done|].
  unfold Hex3D.record_all in *. rewrite fold_left_app. simpl.
  set (st := fold_left _ l Hex3D.STATE0) in *.
  destruct IH as [Hh Hi].
  split; [|apply History3D.saveState_index].
  rewrite History3D.saveState3D_history by (simpl; lia).
  unfold History3D.kept. simpl.
  rewrite Hi, take_ge by lia. rewrite Hh. apply last_fifty_snoc.
Qed.

(* ===================================================================== *)
(** ** The history stack *)
(* ===================================================================== *)

(** C3. In both variants the history never holds more than 50 snapshots,
    whatever events a session consists of; [saveState] leaves the index on
    the last position, which holds the snapshot just taken; and after [n]
    calls of [saveState] from the empty history the list is the last 50 of
    the [n] snapshots, so the 51st call has evicted the oldest one. *)
Theorem history_capped_at_50
    (evs2 : list Hex2D.Event) (evs3 : list Hex3D.Event)
    (stores2 : list (gmap (Z * Z) string))
    (stores3 : list (gmap (Z * Z * Z) nat)) :
  let st2 := Hex2D.run evs2 Hex2D.init in
  let st3 := Hex3D.run evs3 Hex3D.init in
  let rec2 := Hex2D.record_all stores2 Hex2D.STATE0 in
  let rec3 := Hex3D.record_all stores3 Hex3D.STATE0 in
  ((length (Hex2D.history st2) ≤ 50)%nat
   ∧ (length (Hex2D.history (Hex2D.saveState st2)) ≤ 50)%nat
   ∧ Hex2D.historyIndex (Hex2D.saveState st2)
     = (Z.of_nat (length (Hex2D.history (Hex2D.saveState st2))) - 1)%Z
   ∧ JsNum.index (Hex2D.history (Hex2D.saveState st2))
       (Hex2D.historyIndex (Hex2D.saveState st2)) = Some (Hex2D.hexCells st2))
  ∧ ((length (Hex3D.history st3) ≤ 50)%nat
     ∧ (length (Hex3D.history (Hex3D.saveState st3)) ≤ 50)%nat
     ∧ Hex3D.historyIndex (Hex3D.saveState st3)
       = (Z.of_nat (length (Hex3D.history (Hex3D.saveState st3))) - 1)%Z
     ∧ JsNum.index (Hex3D.history (Hex3D.saveState st3))
         (Hex3D.historyIndex (Hex3D.saveState st3)) = Some (Hex3D.blocks st3))
  ∧ (Hex2D.history rec2 = drop (length stores2 - 50) stores2
     ∧ Hex2D.historyIndex rec2
       = (Z.of_nat (length (Hex2D.history rec2)) - 1)%Z)
  ∧ (Hex3D.history rec3 = drop (length stores3 - 50) stores3
     ∧ Hex3D.historyIndex rec3
       = (Z.of_nat (length (Hex3D.history rec3)) - 1)%Z).
Proof.
  intros st2 st3 rec2 rec3.
  assert (History2D.hist_wf st2) as Hwf2.
  { apply History2D.run_wf, History2D.saveState_wf, History2D.STATE0_wf. }
  assert (History3D.session_inv st3) as I3.
  { apply History3D.run_inv, History3D.init_inv. }
  destruct (History3D.inv_wf st3 I3) as [Hl3 _].
  split; [|split; [|split]].
  - split; [apply Hwf2|]. split; [apply History2D.saveState_length_le, Hwf2|].
    split; [apply History2D.saveState_history, Hwf2|].
    by apply History2D.saveState_last.
  - split; [done|]. split; [by apply History3D.saveState3D_length_le|].
    split; [apply History3D.saveState_index|apply History3D.saveState3D_last].
  - apply record_all_2D.
  - apply record_all_3D.
Qed.

(** The 51st snapshot pushes the first one out (an instance of C3). *)
Example fifty_first_evicts_oldest_2D (stores : list (gmap (Z * Z) string)) :
  length stores = 51%nat →
  Hex2D.history (Hex2D.record_all stores Hex2D.STATE0) = drop 1 stores
  ∧ Hex2D.historyIndex (Hex2D.record_all stores Hex2D.STATE0) = 49%Z.
Proof.
  intros Hlen. destruct (record_all_2D stores) as [Hh Hi].
  rewrite Hi, Hh, Hlen. split; [done|].
  rewrite length_drop, Hlen. done.
Qed.

(** C10. In both variants [undo] and [redo] return the history list as it
    was; they change the index and the live store only, the index by
    exactly one when the guard lets the operation through, and nothing at
    all otherwise. *)
Theorem undo_redo_leave_history_list (st2 : Hex2D.State) (st3 : Hex3D.State) :
  (Hex2D.history (Hex2D.undo st2) = Hex2D.history st2
   ∧ Hex2D.history (Hex2D.redo st2) = Hex2D.history st2
   ∧ (if (0 <? Hex2D.historyIndex st2)%Z
      then Hex2D.historyIndex (Hex2D.undo st2) = (Hex2D.historyIndex st2 - 1)%Z
      else Hex2D.undo st2 = st2)
   ∧ (if (Hex2D.historyIndex st2 <? Z.of_nat (length (Hex2D.history st2)) - 1)%Z
      then Hex2D.historyIndex (Hex2D.redo st2) = (Hex2D.historyIndex st2 + 1)%Z
      else Hex2D.redo st2 = st2)
   ∧ ∀ st', st' = Hex2D.undo st2 ∨ st' = Hex2D.redo st2 →
       Hex2D.currentTool st' = Hex2D.currentTool st2
       ∧ Hex2D.currentColor st' = Hex2D.currentColor st2
       ∧ Hex2D.gridSize st' = Hex2D.gridSize st2
       ∧ Hex2D.isDrawing st' = Hex2D.isDrawing st2
       ∧ Hex2D.isPanning st' = Hex2D.isPanning st2)
  ∧ (Hex3D.history (Hex3D.undo st3).2 = Hex3D.history st3
     ∧ Hex3D.history (Hex3D.redo st3).2 = Hex3D.history st3
     ∧ (if (Hex3D.historyIndex st3 <=? 0)%Z
        then Hex3D.undo st3 = (Hex3D.Normal tt, st3)
        else Hex3D.historyIndex (Hex3D.undo st3).2 = (Hex3D.historyIndex st3 - 1)%Z)
     ∧ (if (Z.of_nat (length (Hex3D.history st3)) - 1 <=? Hex3D.historyIndex st3)%Z
        then Hex3D.redo st3 = (Hex3D.Normal tt, st3)
        else Hex3D.historyIndex (Hex3D.redo st3).2 = (Hex3D.historyIndex st3 + 1)%Z)
     ∧ ∀ st', st' = (Hex3D.undo st3).2 ∨ st' = (Hex3D.redo st3).2 →
         Hex3D.currentMaterial st' = Hex3D.currentMaterial st3
         ∧ Hex3D.hoveredBlock st' = Hex3D.hoveredBlock st3
         ∧ Hex3D.isPlacing st' = Hex3D.isPlacing st3).
Proof.
  split.
  - split; [apply History2D.undo_history|].
    split; [apply History2D.redo_history|].
    unfold Hex2D.undo, Hex2D.redo.
    split; [by destruct (0 <? _)%Z|]. split; [by destruct (_ <? _ - 1)%Z|].
    intros st' [-> | ->]; by destruct (_ <? _)%Z.
  - destruct (History3D.undo_frame st3) as [Hu Hui].
    destruct (History3D.redo_frame st3) as [Hr Hri].
    split; [done|]. split; [done|].
    split; [|split].
    + destruct (_ <=? 0)%Z eqn:E; [|done]. unfold Hex3D.undo. by rewrite E.
    + destruct (_ - 1 <=? _)%Z eqn:E; [|done]. unfold Hex3D.redo. by rewrite E.
    + clear. intros st' [-> | ->].
      * unfold Hex3D.undo. destruct (_ <=? _)%Z; [done|].
        match goal with |- context [Hex3D.loadState ?s ?t] =>
          destruct (History3D.loadState_frame s t) as (_ & _ & -> & -> & ->) end.
        done.
      * unfold Hex3D.redo. destruct (_ <=? _)%Z; [done|].
        match goal with |- context [Hex3D.loadState ?s ?t] =>
          destruct (History3D.loadState_frame s t) as (_ & _ & -> & -> & ->) end.
        done.
Qed.

(* ===================================================================== *)
(** ** The 3D block store *)
(* ===================================================================== *)

(** The starter platform with the pointer over the ground at hex (0,0),
    whose layer 0 holds a Stone block. *)
Definition over_origin : Hex3D.State :=
  Hex3D.set_hoveredBlock (Some (0, 0, -1)%Z) Hex3D.init.

(** The starter platform with the pointer over free ground at hex (5,5). *)
Definition over_free_ground : Hex3D.State :=
  Hex3D.set_hoveredBlock (Some (5, 5, -1)%Z) Hex3D.init.

(** The starter platform with the pointer resolved to layer 20. *)
Definition over_layer_20 : Hex3D.State :=
  Hex3D.set_hoveredBlock (Some (0, 0, 20)%Z) Hex3D.init.

(** C7. Placing on an occupied cell is not an overwrite: [addBlock] returns
    [false] and leaves the whole state as it was, so the key keeps its one
    entry with the material it had; and [placeBlock], when the hovered cell
    resolves to that key, changes nothing either: no snapshot is recorded. *)
Theorem addBlock_occupied_is_noop
    (st : Hex3D.State) (q r y : Z) (m m0 : nat) (a : bool) :
  Hex3D.blocks st !! (q, r, y) = Some m0 →
  Hex3D.addBlock q r y m a st = (Hex3D.Normal false, st)
  ∧ Hex3D.blocks (Hex3D.addBlock q r y m a st).2 !! (q, r, y) = Some m0
  ∧ size (Hex3D.blocks (Hex3D.addBlock q r y m a st).2) = size (Hex3D.blocks st)
  ∧ ∀ y0, Hex3D.hoveredBlock st = Some (q, r, y0) → Hex3D.placeY_of y0 = y →
      Hex3D.placeBlock st = (Hex3D.Normal tt, st)
      ∧ Hex3D.history (Hex3D.placeBlock st).2 = Hex3D.history st
      ∧ Hex3D.historyIndex (Hex3D.placeBlock st).2 = Hex3D.historyIndex st.
Proof.
  intros Hocc.
  assert (Hex3D.addBlock q r y m a st = (Hex3D.Normal false, st)) as E.
  { apply History3D.addBlock_occupied. by rewrite Hocc. }
  rewrite E. simpl. repeat (split; [done|]).
  intros y0 Hh <-.
  rewrite (History3D.placeBlock_occupied st q r y0 Hh); [done|].
  by rewrite Hocc.
Qed.

Lemma addBlock_occupied_is_noop_witness :
  Hex3D.addBlock 0 0 0 0 true over_origin = (Hex3D.Normal false, over_origin)
  ∧ Hex3D.placeBlock over_origin = (Hex3D.Normal tt, over_origin).
Proof.
  destruct (addBlock_occupied_is_noop over_origin 0 0 0 0 0 true) as (H1 & _ & _ & H2).
  { vm_compute. reflexivity. }
  split; [exact H1|].
  apply (H2 (-1)%Z); reflexivity.
Defined.

(** C8. [placeBlock] rejects a resolved layer outside [0, maxHeight), with
    [maxHeight = 20]: the state, store and history included, is unchanged.
    A ground hit, hovered layer -1, resolves to layer 0 and the block is
    stored there over a free cell, with a snapshot of the new store at the
    history index. *)
Theorem placeBlock_layer_bounds (st : Hex3D.State) (q r y : Z) :
  Hex3D.hoveredBlock st = Some (q, r, y) →
  Hex3D.maxHeight = 20%Z
  ∧ ((Hex3D.placeY_of y < 0 ∨ Hex3D.maxHeight <= Hex3D.placeY_of y)%Z →
     Hex3D.placeBlock st = (Hex3D.Normal tt, st))
  ∧ (y = (-1)%Z →
     Hex3D.placeY_of y = 0%Z
     ∧ (Hex3D.blocks st !! (q, r, 0%Z) = None →
        (Hex3D.currentMaterial st < length Hex3D.MATERIALS)%nat →
        ∃ st', Hex3D.placeBlock st = (Hex3D.Normal tt, st')
          ∧ Hex3D.blocks st'
            = <[(q, r, 0%Z) := Hex3D.currentMaterial st]> (Hex3D.blocks st)
          ∧ JsNum.index (Hex3D.history st') (Hex3D.historyIndex st')
            = Some (Hex3D.blocks st'))).
Proof.
  intros Hh. split; [done|]. split.
  - intros Hy. by eapply History3D.placeBlock_out_of_range.
  - intros ->. split; [done|]. intros Hfree Hm.
    destruct (History3D.placeBlock_free st q r (-1) Hh) as (st1 & _ & E & Hb & _).
    { unfold Hex3D.placeY_of, Hex3D.maxHeight. simpl. lia. } { done. } { done. }
    exists (Hex3D.saveState st1). split; [done|].
    destruct (History3D.saveState_blocks st1) as (-> & _).
    split; [done|]. apply History3D.saveState3D_last.
Qed.

Lemma placeBlock_layer_bounds_witness :
  Hex3D.placeBlock over_layer_20 = (Hex3D.Normal tt, over_layer_20)
  ∧ ∃ st', Hex3D.placeBlock over_free_ground = (Hex3D.Normal tt, st')
      ∧ Hex3D.blocks st'
        = <[(5, 5, 0)%Z := Hex3D.currentMaterial over_free_ground]>
            (Hex3D.blocks over_free_ground)
      ∧ JsNum.index (Hex3D.history st') (Hex3D.historyIndex st')
        = Some (Hex3D.blocks st').
Proof.
  split.
  - destruct (placeBlock_layer_bounds over_layer_20 0 0 20 eq_refl) as (_ & H & _).
    apply H. right. vm_compute. discriminate.
  - destruct (placeBlock_layer_bounds over_free_ground 5 5 (-1) eq_refl)
      as (_ & _ & H).
    destruct (H eq_refl) as [_ H']. apply H'.
    + vm_compute. reflexivity.
    + vm_compute. lia.
Defined.

(** C9. [STATE.blocks] and [blockMeshes] hold the same keys: [addBlock]
    with an index of [MATERIALS], [removeBlock], and [loadState] of a
    snapshot whose payloads are indices of [MATERIALS] each return normally
    and keep the two key sets equal, and so does every session. *)
Theorem blocks_and_meshes_share_keys
    (st : Hex3D.State) (q r y : Z) (m : nat) (a : bool)
    (snap : gmap (Z * Z * Z) nat) (evs : list Hex3D.Event) :
  History3D.same_keys st →
  (m < length Hex3D.MATERIALS)%nat →
  History3D.valid_store snap →
  (∃ b st', Hex3D.addBlock q r y m a st = (Hex3D.Normal b, st')
      ∧ History3D.same_keys st')
  ∧ (∃ b st', Hex3D.removeBlock q r y a st = (Hex3D.Normal b, st')
      ∧ History3D.same_keys st')
  ∧ (∃ st', Hex3D.loadState (Some snap) st = (Hex3D.Normal tt, st')
      ∧ History3D.same_keys st' ∧ Hex3D.blocks st' = snap)
  ∧ History3D.same_keys (Hex3D.run evs Hex3D.init).
Proof.
  intros Hk Hm Hv. split; [|split; [|split]].
  - by apply History3D.addBlock_same_keys.
  - by apply History3D.removeBlock_same_keys.
  - destruct (History3D.loadState_ok snap st Hv) as (st' & E & Hb & Hd & _).
    exists st'. split; [done|]. split; [|done].
    unfold History3D.same_keys. by rewrite Hb, Hd.
  - apply History3D.inv_keys, History3D.run_inv, History3D.init_inv.
Qed.

Lemma blocks_and_meshes_share_keys_witness :
  (∃ b st', Hex3D.addBlock 2 0 0 1 true Hex3D.init = (Hex3D.Normal b, st')
      ∧ History3D.same_keys st')
  ∧ (∃ b st', Hex3D.removeBlock 2 0 0 true Hex3D.init = (Hex3D.Normal b, st')
      ∧ History3D.same_keys st')
  ∧ (∃ st', Hex3D.loadState (Some {[ (0, 0, 0)%Z := 3%nat ]}) Hex3D.init
            = (Hex3D.Normal tt, st')
      ∧ History3D.same_keys st'
      ∧ Hex3D.blocks st' = {[ (0, 0, 0)%Z := 3%nat ]})
  ∧ History3D.same_keys (Hex3D.run [Hex3D.LeftDown] Hex3D.init).
Proof.
  apply (blocks_and_meshes_share_keys Hex3D.init 2 0 0 1 true
           {[ (0, 0, 0)%Z := 3%nat ]} [Hex3D.LeftDown]).
  - unfold History3D.same_keys. vm_compute. reflexivity.
  - vm_compute. lia.
  - unfold History3D.valid_store. apply (bool_decide_unpack _). vm_compute. exact I.
Defined.

(* ===================================================================== *)
(** ** Undo and redo over a session *)
(* ===================================================================== *)

Module Sessions3D.
Import Hex3D History3D.

Lemma undo_moves st :
  session_inv st → (0 < historyIndex st)%Z →
  ∃ st', undo st = (Normal tt, st')
    ∧ JsNum.index (history st) (historyIndex st - 1) = Some (blocks st')
    ∧ history st' = history st
    ∧ historyIndex st' = (historyIndex st - 1)%Z.
Proof.
  intros I Hpos. destruct (inv_wf st I) as [_ Hi].
  destruct (loadState_at st (historyIndex st - 1))
    as (snap & st' & Hidx & El & Hb & _ & (Hh & Hix & _)).
  { apply I. } { lia. }
  exists st'. unfold undo.
  destruct (_ <=? _)%Z eqn:E; [apply Z.leb_le in E; lia|].
  simpl. rewrite Hidx, El. by rewrite Hb.
Qed.

Lemma redo_moves st :
  session_inv st →
  (historyIndex st < Z.of_nat (length (history st)) - 1)%Z →
  ∃ st', redo st = (Normal tt, st')
    ∧ JsNum.index (history st) (historyIndex st + 1) = Some (blocks st')
    ∧ history st' = history st
    ∧ historyIndex st' = (historyIndex st + 1)%Z.
Proof.
  intros I Hlt. pose proof (inv_idx st I).
  destruct (loadState_at st (historyIndex st + 1))
    as (snap & st' & Hidx & El & Hb & _ & (Hh & Hix & _)).
  { apply I. } { lia. }
  exists st'. unfold redo.
  destruct (_ <=? _)%Z eqn:E; [apply Z.leb_le in E; lia|].
  simpl. rewrite Hidx, El. by rewrite Hb.
Qed.

(** An edit: any event but undo and redo. *)
Definition is_edit (ev : Event) : Prop :=
  match ev with UndoKey | RedoKey => False | _ => True end.

Definition at_end (st : State) : Prop :=
  historyIndex st = (Z.of_nat (length (history st)) - 1)%Z.

Lemma edit_at_end ev st :
  session_inv st → is_edit ev → at_end st → at_end (step ev st).
Proof.
  intros I Hed Hend. unfold at_end in *. destruct ev; simpl; try done.
  - destruct (placeBlock_cases (set_isPlacing true st))
      as [->|(k & st1 & _ & _ & _ & _ & ->)]; [apply I|done|].
    apply saveState_index.
  - destruct (removeBlockAtCursor_cases hit st)
      as [->|(k & st1 & _ & _ & _ & _ & ->)]; [done|].
    apply saveState_index.
  - destruct (placeBlock_cases st)
      as [->|(k & st1 & _ & _ & _ & _ & ->)]; [apply I|done|].
    apply saveState_index.
  - by destruct (_ <? _)%nat.
Qed.

Lemma edits_at_end evs st :
  session_inv st → Forall is_edit evs → at_end st → at_end (run evs st).
Proof.
  revert st. induction evs as [|ev evs IH]; intros st I Hed Hend; [done|].
  apply Forall_cons in Hed as [Hev Hed]. simpl.
  apply IH; [by apply step_inv|done|by apply edit_at_end].
Qed.

Lemma init_at_end : at_end init.
Proof. unfold at_end. vm_compute. reflexivity. Qed.

(** Undo then redo gives back the block store, in every state of a session
    in which the undo has a state to go back to or no redo is pending. *)
Lemma undo_redo_restores st :
  session_inv st → (0 < historyIndex st)%Z ∨ at_end st →
  ∃ st1 st2, undo st = (Normal tt, st1) ∧ redo st1 = (Normal tt, st2)
    ∧ blocks st2 = blocks st
    ∧ history st2 = history st ∧ historyIndex st2 = historyIndex st.
Proof.
  intros I Hcase. destruct (decide (0 < historyIndex st)%Z) as [Hpos|Hzero].
  - destruct (undo_moves st I Hpos) as (st1 & Eu & Hb1 & Hh1 & Hi1).
    assert (session_inv st1) as I1.
    { replace st1 with (undo st).2 by (by rewrite Eu). by apply undo_inv. }
    destruct (inv_wf st I) as [_ Hi].
    destruct (redo_moves st1 I1) as (st2 & Er & Hb2 & Hh2 & Hi2).
    { rewrite Hh1, Hi1. lia. }
    exists st1, st2. split; [done|]. split; [done|].
    rewrite Hh1, Hi1 in Hb2.
    replace (historyIndex st - 1 + 1)%Z with (historyIndex st) in Hb2 by lia.
    rewrite (inv_current st I) in Hb2.
    split; [congruence|]. split; [congruence|lia].
  - destruct Hcase as [?|Hend]; [done|].
    exists st, st. unfold undo, redo. unfold at_end in Hend.
    destruct (historyIndex st <=? 0)%Z eqn:E1; [|apply Z.leb_gt in E1; lia].
    destruct (_ - 1 <=? _)%Z eqn:E2; [done|apply Z.leb_gt in E2; lia].
Qed.

End Sessions3D.

(** The session of the 2D editor that draws one cell: a left click on cell
    (0,0) with the draw tool, right after [init()]. *)
Definition leftClick : Hex2D.MouseEvent :=
  {| Hex2D.button := 0; Hex2D.altKey := false |}.

Definition after_first_stroke : Hex2D.State :=
  Hex2D.handleMouseUp (Hex2D.handleMouseDown leftClick (0, 0)%Z Hex2D.init).

(** C1, 2D editor, evaluated. After one drawn cell, undo empties the store
    and redo leaves it empty: [handleMouseDown] recorded the store as it was
    before the stroke, so the drawn cell is in no snapshot. *)
Theorem undo_redo_2D_loses_last_stroke :
  Hex2D.hexCells after_first_stroke = {[ (0, 0)%Z := "#6366f1" ]}
  ∧ Hex2D.history after_first_stroke = [∅; ∅]
  ∧ Hex2D.historyIndex after_first_stroke = 1%Z
  ∧ Hex2D.hexCells (Hex2D.undo after_first_stroke) = ∅
  ∧ Hex2D.hexCells (Hex2D.redo (Hex2D.undo after_first_stroke)) = ∅
  ∧ Hex2D.hexCells (Hex2D.redo (Hex2D.undo after_first_stroke))
    ≠ Hex2D.hexCells after_first_stroke.
Proof.
  repeat split; try (vm_compute; reflexivity).
  vm_compute. discriminate.
Qed.

(** Three clicks of the 2D editor that change no cell. *)
Definition erase_on_empty : Hex2D.State :=
  Hex2D.handleMouseDown leftClick (0, 0)%Z (Hex2D.selectTool "erase" Hex2D.init).

Definition click_outside_grid : Hex2D.State :=
  Hex2D.handleMouseDown leftClick (-1, 0)%Z Hex2D.init.

Definition draw_same_colour : Hex2D.State :=
  Hex2D.handleMouseDown leftClick (0, 0)%Z after_first_stroke.

(** C2, 2D editor, evaluated. Erasing an empty cell, a click that resolves
    outside the grid and drawing a cell in the colour it has leave the store
    as it was, and each makes the history one snapshot longer. *)
Theorem noop_click_2D_grows_history :
  (Hex2D.hexCells erase_on_empty = Hex2D.hexCells Hex2D.init
   ∧ length (Hex2D.history Hex2D.init) = 1%nat
   ∧ length (Hex2D.history erase_on_empty) = 2%nat)
  ∧ (Hex2D.hexCells click_outside_grid = Hex2D.hexCells Hex2D.init
     ∧ length (Hex2D.history click_outside_grid) = 2%nat)
  ∧ (Hex2D.hexCells draw_same_colour = Hex2D.hexCells after_first_stroke
     ∧ length (Hex2D.history after_first_stroke) = 2%nat
     ∧ length (Hex2D.history draw_same_colour) = 3%nat).
Proof. repeat split; vm_compute; reflexivity. Qed.

(** A fill click on a cell that already has the current colour. *)
Definition before_self_fill : Hex2D.State :=
  Hex2D.selectTool "fill" after_first_stroke.

Definition self_fill_click : Hex2D.State :=
  Hex2D.handleMouseDown leftClick (0, 0)%Z before_self_fill.

(** C5, 2D editor, evaluated. With the replacement equal to the target,
    [floodFill] and [drawAtPosition] return the state they were given; the
    click that dispatched them has made the history one snapshot longer. *)
Theorem self_fill_click_2D_grows_history :
  Hex2D.hexCells before_self_fill !! (0, 0)%Z
    = Some (Hex2D.currentColor before_self_fill)
  ∧ Hex2D.drawAtPosition (0, 0)%Z before_self_fill = before_self_fill
  ∧ Hex2D.hexCells self_fill_click = Hex2D.hexCells before_self_fill
  ∧ length (Hex2D.history before_self_fill) = 2%nat
  ∧ length (Hex2D.history self_fill_click) = 3%nat.
Proof. repeat split; vm_compute; reflexivity. Qed.

(* ===================================================================== *)
(** ** Flood fill *)
(* ===================================================================== *)

Module FloodFill.
Import Hex2D.

(** What a filled cell holds afterwards: the colour, or nothing when the
    colour is falsy and the cell was deleted. *)
Definition written (fillColor : string) : option string :=
  if JsNum.truthy fillColor then Some fillColor else None.

(** [k] is reached from [start] through neighbouring cells that all hold
    [targetColor] in the store [cells0]. *)
Inductive connected (gs : Z) (cells0 : gmap (Z * Z) string)
    (targetColor : option string) (start : Z * Z) : Z * Z → Prop :=
  | connected_start :
      cells0 !! start = targetColor →
      connected gs cells0 targetColor start start
  | connected_step k k' :
      connected gs cells0 targetColor start k →
      k' ∈ getNeighbors gs k.1 k.2 →
      cells0 !! k' = targetColor →
      connected gs cells0 targetColor start k'.

Lemma lookup_fillCell fillColor k k' cells :
  fillCell fillColor k cells !! k' =
    if decide (k = k') then written fillColor else cells !! k'.
Proof.
  unfold fillCell, written. destruct (JsNum.truthy fillColor).
  - apply lookup_insert.
  - apply lookup_delete.
Qed.

Lemma getNeighbors_length gs col row : (length (getNeighbors gs col row) ≤ 6)%nat.
Proof. unfold getNeighbors. etrans; [apply length_filter|]. done. Qed.

Lemma pushNeighbors_length visited ns stack :
  (length (pushNeighbors visited ns stack) ≤ length ns + length stack)%nat.
Proof.
  unfold pushNeighbors. revert stack.
  induction ns as [|n ns IH]; intros stack; simpl; [lia|].
  destruct (decide _); etrans; try apply IH; simpl; lia.
Qed.

Lemma pushNeighbors_elem visited ns stack k :
  k ∈ pushNeighbors visited ns stack → k ∈ ns ∨ k ∈ stack.
Proof.
  unfold pushNeighbors. revert stack.
  induction ns as [|n ns IH]; intros stack; simpl; [by right|].
  intros H. destruct (decide _); apply IH in H as [H|H].
  - left. by right.
  - by right.
  - left. by right.
  - apply elem_of_cons in H as [->|H]; [left; by left|by right].
Qed.

(** *** The loop ends within its fuel *)

Lemma floodFill_loop_total fuel gs targetColor fillColor cells visited stack filled :
  (6 * (fillCap - filled) + length stack ≤ fuel)%nat →
  is_Some (floodFill_loop fuel gs targetColor fillColor cells visited stack filled).
Proof.
  revert cells visited stack filled.
  induction fuel as [|fuel IH]; intros cells visited stack filled Hm.
  - destruct stack as [|top rest]; cbn [floodFill_loop]; [by eexists|].
    destruct (fillCap <=? filled)%nat eqn:E; [by eexists|].
    simpl length in Hm. lia.
  - destruct stack as [|top rest]; cbn [floodFill_loop]; [by eexists|].
    destruct (fillCap <=? filled)%nat eqn:E; [by eexists|].
    apply Nat.leb_gt in E. simpl length in Hm.
    destruct (decide (top ∈ visited)); [apply IH; lia|].
    destruct (decide (cells !! top = targetColor)); [|apply IH; lia].
    apply IH.
    pose proof (pushNeighbors_length ({[top]} ∪ visited)
                  (getNeighbors gs top.1 top.2) rest).
    pose proof (getNeighbors_length gs top.1 top.2).
    lia.
Qed.

(** *** The loop invariant *)

Section Invariant.
Context (gs : Z) (targetColor : option string) (fillColor : string).
Context (cells0 : gmap (Z * Z) string) (start : Z * Z).

(** [F] lists the cells filled so far. *)
Record fill_inv (cells : gmap (Z * Z) string) (visited : gset (Z * Z))
    (stack : list (Z * Z)) (filled : nat) (F : list (Z * Z)) : Prop := {
  fi_nodup : NoDup F;
  fi_length : length F = filled;
  fi_cap : (filled ≤ fillCap)%nat;
  fi_visited : ∀ k, k ∈ F → k ∈ visited;
  fi_target : ∀ k, k ∈ F →
    cells0 !! k = targetColor ∧ connected gs cells0 targetColor start k;
  fi_written : ∀ k, k ∈ F → cells !! k = written fillColor;
  fi_rest : ∀ k, k ∉ F → cells !! k = cells0 !! k;
  fi_stack : ∀ k, k ∈ stack →
    k = start ∨ ∃ k', k' ∈ F ∧ k ∈ getNeighbors gs k'.1 k'.2
}.

Lemma fill_inv_skip cells visited visited' top rest filled F :
  fill_inv cells visited (top :: rest) filled F →
  visited ⊆ visited' →
  fill_inv cells visited' rest filled F.
Proof.
  intros [] Hsub. split; try done.
  - intros k Hk. apply Hsub. auto.
  - intros k Hk. apply fi_stack0. by right.
Qed.

Lemma fill_inv_fill cells visited top rest filled F :
  fill_inv cells visited (top :: rest) filled F →
  (filled < fillCap)%nat → top ∉ visited → cells !! top = targetColor →
  fill_inv (fillCell fillColor top cells) ({[top]} ∪ visited)
    (pushNeighbors ({[top]} ∪ visited) (getNeighbors gs top.1 top.2) rest)
    (S filled) (top :: F).
Proof.
  intros [] Hlt Hnv Hcell.
  assert (top ∉ F) as HnF by (intros H; by apply Hnv, fi_visited0).
  assert (cells0 !! top = targetColor) as H0 by (by rewrite <- fi_rest0).
  assert (connected gs cells0 targetColor start top) as Hconn.
  { destruct (fi_stack0 top) as [->|(k' & Hk' & Hn)]; [by left| |].
    - by apply connected_start.
    - eapply connected_step; [by apply fi_target0|done..]. }
  split.
  - by apply NoDup_cons.
  - simpl. by rewrite fi_length0.
  - lia.
  - intros k [->|Hk]%elem_of_cons; [set_solver|].
    apply elem_of_union_r. auto.
  - intros k [->|Hk]%elem_of_cons; [done|auto].
  - intros k Hk. rewrite lookup_fillCell.
    destruct (decide (top = k)) as [->|Hne]; [done|].
    apply elem_of_cons in Hk as [->|Hk]; [done|auto].
  - intros k Hk. rewrite lookup_fillCell.
    apply not_elem_of_cons in Hk as [Hne HkF].
    rewrite decide_False by done. auto.
  - intros k [Hk|Hk]%pushNeighbors_elem.
    + right. exists top. split; [by left|done].
    + destruct (fi_stack0 k) as [->|(k' & Hk' & Hn)]; [by right|by left|].
      right. exists k'. split; [by right|done].
Qed.

Lemma floodFill_loop_inv fuel cells visited stack filled F cells' filled' :
  fill_inv cells visited stack filled F →
  floodFill_loop fuel gs targetColor fillColor cells visited stack filled
    = Some (cells', filled') →
  ∃ F' visited' stack', fill_inv cells' visited' stack' filled' F'.
Proof.
  revert cells visited stack filled F.
  induction fuel as [|fuel IH]; intros cells visited stack filled F Hinv;
    destruct stack as [|top rest]; cbn [floodFill_loop].
  - intros [= <- <-]. eauto.
  - destruct (fillCap <=? filled)%nat; [|done]. intros [= <- <-]. eauto.
  - intros [= <- <-]. eauto.
  - destruct (fillCap <=? filled)%nat eqn:E; [intros [= <- <-]; eauto|].
    apply Nat.leb_gt in E.
    destruct (decide (top ∈ visited)) as [Hv|Hv].
    { apply IH with (F := F). by eapply fill_inv_skip. }
    destruct (decide (cells !! top = targetColor)) as [Hc|Hc].
    + apply IH with (F := top :: F). by apply fill_inv_fill.
    + apply IH with (F := F). eapply fill_inv_skip; [done|set_solver].
Qed.

Lemma fill_inv_initial : fill_inv cells0 ∅ [start] 0 [].
Proof.
  split; try done.
  - apply NoDup_nil_2.
  - unfold fillCap. lia.
  - intros k Hk. by apply elem_of_nil in Hk.
  - intros k Hk. by apply elem_of_nil in Hk.
  - intros k Hk. by apply elem_of_nil in Hk.
  - intros k ->%list_elem_of_singleton. by left.
Qed.

End Invariant.

End FloodFill.

(** C4. For a target different from the replacement, [floodFill] returns
    normally (the loop ends within its fuel, also when the cap cuts the fill
    short) and there is a duplicate-free list of at most 1000 filled cells
    such that: every filled cell held the target payload, is connected to
    the start through cells holding the target payload, and now holds the
    replacement; every other cell, the ones beyond the cap included, keeps
    its payload; so every cell whose payload changed is one of the at most
    1000 filled cells. *)
Theorem floodFill_capped (st : Hex2D.State) (startCol startRow : Z)
    (targetColor : option string) (fillColor : string) :
  targetColor ≠ Some fillColor →
  ∃ cells' filled filledCells,
    Hex2D.floodFill_run startCol startRow targetColor fillColor st
      = Some (cells', filled)
    ∧ Hex2D.floodFill startCol startRow targetColor fillColor st
      = Hex2D.set_hexCells cells' st
    ∧ NoDup filledCells
    ∧ length filledCells = filled
    ∧ (filled ≤ 1000)%nat
    ∧ (∀ k, k ∈ filledCells →
         Hex2D.hexCells st !! k = targetColor
         ∧ FloodFill.connected (Hex2D.gridSize st) (Hex2D.hexCells st)
             targetColor (startCol, startRow) k
         ∧ cells' !! k = FloodFill.written fillColor)
    ∧ (∀ k, k ∉ filledCells → cells' !! k = Hex2D.hexCells st !! k)
    ∧ (∀ k, cells' !! k ≠ Hex2D.hexCells st !! k → k ∈ filledCells).
Proof.
  intros Hne.
  assert (∃ res, Hex2D.floodFill_run startCol startRow targetColor fillColor st
                 = Some res) as [[cells' filled] Hrun].
  { unfold Hex2D.floodFill_run. rewrite decide_False by done.
    apply FloodFill.floodFill_loop_total.
    unfold Hex2D.floodFill_fuel. simpl length. lia. }
  pose proof Hrun as Hloop.
  unfold Hex2D.floodFill_run in Hloop. rewrite decide_False in Hloop by done.
  destruct (FloodFill.floodFill_loop_inv _ _ _ _ _ _ _ _ _ _ _ _ _
              (FloodFill.fill_inv_initial (Hex2D.gridSize st) targetColor
                 fillColor (Hex2D.hexCells st) (startCol, startRow)) Hloop)
    as (F & visited' & stack' & []).
  exists cells', filled, F.
  split; [done|]. split; [unfold Hex2D.floodFill; by rewrite Hrun|].
  split; [done|]. split; [done|]. split; [done|].
  split; [|split; [done|]].
  - intros k Hk. destruct (fi_target k Hk). auto.
  - intros k Hk. destruct (decide (k ∈ F)) as [|Hn]; [done|].
    by destruct Hk; apply fi_rest.
Qed.

Lemma floodFill_capped_witness :
  ∃ cells' filled filledCells,
    Hex2D.floodFill_run 0 0 None "#ff0000" Hex2D.init = Some (cells', filled)
    ∧ Hex2D.floodFill 0 0 None "#ff0000" Hex2D.init
      = Hex2D.set_hexCells cells' Hex2D.init
    ∧ NoDup filledCells
    ∧ length filledCells = filled
    ∧ (filled ≤ 1000)%nat
    ∧ (∀ k, k ∈ filledCells →
         Hex2D.hexCells Hex2D.init !! k = None
         ∧ FloodFill.connected (Hex2D.gridSize Hex2D.init)
             (Hex2D.hexCells Hex2D.init) None (0, 0)%Z k
         ∧ cells' !! k = FloodFill.written "#ff0000")
    ∧ (∀ k, k ∉ filledCells → cells' !! k = Hex2D.hexCells Hex2D.init !! k)
    ∧ (∀ k, cells' !! k ≠ Hex2D.hexCells Hex2D.init !! k → k ∈ filledCells).
Proof.
  apply (floodFill_capped Hex2D.init 0 0 None "#ff0000"). discriminate.
Defined.

(* ===================================================================== *)
(** ** Hex to pixel and back *)
(* ===================================================================== *)

Module RoundTrip.
Import JsNum.

(** Two coordinate pairs compared with [===], component by component. *)
Definition same_hex (a b : float * float) : bool :=
  PrimFloat.eqb a.1 b.1 && PrimFloat.eqb a.2 b.2.

(** [pixelToHex(hexToPixel(col, row))] is [(col, row)], for the grid of the
    given hex size, pan offset (0,0) and zoom 1. *)
Definition roundTrip2D (hexSize col row : float) : bool :=
  let g := Hex2D.updateDimensions hexSize in
  let p := Hex2D.hexToPixel g col row in
  same_hex (Hex2D.pixelToHex g 1 p.1 p.2 (0, 0)%float) (col, row).

(** [worldToHex(hexToWorld(q, r))] is [(q, r)]. *)
Definition roundTrip3D (q r : float) : bool :=
  let p := Hex3D.hexToWorld q r in
  same_hex (Hex3D.worldToHex p.1 p.2) (q, r).

End RoundTrip.

(* ===================================================================== *)
(** ** Binary64 arithmetic over the reals *)
(* ===================================================================== *)

Module Binary64.

Local Open Scope R_scope.

Definition bpow (e : Z) : R := powerRZ 2 e.

Lemma bpow_pos e : 0 < bpow e.
Proof. apply powerRZ_lt. lra. Qed.

Lemma bpow_add a b : bpow (a + b) = bpow a * bpow b.
Proof. apply powerRZ_add. lra. Qed.

Lemma bpow_0 : bpow 0 = 1.
Proof. reflexivity. Qed.

Lemma bpow_1 : bpow 1 = 2.
Proof. unfold bpow. simpl. lra. Qed.

Lemma bpow_succ e : bpow (e + 1) = 2 * bpow e.
Proof. rewrite bpow_add, bpow_1. lra. Qed.

Lemma bpow_opp e : bpow (- e) = / bpow e.
Proof. apply powerRZ_neg'. Qed.

Lemma bpow_nonneg_IZR n : (0 <= n)%Z → bpow n = IZR (2 ^ n).
Proof.
  intros Hn. pattern n. apply natlike_ind; [reflexivity| |done].
  intros x Hx IH. rewrite Z.pow_succ_r by done. rewrite mult_IZR.
  unfold Z.succ. rewrite bpow_succ, IH. done.
Qed.

Lemma bpow_lt a b : (a < b)%Z → bpow a < bpow b.
Proof.
  intros H. replace b with (a + (b - a))%Z by lia.
  rewrite bpow_add. rewrite (bpow_nonneg_IZR (b - a)) by lia.
  assert (1 < IZR (2 ^ (b - a))).
  { apply IZR_lt. apply Z.pow_gt_1; lia. }
  pose proof (bpow_pos a). nra.
Qed.

Lemma bpow_le a b : (a <= b)%Z → bpow a <= bpow b.
Proof.
  intros H. destruct (Z.eq_dec a b) as [->|]; [lra|].
  left. apply bpow_lt. lia.
Qed.

Lemma bpow_lt_inv a b : bpow a < bpow b → (a < b)%Z.
Proof.
  intros H. destruct (Z_lt_le_dec a b); [done|].
  pose proof (bpow_le b a ltac:(lia)). lra.
Qed.

Lemma bpow_le_inv a b : bpow a <= bpow b → (a <= b)%Z.
Proof.
  intros H. destruct (Z_le_gt_dec a b); [done|].
  pose proof (bpow_lt b a ltac:(lia)). lra.
Qed.

(** *** Digits *)

Lemma digits2_pos_bounds m :
  (2 ^ (Zpos (digits2_pos m) - 1) <= Zpos m < 2 ^ Zpos (digits2_pos m))%Z.
Proof.
  induction m as [m IH|m IH|]; cbn [digits2_pos].
  - rewrite Pos2Z.inj_succ.
    replace (Z.succ (Zpos (digits2_pos m)) - 1)%Z
      with (Z.succ (Zpos (digits2_pos m) - 1)) by lia.
    rewrite !Z.pow_succ_r by lia. lia.
  - rewrite Pos2Z.inj_succ.
    replace (Z.succ (Zpos (digits2_pos m)) - 1)%Z
      with (Z.succ (Zpos (digits2_pos m) - 1)) by lia.
    rewrite !Z.pow_succ_r by lia. lia.
  - simpl. lia.
Qed.

Lemma digits_unique m k :
  (2 ^ (k - 1) <= Zpos m < 2 ^ k)%Z → Zpos (digits2_pos m) = k.
Proof.
  intros [H1 H2]. pose proof (digits2_pos_bounds m) as [H3 H4].
  assert (0 < k)%Z as Hk.
  { destruct (Z_lt_le_dec 0%Z k); [done|].
    destruct (Z.eq_dec k 0%Z) as [->|]; [simpl in H2; lia|].
    rewrite Z.pow_neg_r in H2 by lia. lia. }
  assert (Zpos (digits2_pos m) - 1 < k)%Z.
  { apply (Z.pow_lt_mono_r_iff 2); lia. }
  assert (k - 1 < Zpos (digits2_pos m))%Z.
  { apply (Z.pow_lt_mono_r_iff 2); lia. }
  lia.
Qed.

(** *** The position of a real among the multiples of [2^e] *)

Definition inb (m e : Z) (l : location) (v : R) : Prop :=
  match l with
  | loc_Exact => v = IZR m * bpow e
  | loc_Inexact c =>
      IZR m * bpow e < v < (IZR m + 1) * bpow e
      ∧ match c with
        | Lt => v < (IZR m + / 2) * bpow e
        | Eq => v = (IZR m + / 2) * bpow e
        | Gt => (IZR m + / 2) * bpow e < v
        end
  end.

Lemma IZR_xO p : IZR (Zpos p~0) = 2 * IZR (Zpos p).
Proof. rewrite Pos2Z.inj_xO, mult_IZR. done. Qed.

Lemma IZR_xI p : IZR (Zpos p~1) = 2 * IZR (Zpos p) + 1.
Proof. rewrite Pos2Z.inj_xI, plus_IZR, mult_IZR. done. Qed.

Lemma shr_1_inb mrs e v :
  (0 <= shr_m mrs)%Z →
  inb (shr_m mrs) e (loc_of_shr_record mrs) v →
  (0 <= shr_m (shr_1 mrs))%Z
  ∧ inb (shr_m (shr_1 mrs)) (e + 1) (loc_of_shr_record (shr_1 mrs)) v.
Proof.
  destruct mrs as [m r s]. cbn [shr_m]. intros Hm H.
  pose proof (bpow_pos e) as HB.
  destruct m as [|p|p]; [| |lia].
  - destruct r, s; cbn in *; rewrite ?bpow_succ; (split; [lia|]);
      unfold inb in *; cbn in *; lra.
  - destruct p as [p|p|].
    + pose proof (IZR_xI p) as E.
      destruct r, s; cbn [shr_1 orb shr_m loc_of_shr_record];
        (split; [lia|]); unfold inb in *; cbn [loc_of_shr_record] in *;
        rewrite ?bpow_succ; rewrite E in H; nra.
    + pose proof (IZR_xO p) as E.
      destruct r, s; cbn [shr_1 orb shr_m loc_of_shr_record];
        (split; [lia|]); unfold inb in *; cbn [loc_of_shr_record] in *;
        rewrite ?bpow_succ; rewrite E in H; nra.
    + destruct r, s; cbn [shr_1 orb shr_m loc_of_shr_record];
        (split; [lia|]); unfold inb in *; cbn [loc_of_shr_record] in *;
        rewrite ?bpow_succ; lra.
Qed.

Lemma iter_pos_nat {A} (f : A → A) p x :
  SpecFloat.iter_pos f p x = Nat.iter (Pos.to_nat p) f x.
Proof.
  revert x. induction p as [p IH|p IH|]; intros x; cbn [SpecFloat.iter_pos].
  - rewrite !IH, Pos2Nat.inj_xI. cbn [Nat.mul].
    rewrite Nat.add_0_r, Nat.iter_succ_r, Nat.iter_add. done.
  - rewrite !IH, Pos2Nat.inj_xO. cbn [Nat.mul].
    rewrite Nat.add_0_r, Nat.iter_add. done.
  - done.
Qed.

Lemma shr_n_inb n mrs e v :
  (0 <= shr_m mrs)%Z →
  inb (shr_m mrs) e (loc_of_shr_record mrs) v →
  (0 <= shr_m (Nat.iter n shr_1 mrs))%Z
  ∧ inb (shr_m (Nat.iter n shr_1 mrs)) (e + Z.of_nat n)
      (loc_of_shr_record (Nat.iter n shr_1 mrs)) v.
Proof.
  intros Hm H. induction n as [|n [IH1 IH2]].
  - simpl. by rewrite Z.add_0_r.
  - cbn [Nat.iter].
    replace (e + Z.of_nat (S n))%Z with (e + Z.of_nat n + 1)%Z by lia.
    by apply shr_1_inb.
Qed.

Lemma shr_inb mrs e n v :
  (0 <= shr_m mrs)%Z →
  inb (shr_m mrs) e (loc_of_shr_record mrs) v →
  (0 <= shr_m (shr mrs e n).1)%Z
  ∧ (shr mrs e n).2 = (e + Z.max n 0)%Z
  ∧ inb (shr_m (shr mrs e n).1) (e + Z.max n 0)
      (loc_of_shr_record (shr mrs e n).1) v.
Proof.
  intros Hm H. destruct n as [|p|p]; cbn [shr fst snd].
  - rewrite Z.add_0_r. done.
  - rewrite iter_pos_nat.
    replace (Z.max (Z.pos p) 0) with (Z.of_nat (Pos.to_nat p)) by lia.
    destruct (shr_n_inb (Pos.to_nat p) mrs e v Hm H) as [H1 H2].
    split; [done|]. split; [lia|done].
  - replace (Z.max (Z.neg p) 0) with 0%Z by lia. rewrite Z.add_0_r. done.
Qed.

Lemma record_of_loc m l :
  shr_m (shr_record_of_loc m l) = m
  ∧ loc_of_shr_record (shr_record_of_loc m l) = l.
Proof. by destruct l as [|[]]. Qed.

(** *** Rounding to nearest *)

Lemma round_nearest_even_spec m e l v :
  inb m e l v →
  (round_nearest_even m l = m ∨ round_nearest_even m l = (m + 1)%Z)
  ∧ (l = loc_Exact → round_nearest_even m l = m)
  ∧ Rabs (IZR (round_nearest_even m l) * bpow e - v) <= bpow e / 2.
Proof.
  pose proof (bpow_pos e) as HB. intros H.
  destruct l as [|[]]; cbn [round_nearest_even inb] in *.
  - split; [by left|]. split; [done|]. subst v.
    replace (_ - _) with 0 by lra. rewrite Rabs_R0. lra.
  - split; [destruct (Z.even m); auto|]. split; [done|].
    destruct H as [H1 H2]. destruct (Z.even m).
    + apply Rabs_le. lra.
    + rewrite plus_IZR. apply Rabs_le. lra.
  - split; [by left|]. split; [done|]. apply Rabs_le. lra.
  - split; [by right|]. split; [done|]. rewrite plus_IZR. apply Rabs_le. lra.
Qed.

Lemma shr_nonpos mrs e n : (n <= 0)%Z → shr mrs e n = (mrs, e).
Proof. destruct n; [done|lia|done]. Qed.

Lemma inb_bounds m e l v :
  inb m e l v → IZR m * bpow e <= v < (IZR m + 1) * bpow e.
Proof.
  pose proof (bpow_pos e). destruct l as [|c]; cbn [inb].
  - intros ->. lra.
  - intros [H1 _]. lra.
Qed.

(** [binary_round_aux] for binary64: the result is within half an ulp, that
    is within [2^-53] of the value relatively, when the mantissa is exact
    or has at least 53 bits. *)
Lemma round_aux_spec sx p ex lx v :
  (-1074 <= ex)%Z →
  inb (Zpos p) ex lx v →
  lx = loc_Exact ∨ (2 ^ 52 <= Zpos p)%Z →
  v < bpow 900 →
  ∃ m e, binary_round_aux prec emax sx (Zpos p) ex lx = S754_finite sx m e
    ∧ Rabs (IZR (Zpos m) * bpow e - v) <= bpow (-53) * v
    ∧ ((ex <= fexp prec emax (Zpos (digits2_pos p) + ex))%Z →
       valid_binary (S754_finite sx m e) = true).
Proof.
  intros Hex Hin Hl Hv.
  pose proof (bpow_pos ex) as HB0.
  pose proof (inb_bounds _ _ _ _ Hin) as [Hv1 Hv2].
  pose proof (digits2_pos_bounds p) as [Hd1 Hd2].
  set (d := Zpos (digits2_pos p)) in *.
  assert (1 <= d)%Z as Hd0 by (subst d; lia).
  assert (1 <= IZR (Zpos p)) as Hp1 by (apply IZR_le; lia).
  (* the second stage, from a mantissa of 53 bits *)
  assert (∀ m' e' l', (2 ^ 52 <= m' < 2 ^ 53)%Z → (ex <= e')%Z →
            inb m' e' l' v →
            ∃ m e,
              match shr_m (shr_fexp prec emax (round_nearest_even m' l') e'
                             loc_Exact).1 with
              | Z0 => S754_zero sx
              | Zpos m0 =>
                  if ((shr_fexp prec emax (round_nearest_even m' l') e'
                         loc_Exact).2 <=? emax - prec)%Z
                  then S754_finite sx m0
                         (shr_fexp prec emax (round_nearest_even m' l') e'
                            loc_Exact).2
                  else S754_infinity sx
              | Zneg _ => S754_nan
              end = S754_finite sx m e
              ∧ Rabs (IZR (Zpos m) * bpow e - v) <= bpow (-53) * v
              ∧ valid_binary (S754_finite sx m e) = true) as Hstage.
  { intros m' e' l' Hm' He' Hin'.
    pose proof (bpow_pos e') as HB.
    pose proof (inb_bounds _ _ _ _ Hin') as [Hw1 Hw2].
    destruct (round_nearest_even_spec _ _ _ _ Hin') as (Hm1 & _ & Herr).
    set (m1 := round_nearest_even m' l') in *.
    assert (IZR (2 ^ 52) <= IZR m') as Hm'R by (apply IZR_le; lia).
    assert (bpow (52 + e') <= v) as Hlow.
    { rewrite bpow_add, (bpow_nonneg_IZR 52) by lia. nra. }
    assert (e' < 848)%Z as He2.
    { assert (52 + e' < 900)%Z; [|lia]. apply bpow_lt_inv. lra. }
    assert (bpow e' / 2 <= bpow (-53) * v) as Hrel.
    { replace (bpow e') with (bpow (-52) * bpow (52 + e'))
        by (rewrite <- bpow_add; f_equal; lia).
      replace (bpow (-52)) with (2 * bpow (-53))
        by (rewrite <- bpow_succ; f_equal).
      pose proof (bpow_pos (-53)). nra. }
    unfold shr_fexp, fexp, SpecFloat.emin, prec, emax.
    destruct (Z_lt_le_dec m1 (2 ^ 53)) as [Hlt|Hge].
    - assert (∃ q, m1 = Zpos q) as [q Hq].
      { destruct m1 as [|q|q]; [lia|by exists q|lia]. }
      rewrite Hq. cbn [Zdigits2].
      rewrite (digits_unique q 53) by (rewrite <- Hq; lia).
      rewrite shr_nonpos by lia. cbn [fst snd shr_record_of_loc shr_m].
      exists q, e'. split; [|split].
      + destruct (e' <=? 1024 - 53)%Z eqn:E; [done|].
        apply Z.leb_gt in E. lia.
      + rewrite <- Hq. lra.
      + unfold SpecFloat.valid_binary, SpecFloat.bounded, SpecFloat.canonical_mantissa, fexp,
          SpecFloat.emin, prec, emax.
        rewrite (digits_unique q 53) by (rewrite <- Hq; lia).
        apply andb_true_intro. split; [apply Z.eqb_eq|apply Z.leb_le]; lia.
    - assert (m1 = (2 ^ 53)%Z) as Hq by lia.
      rewrite Hq.
      replace (Z.max (Zdigits2 (2 ^ 53) + e' - 53) (3 - 1024 - 53) - e')%Z
        with 1%Z by (change (Zdigits2 (2 ^ 53)) with 54%Z; lia).
      cbn [shr fst snd]. 
      change (shr_m (SpecFloat.iter_pos shr_1 1
                       (shr_record_of_loc (2 ^ 53) loc_Exact)))
        with (2 ^ 52)%Z.
      change (2 ^ 52)%Z with (Zpos (2 ^ 52)%positive).
      exists (2 ^ 52)%positive, (e' + 1)%Z. split; [|split].
      + destruct (e' + 1 <=? 1024 - 53)%Z eqn:E; [done|].
        apply Z.leb_gt in E. lia.
      + rewrite Hq in Herr. rewrite bpow_succ.
        change (Zpos (2 ^ 52)%positive) with (2 ^ 52)%Z.
        replace (IZR (2 ^ 52) * (2 * bpow e')) with (IZR (2 ^ 53) * bpow e').
        * lra.
        * change (2 ^ 53)%Z with (2 * 2 ^ 52)%Z. rewrite mult_IZR. lra.
      + unfold SpecFloat.valid_binary, SpecFloat.bounded, SpecFloat.canonical_mantissa, fexp,
          SpecFloat.emin, prec, emax.
        change (Zpos (digits2_pos (2 ^ 52))) with 53%Z.
        apply andb_true_intro. split; [apply Z.eqb_eq|apply Z.leb_le]; lia. }
  unfold binary_round_aux.
  destruct (shr_fexp prec emax (Zpos p) ex lx) as [mrs' e'] eqn:E1.
  unfold shr_fexp, fexp, SpecFloat.emin, prec, emax in E1.
  cbn [Zdigits2] in E1. fold d in E1.
  destruct (record_of_loc (Zpos p) lx) as [Hr1 Hr2].
  destruct (Z_le_gt_dec d 53) as [Hd53|Hd53].
  - rewrite shr_nonpos in E1 by lia. injection E1 as <- <-.
    rewrite Hr1, Hr2.
    destruct Hl as [->|Hp52].
    + (* exact, nothing shifted *)
      cbn [round_nearest_even].
      unfold shr_fexp, fexp, SpecFloat.emin, prec, emax.
      cbn [Zdigits2]. fold d.
      rewrite shr_nonpos by lia. cbn [fst snd shr_record_of_loc shr_m].
      assert (ex < 900)%Z as Hex9.
      { apply bpow_lt_inv. nra. }
      exists p, ex. split; [|split].
      * destruct (ex <=? 1024 - 53)%Z eqn:E; [done|].
        apply Z.leb_gt in E. lia.
      * cbn [inb] in Hin. subst v. replace (_ - _) with 0 by lra.
        rewrite Rabs_R0. pose proof (bpow_pos (-53)).
        apply Rmult_le_pos; [lra|nra].
      * intros Hc. unfold SpecFloat.valid_binary, SpecFloat.bounded, SpecFloat.canonical_mantissa.
        fold d. unfold fexp, SpecFloat.emin, prec, emax in *. fold d in Hc.
        apply andb_true_intro. split; [apply Z.eqb_eq|apply Z.leb_le]; lia.
    + destruct (Hstage (Zpos p) ex lx) as (m & e & Hres & Herr & Hval);
        [|lia|done|].
      { split; [done|]. eapply Z.lt_le_trans; [exact Hd2|].
        apply Z.pow_le_mono_r; lia. }
      exists m, e. split; [|done].
      destruct (shr_fexp prec emax (round_nearest_even (Zpos p) lx) ex loc_Exact)
        as [mrs'' e''] eqn:E2. exact Hres.
  - (* at least 54 bits: shifted down to 53 *)
    destruct (shr_inb (shr_record_of_loc (Zpos p) lx) ex
                (Z.max (d + ex - 53) (3 - 1024 - 53) - ex) v) as (G1 & G2 & G3).
    { rewrite Hr1. lia. } { by rewrite Hr1, Hr2. }
    rewrite E1 in G1, G2, G3. cbn [fst snd] in G1, G2, G3.
    replace (ex + Z.max (Z.max (d + ex - 53) (3 - 1024 - 53) - ex) 0)%Z
      with (ex + (d - 53))%Z in G2, G3 by lia.
    subst e'.
    pose proof (inb_bounds _ _ _ _ G3) as [Hw1 Hw2].
    set (m' := shr_m mrs') in *.
    assert (IZR (2 ^ (d - 53)) = bpow (d - 53)) as HK
      by (symmetry; apply bpow_nonneg_IZR; lia).
    pose proof (bpow_pos (d - 53)) as HKpos.
    rewrite bpow_add in Hw1, Hw2.
    assert (IZR (2 ^ 52) * bpow (d - 53) <= IZR (Zpos p)) as Hp2.
    { rewrite <- HK, <- mult_IZR. apply IZR_le.
      rewrite <- Z.pow_add_r by lia. replace (52 + (d - 53))%Z with (d - 1)%Z by lia.
      done. }
    assert (IZR (Zpos p) + 1 <= IZR (2 ^ 53) * bpow (d - 53)) as Hp3.
    { rewrite <- HK, <- mult_IZR, <- (plus_IZR _ 1). apply IZR_le.
      rewrite <- Z.pow_add_r by lia. replace (53 + (d - 53))%Z with d by lia.
      lia. }
    assert (2 ^ 52 <= m' < 2 ^ 53)%Z as Hm'.
    { split.
      - assert (2 ^ 52 < m' + 1)%Z; [|lia]. apply lt_IZR. rewrite plus_IZR. nra.
      - apply lt_IZR. nra. }
    destruct (Hstage m' (ex + (d - 53))%Z (loc_of_shr_record mrs'))
      as (m & e & Hres & Herr & Hval); [done|lia|exact G3|].
    exists m, e. split; [|done].
    destruct (shr_fexp prec emax
                (round_nearest_even m' (loc_of_shr_record mrs'))
                (ex + (d - 53)) loc_Exact) as [mrs'' e''] eqn:E2. exact Hres.
Qed.

(** *** The value of a binary64 number *)

Definition sgn (s : bool) : R := if s then -1 else 1.

Definition B2R (x : spec_float) : R :=
  match x with
  | S754_finite s m e => sgn s * IZR (Zpos m) * bpow e
  | _ => 0
  end.

Definition is_fin (x : spec_float) : bool :=
  match x with
  | S754_finite _ _ _ | S754_zero _ => true
  | _ => false
  end.

(** [a] is [v] up to a relative error of [2^-53]. *)
Definition rel (a v : R) : Prop := Rabs (a - v) <= bpow (-53) * Rabs v.

Lemma rel_refl v : rel v v.
Proof.
  unfold rel. replace (v - v) with 0 by lra. rewrite Rabs_R0.
  pose proof (bpow_pos (-53)). pose proof (Rabs_pos v). nra.
Qed.

Lemma sgn_abs s t : Rabs (sgn s * t) = Rabs t.
Proof.
  destruct s; unfold sgn.
  - replace (-1 * t) with (- t) by lra. apply Rabs_Ropp.
  - f_equal. lra.
Qed.

Lemma sgn_xorb a b : sgn (xorb a b) = sgn a * sgn b.
Proof. destruct a, b; unfold sgn; simpl; lra. Qed.

Lemma valid_finite s m e :
  valid_binary (S754_finite s m e) = true →
  (-1074 <= e <= 971)%Z ∧ 1 <= IZR (Zpos m) < bpow 53
  ∧ (e = fexp prec emax (Zpos (digits2_pos m) + e))%Z.
Proof.
  unfold SpecFloat.valid_binary, SpecFloat.bounded, SpecFloat.canonical_mantissa.
  intros [H1 H2]%andb_true_iff. apply Z.eqb_eq in H1. apply Z.leb_le in H2.
  pose proof (digits2_pos_bounds m) as [Hd1 Hd2].
  unfold fexp, SpecFloat.emin, prec, emax in *.
  split; [lia|]. split; [|lia]. split; [apply IZR_le; lia|].
  rewrite (bpow_nonneg_IZR 53) by lia. apply IZR_lt.
  eapply Z.lt_le_trans; [exact Hd2|]. apply Z.pow_le_mono_r; lia.
Qed.

Lemma finite_value_pos s m e :
  0 < Rabs (B2R (S754_finite s m e))
  ∧ Rabs (B2R (S754_finite s m e)) = IZR (Zpos m) * bpow e.
Proof.
  cbn [B2R]. rewrite Rmult_assoc, sgn_abs.
  assert (1 <= IZR (Zpos m)) by (apply IZR_le; lia).
  pose proof (bpow_pos e).
  rewrite Rabs_pos_eq by nra. split; [nra|done].
Qed.

(** *** Multiplication *)

Lemma SFmul_model x y :
  is_fin x = true → is_fin y = true →
  valid_binary x = true → valid_binary y = true →
  B2R x * B2R y = 0 ∨ bpow (-900) <= Rabs (B2R x * B2R y) →
  Rabs (B2R x * B2R y) < bpow 900 →
  is_fin (SF64mul x y) = true ∧ rel (B2R (SF64mul x y)) (B2R x * B2R y).
Proof.
  intros Fx Fy Vx Vy Hlow Hup.
  destruct x as [sx| | |sx mx ex]; try done;
    destruct y as [sy| | |sy my ey]; try done;
    try (split; [done|]; cbn [SF64mul SFmul B2R];
         replace (_ * _) with 0 by lra; apply rel_refl).
  unfold SF64mul. cbn [SFmul].
  destruct (valid_finite _ _ _ Vx) as (Hex & [Hmx1 Hmx2] & _).
  destruct (valid_finite _ _ _ Vy) as (Hey & [Hmy1 Hmy2] & _).
  pose proof (bpow_pos ex) as HBx. pose proof (bpow_pos ey) as HBy.
  set (v := IZR (Zpos (mx * my)) * bpow (ex + ey)).
  assert (B2R (S754_finite sx mx ex) * B2R (S754_finite sy my ey)
          = sgn (xorb sx sy) * v) as Hprod.
  { subst v. cbn [B2R]. rewrite sgn_xorb, Pos2Z.inj_mul, mult_IZR, bpow_add. ring. }
  assert (0 < v) as Hvpos.
  { subst v. rewrite Pos2Z.inj_mul, mult_IZR, bpow_add.
    apply Rmult_lt_0_compat; nra. }
  rewrite Hprod, sgn_abs, (Rabs_pos_eq v) in * by lra.
  assert (bpow (-900) <= v) as Hlow'.
  { destruct Hlow as [Hz|]; [|done].
    assert (sgn (xorb sx sy) <> 0) by (destruct (xorb sx sy); unfold sgn; lra).
    nra. }
  assert (-1074 <= ex + ey)%Z as Hexy.
  { assert (-900 < 106 + (ex + ey))%Z; [|lia].
    apply bpow_lt_inv. eapply Rle_lt_trans; [exact Hlow'|].
    subst v. rewrite Pos2Z.inj_mul, mult_IZR.
    replace (106 + (ex + ey))%Z with ((53 + 53) + (ex + ey))%Z by lia.
    rewrite !bpow_add.
    pose proof (bpow_pos 53).
    assert (IZR (Zpos mx) * IZR (Zpos my) < bpow 53 * bpow 53) by nra.
    apply Rmult_lt_compat_r; [nra|done]. }
  destruct (round_aux_spec (xorb sx sy) (mx * my) (ex + ey) loc_Exact v)
    as (m & e & -> & Herr & _); [done|done|by left|done|].
  split; [done|]. unfold rel. cbn [B2R].
  replace (sgn (xorb sx sy) * IZR (Zpos m) * bpow e - sgn (xorb sx sy) * v)
    with (sgn (xorb sx sy) * (IZR (Zpos m) * bpow e - v)) by ring.
  rewrite !sgn_abs. by rewrite (Rabs_pos_eq v) by lra.
Qed.

(** *** Normalisation, addition and subtraction *)

Lemma pos_iter_xO m k : Zpos (Pos.iter xO m k) = (Zpos m * 2 ^ Zpos k)%Z.
Proof.
  induction k as [|k IH] using Pos.peano_ind.
  - simpl. lia.
  - rewrite Pos.iter_succ, Pos2Z.inj_xO, IH, Pos2Z.inj_succ.
    rewrite Z.pow_succ_r by lia. lia.
Qed.

Lemma shl_align_spec mx ex e' :
  ((shl_align mx ex e').2 = Z.min ex e')%Z
  ∧ Zpos (shl_align mx ex e').1
    = (Zpos mx * 2 ^ (ex - (shl_align mx ex e').2))%Z.
Proof.
  unfold shl_align. destruct (e' - ex)%Z as [|k|k] eqn:E; cbn [fst snd].
  - split; [lia|]. rewrite Z.sub_diag. simpl. lia.
  - split; [lia|]. rewrite Z.sub_diag. simpl. lia.
  - split; [lia|]. rewrite pos_iter_xO. f_equal. f_equal. lia.
Qed.

Lemma binary_round_model sx p ez :
  (-1074 <= ez)%Z → IZR (Zpos p) * bpow ez < bpow 900 →
  ∃ m e, binary_round prec emax sx p ez = S754_finite sx m e
    ∧ Rabs (IZR (Zpos m) * bpow e - IZR (Zpos p) * bpow ez)
      <= bpow (-53) * (IZR (Zpos p) * bpow ez)
    ∧ valid_binary (S754_finite sx m e) = true.
Proof.
  intros Hez Hup. unfold binary_round.
  set (f := fexp prec emax (Zpos (digits2_pos p) + ez)).
  destruct (shl_align_spec p ez f) as [He Hm].
  destruct (shl_align p ez f) as [mz ez'] eqn:E. cbn [fst snd] in He, Hm.
  assert (-1074 <= f)%Z as Hf
    by (subst f; unfold fexp, SpecFloat.emin, prec, emax; lia).
  assert (IZR (Zpos mz) * bpow ez' = IZR (Zpos p) * bpow ez) as Hv.
  { rewrite Hm, mult_IZR, <- bpow_nonneg_IZR by lia.
    rewrite Rmult_assoc, <- bpow_add. do 2 f_equal. lia. }
  pose proof (digits2_pos_bounds p) as [Hd1 Hd2].
  assert (Zpos (digits2_pos mz) = Zpos (digits2_pos p) + (ez - ez'))%Z as Hdz.
  { apply digits_unique. rewrite Hm.
    replace (Zpos (digits2_pos p) + (ez - ez') - 1)%Z
      with ((Zpos (digits2_pos p) - 1) + (ez - ez'))%Z by lia.
    rewrite !Z.pow_add_r by lia.
    assert (0 < 2 ^ (ez - ez'))%Z by (apply Z.pow_pos_nonneg; lia).
    nia. }
  destruct (round_aux_spec sx mz ez' loc_Exact (IZR (Zpos mz) * bpow ez'))
    as (m & e & Hres & Herr & Hval); [lia|done|by left|by rewrite Hv|].
  exists m, e. split; [done|]. rewrite <- Hv. split; [done|].
  apply Hval. rewrite Hdz.
  replace (Zpos (digits2_pos p) + (ez - ez') + ez')%Z
    with (Zpos (digits2_pos p) + ez)%Z by lia.
  fold f. lia.
Qed.

Lemma normalize_model M ez szero :
  (-1074 <= ez)%Z → Rabs (IZR M * bpow ez) < bpow 900 →
  is_fin (binary_normalize prec emax M ez szero) = true
  ∧ rel (B2R (binary_normalize prec emax M ez szero)) (IZR M * bpow ez)
  ∧ valid_binary (binary_normalize prec emax M ez szero) = true.
Proof.
  intros Hez Hup. pose proof (bpow_pos ez) as HB.
  destruct M as [|p|p]; cbn [binary_normalize].
  - split; [done|]. split; [|done]. cbn [B2R].
    replace (0 * bpow ez) with 0 by lra. apply rel_refl.
  - assert (1 <= IZR (Zpos p)) by (apply IZR_le; lia).
    rewrite Rabs_pos_eq in Hup by nra.
    destruct (binary_round_model false p ez Hez Hup) as (m & e & -> & Herr & Hval).
    split; [done|]. split; [|done]. unfold rel. cbn [B2R]. unfold sgn.
    rewrite (Rabs_pos_eq (IZR (Zpos p) * bpow ez)) by nra.
    replace (1 * IZR (Zpos m) * bpow e) with (IZR (Zpos m) * bpow e) by lra.
    done.
  - assert (1 <= IZR (Zpos p)) by (apply IZR_le; lia).
    assert (IZR (Zneg p) = - IZR (Zpos p)) as Hneg.
    { change (Zneg p) with (- Zpos p)%Z. apply opp_IZR. }
    rewrite Hneg in *.
    replace (- IZR (Zpos p) * bpow ez) with (- (IZR (Zpos p) * bpow ez)) in * by lra.
    rewrite Rabs_Ropp, Rabs_pos_eq in Hup by nra.
    destruct (binary_round_model true p ez Hez Hup) as (m & e & -> & Herr & Hval).
    split; [done|]. split; [|done]. unfold rel. cbn [B2R]. unfold sgn.
    rewrite Rabs_Ropp, (Rabs_pos_eq (IZR (Zpos p) * bpow ez)) by nra.
    replace (-1 * IZR (Zpos m) * bpow e - - (IZR (Zpos p) * bpow ez))
      with (- (IZR (Zpos m) * bpow e - IZR (Zpos p) * bpow ez)) by lra.
    by rewrite Rabs_Ropp.
Qed.

(** The two mantissas of a sum, aligned on the smaller exponent. *)
Lemma aligned_value s m e ez :
  (ez <= e)%Z →
  IZR (cond_Zopp s (Zpos (shl_align m e ez).1)) * bpow ez
  = B2R (S754_finite s m e).
Proof.
  intros He. destruct (shl_align_spec m e ez) as [H1 H2].
  rewrite H2, H1. replace (Z.min e ez) with ez by lia.
  cbn [B2R]. unfold cond_Zopp, sgn.
  destruct s; rewrite ?opp_IZR, mult_IZR, <- bpow_nonneg_IZR by lia.
  - replace (- (IZR (Zpos m) * bpow (e - ez)) * bpow ez)
      with (-1 * IZR (Zpos m) * (bpow (e - ez) * bpow ez)) by ring.
    rewrite <- bpow_add. do 2 f_equal. lia.
  - replace (IZR (Zpos m) * bpow (e - ez) * bpow ez)
      with (1 * IZR (Zpos m) * (bpow (e - ez) * bpow ez)) by ring.
    rewrite <- bpow_add. do 2 f_equal. lia.
Qed.

(** A sum or difference of two numbers that are at least [2^k] in
    magnitude is zero or at least [2^(k-52)]. *)
Definition apart (x y : spec_float) (v : R) : Prop :=
  v = 0 ∨ ∀ k, bpow k <= Rabs (B2R x) → bpow k <= Rabs (B2R y) →
            bpow (k - 52) <= Rabs v.

Lemma apart_finite sx mx ex sy my ey M :
  valid_binary (S754_finite sx mx ex) = true →
  valid_binary (S754_finite sy my ey) = true →
  apart (S754_finite sx mx ex) (S754_finite sy my ey)
    (IZR M * bpow (Z.min ex ey)).
Proof.
  intros Vx Vy.
  destruct (valid_finite _ _ _ Vx) as (Hex & [Hmx1 Hmx2] & _).
  destruct (valid_finite _ _ _ Vy) as (Hey & [Hmy1 Hmy2] & _).
  pose proof (bpow_pos (Z.min ex ey)) as HB.
  destruct (Z.eq_dec M 0%Z) as [->|HM]; [left; lra|right].
  intros k Hkx Hky.
  rewrite (proj2 (finite_value_pos _ _ _)) in Hkx.
  rewrite (proj2 (finite_value_pos _ _ _)) in Hky.
  assert (k < 53 + ex)%Z.
  { apply bpow_lt_inv. eapply Rle_lt_trans; [exact Hkx|].
    rewrite bpow_add. pose proof (bpow_pos ex). nra. }
  assert (k < 53 + ey)%Z.
  { apply bpow_lt_inv. eapply Rle_lt_trans; [exact Hky|].
    rewrite bpow_add. pose proof (bpow_pos ey). nra. }
  assert (bpow (k - 52) <= bpow (Z.min ex ey)) by (apply bpow_le; lia).
  assert (1 <= Rabs (IZR M)).
  { rewrite <- abs_IZR. apply IZR_le. lia. }
  rewrite Rabs_mult, (Rabs_pos_eq (bpow _)) by lra. nra.
Qed.

Lemma SFadd_model x y :
  is_fin x = true → is_fin y = true →
  valid_binary x = true → valid_binary y = true →
  Rabs (B2R x + B2R y) < bpow 900 →
  is_fin (SF64add x y) = true
  ∧ rel (B2R (SF64add x y)) (B2R x + B2R y)
  ∧ apart x y (B2R x + B2R y).
Proof.
  intros Fx Fy Vx Vy Hup.
  destruct x as [sx| | |sx mx ex]; try done;
    destruct y as [sy| | |sy my ey]; try done.
  - split; [by destruct sx, sy|]. split.
    + cbn [B2R]. replace (0 + 0) with 0 by lra.
      destruct sx, sy; apply rel_refl.
    + left. cbn [B2R]. lra.
  - split; [done|]. unfold SF64add. cbn [SFadd B2R]. split.
    + replace (0 + _) with (sgn sy * IZR (Zpos my) * bpow ey) by lra.
      apply rel_refl.
    + right. intros k Hk. cbn [B2R] in Hk. rewrite Rabs_R0 in Hk.
      pose proof (bpow_pos k). lra.
  - split; [done|]. unfold SF64add. cbn [SFadd B2R]. split.
    + replace (_ + 0) with (sgn sx * IZR (Zpos mx) * bpow ex) by lra.
      apply rel_refl.
    + right. intros k _ Hk. cbn [B2R] in Hk. rewrite Rabs_R0 in Hk.
      pose proof (bpow_pos k). lra.
  - unfold SF64add. cbn [SFadd].
    destruct (valid_finite _ _ _ Vx) as (Hex & _).
    destruct (valid_finite _ _ _ Vy) as (Hey & _).
    set (ez := Z.min ex ey).
    set (M := (cond_Zopp sx (Zpos (shl_align mx ex ez).1)
               + cond_Zopp sy (Zpos (shl_align my ey ez).1))%Z).
    assert (IZR M * bpow ez
            = B2R (S754_finite sx mx ex) + B2R (S754_finite sy my ey)) as HM.
    { subst M. rewrite plus_IZR, Rmult_plus_distr_r.
      rewrite !aligned_value by (subst ez; lia). done. }
    rewrite <- HM in *.
    destruct (normalize_model M ez false) as (H1 & H2 & _); [subst ez; lia|done|].
    split; [done|]. split; [done|]. by apply apart_finite.
Qed.

Lemma SFsub_model x y :
  is_fin x = true → is_fin y = true →
  valid_binary x = true → valid_binary y = true →
  Rabs (B2R x - B2R y) < bpow 900 →
  is_fin (SF64sub x y) = true
  ∧ rel (B2R (SF64sub x y)) (B2R x - B2R y)
  ∧ apart x y (B2R x - B2R y).
Proof.
  intros Fx Fy Vx Vy Hup.
  destruct x as [sx| | |sx mx ex]; try done;
    destruct y as [sy| | |sy my ey]; try done.
  - split; [by destruct sx, sy|]. split.
    + cbn [B2R]. replace (0 - 0) with 0 by lra.
      destruct sx, sy; apply rel_refl.
    + left. cbn [B2R]. lra.
  - split; [done|]. unfold SF64sub. cbn [SFsub B2R]. split.
    + replace (0 - sgn sy * IZR (Zpos my) * bpow ey)
        with (sgn (negb sy) * IZR (Zpos my) * bpow ey)
        by (destruct sy; unfold sgn; simpl; lra).
      apply rel_refl.
    + right. intros k Hk. cbn [B2R] in Hk. rewrite Rabs_R0 in Hk.
      pose proof (bpow_pos k). lra.
  - split; [done|]. unfold SF64sub. cbn [SFsub B2R]. split.
    + replace (_ - 0) with (sgn sx * IZR (Zpos mx) * bpow ex) by lra.
      apply rel_refl.
    + right. intros k _ Hk. cbn [B2R] in Hk. rewrite Rabs_R0 in Hk.
      pose proof (bpow_pos k). lra.
  - unfold SF64sub. cbn [SFsub].
    destruct (valid_finite _ _ _ Vx) as (Hex & _).
    destruct (valid_finite _ _ _ Vy) as (Hey & _).
    set (ez := Z.min ex ey).
    set (M := (cond_Zopp sx (Zpos (shl_align mx ex ez).1)
               - cond_Zopp sy (Zpos (shl_align my ey ez).1))%Z).
    assert (IZR M * bpow ez
            = B2R (S754_finite sx mx ex) - B2R (S754_finite sy my ey)) as HM.
    { subst M. rewrite minus_IZR, Rmult_minus_distr_r.
      rewrite !aligned_value by (subst ez; lia). done. }
    rewrite <- HM in *.
    destruct (normalize_model M ez false) as (H1 & H2 & _); [subst ez; lia|done|].
    split; [done|]. split; [done|]. by apply apart_finite.
Qed.

(** *** Division *)

Lemma new_location_spec my r q e :
  (0 < my)%Z → (0 <= r < my)%Z →
  inb q e (new_location my r) ((IZR q + IZR r / IZR my) * bpow e).
Proof.
  intros Hmy Hr. pose proof (bpow_pos e) as HB.
  assert (0 < IZR my) as HmyR by (apply IZR_lt; lia).
  set (t := IZR r / IZR my).
  assert (t * IZR my = IZR r) as Ht by (subst t; field; lra).
  assert (0 <= IZR r < IZR my) as HrR by (split; [apply IZR_le|apply IZR_lt]; lia).
  assert (0 <= t < 1) as Ht01 by (split; nra).
  assert (∀ c, (2 * r ?= my)%Z = c →
            match c with
            | Lt => t < / 2
            | Eq => t = / 2
            | Gt => / 2 < t
            end) as Hcmp.
  { intros c Hc. destruct c.
    - apply Z.compare_eq in Hc.
      assert (2 * IZR r = IZR my) by (rewrite <- Hc, mult_IZR; done).
      apply (Rmult_eq_reg_r (IZR my)); lra.
    - change (2 * r < my)%Z in Hc.
      assert (2 * IZR r < IZR my) by (rewrite <- (mult_IZR 2); apply IZR_lt; lia).
      apply (Rmult_lt_reg_r (IZR my)); lra.
    - apply Z.compare_gt_iff in Hc.
      assert (IZR my < 2 * IZR r) by (rewrite <- (mult_IZR 2); apply IZR_lt; lia).
      apply (Rmult_lt_reg_r (IZR my)); lra. }
  unfold new_location.
  destruct (Z.even my) eqn:Hev.
  - unfold new_location_even. destruct (r =? 0)%Z eqn:E0.
    + apply Z.eqb_eq in E0. subst r. cbn [inb].
      assert (t = 0) by nra. nra.
    + apply Z.eqb_neq in E0.
      assert (0 < IZR r) by (apply IZR_lt; lia).
      assert (0 < t) by nra.
      pose proof (Hcmp _ eq_refl) as Hc.
      cbn [inb]. split; [nra|].
      destruct (2 * r ?= my)%Z; nra.
  - unfold new_location_odd. destruct (r =? 0)%Z eqn:E0.
    + apply Z.eqb_eq in E0. subst r. cbn [inb].
      assert (t = 0) by nra. nra.
    + apply Z.eqb_neq in E0.
      assert (0 < IZR r) by (apply IZR_lt; lia).
      assert (0 < t) by nra.
      assert (2 * r <> my)%Z as Hodd.
      { intros E. rewrite <- E, Z.even_mul in Hev. done. }
      cbn [inb]. split; [nra|].
      destruct (2 * r + 1 ?= my)%Z eqn:Hc1.
      * apply Z.compare_eq in Hc1.
        pose proof (Hcmp Lt ltac:(apply Z.compare_lt_iff; lia)) as Hc. nra.
      * change (2 * r + 1 < my)%Z in Hc1.
        pose proof (Hcmp Lt ltac:(apply Z.compare_lt_iff; lia)) as Hc. nra.
      * apply Z.compare_gt_iff in Hc1.
        pose proof (Hcmp Gt ltac:(apply Z.compare_gt_iff; lia)) as Hc. nra.
Qed.

Lemma SFdiv_model x y :
  is_fin x = true → is_fin y = true →
  valid_binary x = true → valid_binary y = true →
  B2R y <> 0 →
  B2R x = 0 ∨ bpow (-900) <= Rabs (B2R x / B2R y) →
  Rabs (B2R x / B2R y) < bpow 900 →
  is_fin (SF64div x y) = true ∧ rel (B2R (SF64div x y)) (B2R x / B2R y).
Proof.
  intros Fx Fy Vx Vy Hy0 Hlow Hup.
  destruct y as [sy| | |sy my ey]; try done;
    try (exfalso; apply Hy0; reflexivity).
  destruct x as [sx| | |sx mx ex]; try done.
  { split; [done|]. unfold SF64div. cbn [SFdiv B2R].
    replace (0 / _) with 0 by (unfold Rdiv; lra). apply rel_refl. }
  destruct (valid_finite _ _ _ Vx) as (Hex & [Hmx1 Hmx2] & _).
  destruct (valid_finite _ _ _ Vy) as (Hey & [Hmy1 Hmy2] & _).
  pose proof (bpow_pos ex) as HBx. pose proof (bpow_pos ey) as HBy.
  pose proof (digits2_pos_bounds mx) as [Hdx1 Hdx2].
  pose proof (digits2_pos_bounds my) as [Hdy1 Hdy2].
  set (d1 := Zpos (digits2_pos mx)) in *.
  set (d2 := Zpos (digits2_pos my)) in *.
  assert (1 <= d1 <= 53 ∧ 1 <= d2 <= 53)%Z as [Hd1 Hd2].
  { assert (d1 <= 53 ∧ d2 <= 53)%Z; [|subst d1 d2; lia].
    split.
    - destruct (Z_le_gt_dec d1 53); [done|].
      assert (2 ^ 53 <= 2 ^ (d1 - 1))%Z by (apply Z.pow_le_mono_r; lia).
      assert (IZR (2 ^ 53) <= IZR (Zpos mx)) by (apply IZR_le; lia).
      rewrite <- bpow_nonneg_IZR in * by lia. lra.
    - destruct (Z_le_gt_dec d2 53); [done|].
      assert (2 ^ 53 <= 2 ^ (d2 - 1))%Z by (apply Z.pow_le_mono_r; lia).
      assert (IZR (2 ^ 53) <= IZR (Zpos my)) by (apply IZR_le; lia).
      rewrite <- bpow_nonneg_IZR in * by lia. lra. }
  set (w := IZR (Zpos mx) * bpow ex / (IZR (Zpos my) * bpow ey)).
  assert (B2R (S754_finite sx mx ex) / B2R (S754_finite sy my ey)
          = sgn (xorb sx sy) * w) as Hquot.
  { subst w. cbn [B2R]. rewrite sgn_xorb.
    destruct sx, sy; unfold sgn; field; lra. }
  assert (0 < w) as Hwpos.
  { subst w. apply Rdiv_lt_0_compat; nra. }
  rewrite Hquot, sgn_abs, (Rabs_pos_eq w) in * by lra.
  assert (bpow (-900) <= w) as Hlow'.
  { destruct Hlow as [Hz|]; [|done].
    pose proof (proj1 (finite_value_pos sx mx ex)) as Hp.
    rewrite Hz, Rabs_R0 in Hp. lra. }
  clear Hlow.
  set (D := (d1 + ex - (d2 + ey))%Z).
  assert (IZR (Zpos mx) < bpow d1) as Hmx3.
  { rewrite bpow_nonneg_IZR by lia. apply IZR_lt. done. }
  assert (bpow (d2 - 1) <= IZR (Zpos my)) as Hmy3.
  { rewrite bpow_nonneg_IZR by lia. apply IZR_le. done. }
  assert (w < bpow (D + 1)) as HwD.
  { pose proof (bpow_pos d1). pose proof (bpow_pos (d2 - 1)).
    set (A' := bpow d1 * bpow ex).
    set (B' := bpow (d2 - 1) * bpow ey).
    assert (0 < B') as HB' by (subst B'; apply Rmult_lt_0_compat; lra).
    assert (bpow (D + 1) = A' / B') as ->.
    { subst D A' B'.
      replace (d1 + ex - (d2 + ey) + 1)%Z with ((d1 + ex) + - (d2 - 1 + ey))%Z by lia.
      rewrite bpow_add, bpow_opp, !bpow_add. reflexivity. }
    assert (w * (IZR (Zpos my) * bpow ey) = IZR (Zpos mx) * bpow ex) as Hwb.
    { subst w. field. split; lra. }
    assert (B' <= IZR (Zpos my) * bpow ey) as HBb by (subst B'; nra).
    assert (IZR (Zpos mx) * bpow ex < A') as HaA by (subst A'; nra).
    apply (Rmult_lt_reg_r B'); [done|].
    replace (A' / B' * B') with A' by (field; lra).
    assert (w * B' <= w * (IZR (Zpos my) * bpow ey)) by (apply Rmult_le_compat_l; lra).
    lra. }
  assert (-900 <= D)%Z as HD.
  { assert (-900 < D + 1)%Z; [|lia]. apply bpow_lt_inv. lra. }
  set (e' := (D - 53)%Z).
  set (sh := (53 + d2 - d1)%Z).
  assert (0 < sh)%Z as Hsh by (subst sh; lia).
  unfold SF64div. cbn [SFdiv]. unfold SFdiv_core_binary. cbn [Zdigits2].
  fold d1 d2.
  replace (Z.min (fexp prec emax (d1 + ex - (d2 + ey))) (ex - ey)) with e'
    by (subst e' D; unfold fexp, SpecFloat.emin, prec, emax; lia).
  replace (ex - ey - e')%Z with sh by (subst sh e' D; lia).
  destruct sh as [|psh|psh] eqn:Esh; [lia| |lia]. rewrite <- Esh in *.
  rewrite Z.shiftl_mul_pow2 by lia.
  set (m' := (Zpos mx * 2 ^ sh)%Z).
  pose proof (Z_div_mod_eq_full m' (Zpos my)) as Hdm.
  pose proof (Z.mod_pos_bound m' (Zpos my) ltac:(lia)) as Hmod.
  unfold Z.div, Z.modulo in Hdm, Hmod.
  destruct (Z.div_eucl m' (Zpos my)) as [q r] eqn:Ediv.
  assert (2 ^ 52 <= q)%Z as Hq.
  { assert (q = m' / Zpos my)%Z as -> by (unfold Z.div; by rewrite Ediv).
    apply Z.div_le_lower_bound; [lia|].
    assert (2 ^ (d1 - 1) * 2 ^ sh = 2 ^ 52 * 2 ^ d2)%Z as E.
    { rewrite <- !Z.pow_add_r by lia. f_equal. lia. }
    assert (0 < 2 ^ sh)%Z by (apply Z.pow_pos_nonneg; lia).
    subst m'. nia. }
  destruct q as [|pq|pq]; [lia| |lia].
  assert (w = (IZR (Zpos pq) + IZR r / IZR (Zpos my)) * bpow e') as Hw.
  { assert (IZR m' = IZR (Zpos my) * IZR (Zpos pq) + IZR r) as HmR.
    { rewrite <- mult_IZR, <- plus_IZR. by f_equal. }
    assert (IZR m' = IZR (Zpos mx) * bpow sh) as HmR2.
    { subst m'. rewrite mult_IZR, <- bpow_nonneg_IZR by lia. done. }
    assert (bpow ex = bpow sh * bpow e' * bpow ey) as HBe.
    { rewrite <- !bpow_add. f_equal. subst e' D. lia. }
    subst w. rewrite HBe.
    pose proof (bpow_pos sh). pose proof (bpow_pos e').
    replace (IZR (Zpos pq) + IZR r / IZR (Zpos my))
      with (IZR m' / IZR (Zpos my)) by (rewrite HmR; field; lra).
    rewrite HmR2. field. lra. }
  destruct (round_aux_spec (xorb sx sy) pq e' (new_location (Zpos my) r) w)
    as (m & e & -> & Herr & _).
  { subst e'. lia. }
  { rewrite Hw. apply new_location_spec; lia. }
  { by right. }
  { done. }
  split; [done|]. unfold rel. cbn [B2R].
  replace (sgn (xorb sx sy) * IZR (Zpos m) * bpow e - sgn (xorb sx sy) * w)
    with (sgn (xorb sx sy) * (IZR (Zpos m) * bpow e - w)) by ring.
  rewrite !sgn_abs. by rewrite (Rabs_pos_eq w) by lra.
Qed.

(** *** Primitive floats *)

Definition value (x : float) : R := B2R (Prim2SF x).

Definition finite (x : float) : Prop := is_fin (Prim2SF x) = true.

Lemma mul_model x y :
  finite x → finite y →
  value x * value y = 0 ∨ bpow (-900) <= Rabs (value x * value y) →
  Rabs (value x * value y) < bpow 900 →
  finite (x * y) ∧ rel (value (x * y)) (value x * value y).
Proof.
  unfold finite, value. rewrite mul_spec. intros.
  apply SFmul_model; auto using Prim2SF_valid.
Qed.

Lemma div_model x y :
  finite x → finite y → value y <> 0 →
  value x = 0 ∨ bpow (-900) <= Rabs (value x / value y) →
  Rabs (value x / value y) < bpow 900 →
  finite (x / y) ∧ rel (value (x / y)) (value x / value y).
Proof.
  unfold finite, value. rewrite div_spec. intros.
  apply SFdiv_model; auto using Prim2SF_valid.
Qed.

Lemma add_model x y :
  finite x → finite y → Rabs (value x + value y) < bpow 900 →
  finite (x + y) ∧ rel (value (x + y)) (value x + value y)
  ∧ apart (Prim2SF x) (Prim2SF y) (value x + value y).
Proof.
  unfold finite, value. rewrite add_spec. intros.
  apply SFadd_model; auto using Prim2SF_valid.
Qed.

Lemma sub_model x y :
  finite x → finite y → Rabs (value x - value y) < bpow 900 →
  finite (x - y) ∧ rel (value (x - y)) (value x - value y)
  ∧ apart (Prim2SF x) (Prim2SF y) (value x - value y).
Proof.
  unfold finite, value. rewrite sub_spec. intros.
  apply SFsub_model; auto using Prim2SF_valid.
Qed.

Lemma of_Z_model z :
  Rabs (IZR z) < bpow 900 →
  finite (JsNum.of_Z z) ∧ rel (value (JsNum.of_Z z)) (IZR z).
Proof.
  intros Hz. unfold finite, value, JsNum.of_Z.
  destruct (normalize_model z 0 false) as (H1 & H2 & H3).
  - lia.
  - rewrite bpow_0, Rmult_1_r. done.
  - rewrite Prim2SF_SF2Prim by done. rewrite bpow_0, Rmult_1_r in H2. done.
Qed.

(** *** Math.round *)

Lemma SFcompare_refl x : is_fin x = true → SFcompare x x = Some Eq.
Proof.
  destruct x as [s| | |s m e]; try done. intros _. cbn [SFcompare].
  destruct s; rewrite Z.compare_refl, Pos.compare_cont_refl; done.
Qed.

Lemma eqb_refl_finite x : finite x → PrimFloat.eqb x x = true.
Proof.
  intros H. rewrite FloatAxioms.eqb_spec. unfold SFeqb.
  by rewrite SFcompare_refl.
Qed.

Lemma IZR_near (a b : Z) : Rabs (IZR a - IZR b) < 1 → a = b.
Proof.
  intros H. rewrite <- minus_IZR in H. apply Rabs_def2 in H as [H1 H2].
  apply lt_IZR in H1. apply (lt_IZR (-1)) in H2. lia.
Qed.

(** [Math.round] of a number within a half of the integer [n] is [n]. *)
Lemma Math_round_near x n :
  finite x → Rabs (value x - IZR n) < / 2 →
  (n <> 0%Z → JsNum.Math_round x = JsNum.of_Z n)
  ∧ (n = 0%Z → ∃ s, Prim2SF (JsNum.Math_round x) = S754_zero s).
Proof.
  unfold finite, value, JsNum.Math_round. intros Hf Hx.
  destruct (Prim2SF x) as [s| | |s m e] eqn:Ex; try done.
  - cbn [B2R] in Hx.
    assert (n = 0%Z) as ->.
    { apply IZR_near. rewrite Rabs_minus_sym in Hx.
      replace (IZR n - IZR 0) with (IZR n - 0) by done. lra. }
    split; [done|]. intros _. by exists s.
  - cbn [B2R] in Hx.
    assert (sgn s * IZR (Zpos m) = IZR (JsNum.signed s m)) as Hs.
    { unfold sgn, JsNum.signed. destruct s; [|lra].
      change (Zneg m) with (- Zpos m)%Z. rewrite opp_IZR. lra. }
    rewrite Hs in Hx.
    set (N := if (0 <=? e)%Z then (JsNum.signed s m * 2 ^ e)%Z
              else ((2 * JsNum.signed s m + 2 ^ (- e)) / 2 ^ (1 - e))%Z).
    assert (N = n) as HN.
    { subst N. destruct (0 <=? e)%Z eqn:E.
      - apply Z.leb_le in E. apply IZR_near.
        rewrite mult_IZR, <- bpow_nonneg_IZR by lia. lra.
      - apply Z.leb_gt in E.
        set (k := (- e)%Z). assert (0 < k)%Z by (subst k; lia).
        replace (1 - e)%Z with (k + 1)%Z by (subst k; lia).
        assert (bpow e = / IZR (2 ^ k)) as HBe.
        { replace e with (- k)%Z by (subst k; lia).
          rewrite bpow_opp, bpow_nonneg_IZR by lia. done. }
        rewrite HBe in Hx.
        assert (0 < 2 ^ k)%Z as HK by (apply Z.pow_pos_nonneg; lia).
        assert (0 < IZR (2 ^ k)) as HKR by (apply IZR_lt; done).
        apply Rabs_def2 in Hx as [Hx1 Hx2].
        set (S := JsNum.signed s m) in *.
        assert (IZR S < (IZR n + / 2) * IZR (2 ^ k)) as H1.
        { apply (Rmult_lt_reg_r (/ IZR (2 ^ k))); [by apply Rinv_0_lt_compat|].
          rewrite Rmult_assoc, Rinv_r by lra. lra. }
        assert ((IZR n - / 2) * IZR (2 ^ k) < IZR S) as H2.
        { apply (Rmult_lt_reg_r (/ IZR (2 ^ k))); [by apply Rinv_0_lt_compat|].
          rewrite Rmult_assoc, Rinv_r by lra. lra. }
        assert (2 * S < (2 * n + 1) * 2 ^ k)%Z as Z1.
        { apply lt_IZR. rewrite !mult_IZR, plus_IZR, mult_IZR. lra. }
        assert ((2 * n - 1) * 2 ^ k < 2 * S)%Z as Z2.
        { apply lt_IZR. rewrite !mult_IZR, minus_IZR, mult_IZR. lra. }
        rewrite Z.pow_add_r by lia. change (2 ^ 1)%Z with 2%Z.
        symmetry. apply (Z.div_unique_pos _ _ _ (2 * S + 2 ^ k - n * (2 ^ k * 2))); lia. }
    fold N. rewrite HN. split.
    + intros Hn. apply Z.eqb_neq in Hn. by rewrite Hn.
    + intros ->. cbn [Z.eqb]. destruct s; [by exists true|by exists false].
Qed.

Lemma Math_round_same x n :
  finite x → Rabs (value x - IZR n) < / 2 → Rabs (IZR n) < bpow 900 →
  PrimFloat.eqb (JsNum.Math_round x) (JsNum.of_Z n) = true
  ∧ JsNum.mod2_nonzero (JsNum.Math_round x) = JsNum.mod2_nonzero (JsNum.of_Z n).
Proof.
  intros Hf Hx Hn. destruct (Math_round_near x n Hf Hx) as [H1 H2].
  destruct (Z.eq_dec n 0%Z) as [->|Hne].
  - destruct (H2 eq_refl) as [s Hs]. split.
    + rewrite FloatAxioms.eqb_spec, Hs. by destruct s.
    + unfold JsNum.mod2_nonzero. rewrite Hs. done.
  - rewrite H1 by done. split; [|done].
    apply eqb_refl_finite. by apply of_Z_model.
Qed.

End Binary64.

(* ===================================================================== *)
(** ** The two layouts, operation by operation *)
(* ===================================================================== *)

Module LayoutBounds.
Import Binary64.
Local Open Scope R_scope.

Lemma Rabs_le_inv a b : Rabs a <= b → - b <= a <= b.
Proof. unfold Rabs. destruct (Rcase_abs a); lra. Qed.

Lemma u53 : bpow (-53) = / 9007199254740992.
Proof.
  change (-53)%Z with (Z.opp 53). rewrite bpow_opp, (bpow_nonneg_IZR 53) by lia.
  done.
Qed.

Lemma bpow_neg_num p : bpow (Zneg p) = / IZR (Zpos (2 ^ p)).
Proof.
  change (Zneg p) with (Z.opp (Zpos p)).
  rewrite bpow_opp, (bpow_nonneg_IZR (Zpos p)) by lia.
  by rewrite Pos2Z.inj_pow.
Qed.

Lemma bpow_pos_num p : bpow (Zpos p) = IZR (Zpos (2 ^ p)).
Proof. rewrite (bpow_nonneg_IZR (Zpos p)) by lia. by rewrite Pos2Z.inj_pow. Qed.

Ltac num :=
  repeat match goal with
  | |- context [bpow (Zneg ?p)] =>
      let z := eval vm_compute in (Pos.pow 2 p) in
      rewrite (bpow_neg_num p); change (Pos.pow 2 p) with z
  | |- context [bpow (Zpos ?p)] =>
      let z := eval vm_compute in (Pos.pow 2 p) in
      rewrite (bpow_pos_num p); change (Pos.pow 2 p) with z
  | |- context [bpow 0] => rewrite bpow_0
  end.

Lemma rel_zero f : rel f 0 → f = 0.
Proof.
  unfold rel. rewrite Rabs_R0, Rmult_0_r, Rminus_0_r. intros H.
  pose proof (Rabs_pos f). apply Rabs_le_inv in H. lra.
Qed.

Lemma rel_lower f v : rel f v → Rabs v / 2 <= Rabs f.
Proof.
  unfold rel. rewrite u53. intros H.
  pose proof (Rabs_triang_inv v f) as T. rewrite Rabs_minus_sym in T.
  pose proof (Rabs_pos v). lra.
Qed.

Lemma rel_upper f v : rel f v → Rabs (f - v) <= bpow (-53) * Rabs v.
Proof. done. Qed.

(** [x] is a finite number within [E] of the real [v], and zero or at least
    [2^l] in magnitude. *)
Definition tracks (x : float) (v E : R) (l : Z) : Prop :=
  finite x ∧ Rabs (value x - v) <= E
  ∧ (value x = 0 ∨ bpow l <= Rabs (value x)).

Lemma tracks_weaken x v E l E' l' :
  tracks x v E l → E <= E' → (l' <= l)%Z → tracks x v E' l'.
Proof.
  intros (Hf & He & Hm) HE Hl. split; [done|]. split; [lra|].
  destruct Hm as [?|Hm]; [by left|right].
  pose proof (bpow_le l' l Hl). lra.
Qed.

Lemma tracks_exact x l :
  finite x → value x = 0 ∨ bpow l <= Rabs (value x) → tracks x (value x) 0 l.
Proof.
  intros Hf Hm. split; [done|]. split; [|done].
  rewrite Rminus_diag, Rabs_R0. lra.
Qed.

Lemma tracks_of_Z z M :
  (Z.abs z <= M)%Z → IZR M <= bpow 100 →
  tracks (JsNum.of_Z z) (IZR z) (bpow (-53) * IZR M) (-1).
Proof.
  intros Hz HM.
  assert (Rabs (IZR z) <= IZR M) as Hzr.
  { rewrite <- abs_IZR. by apply IZR_le. }
  pose proof (bpow_lt 100 900 ltac:(lia)) as Hb.
  destruct (of_Z_model z) as [Hf Hr]; [lra|].
  split; [done|]. split.
  - eapply Rle_trans; [exact Hr|]. apply Rmult_le_compat_l; [|done].
    pose proof (bpow_pos (-53)). lra.
  - destruct (Z.eq_dec z 0%Z) as [->|Hne].
    + left. by apply rel_zero.
    + right. apply rel_lower in Hr.
      assert (1 <= Rabs (IZR z)).
      { rewrite <- abs_IZR. apply (IZR_le 1). lia. }
      num. lra.
Qed.

(** The rounded product [f] of [a], known within [E] of [v], and [d]. *)
Lemma prod_tracks f a d v E M l ld E' :
  Rabs (a - v) <= E → Rabs v <= M → a = 0 ∨ bpow l <= Rabs a →
  bpow ld <= d → rel f (a * d) →
  d * (E + bpow (-53) * (M + E)) <= E' →
  Rabs (f - v * d) <= E' ∧ (f = 0 ∨ bpow (l + ld - 1) <= Rabs f).
Proof.
  intros Ha Hv Hm Hd Hr HE.
  pose proof (bpow_pos ld) as Hld. pose proof (bpow_pos (-53)) as Hu.
  assert (0 < d) as Hd0 by lra.
  assert (Rabs a <= M + E) as HA.
  { pose proof (Rabs_triang_inv a v). lra. }
  split.
  - assert (Rabs (f - a * d) <= bpow (-53) * ((M + E) * d)) as H1.
    { eapply Rle_trans; [exact Hr|]. rewrite Rabs_mult, (Rabs_pos_eq d) by lra.
      apply Rmult_le_compat_l; [lra|]. apply Rmult_le_compat_r; lra. }
    assert (Rabs ((a - v) * d) <= E * d) as H2.
    { rewrite Rabs_mult, (Rabs_pos_eq d) by lra.
      apply Rmult_le_compat_r; lra. }
    replace (f - v * d) with ((f - a * d) + (a - v) * d) by ring.
    eapply Rle_trans; [apply Rabs_triang|]. lra.
  - destruct Hm as [->|Hm].
    + left. rewrite Rmult_0_l in Hr. by apply rel_zero.
    + right. apply rel_lower in Hr.
      rewrite Rabs_mult, (Rabs_pos_eq d) in Hr by lra.
      replace (l + ld - 1)%Z with ((l + ld) + - (1))%Z by lia.
      rewrite bpow_add, bpow_add, bpow_opp, bpow_1.
      assert (bpow l * bpow ld <= Rabs a * d).
      { apply Rmult_le_compat; try lra. pose proof (bpow_pos l). lra. }
      lra.
Qed.

Lemma prod_range a d v E M l ld :
  Rabs (a - v) <= E → Rabs v <= M → a = 0 ∨ bpow l <= Rabs a →
  bpow ld <= d → (-900 <= l + ld)%Z → d * (M + E) <= bpow 100 →
  (a * d = 0 ∨ bpow (-900) <= Rabs (a * d)) ∧ Rabs (a * d) < bpow 900.
Proof.
  intros Ha Hv Hm Hd Hl HM.
  pose proof (bpow_pos ld) as Hld.
  assert (0 < d) as Hd0 by lra.
  assert (Rabs a <= M + E) as HA.
  { pose proof (Rabs_triang_inv a v). lra. }
  rewrite Rabs_mult, (Rabs_pos_eq d) by lra. split.
  - destruct Hm as [->|Hm]; [left; ring|right].
    eapply Rle_trans; [apply (bpow_le _ (l + ld)); lia|].
    rewrite bpow_add. apply Rmult_le_compat; try lra.
    pose proof (bpow_pos l). lra.
  - pose proof (bpow_lt 100 900 ltac:(lia)).
    assert (Rabs a * d <= (M + E) * d) by (apply Rmult_le_compat_r; lra).
    lra.
Qed.

Lemma tracks_mul_r x y v E l d ld M E' :
  tracks x v E l → finite y → value y = d → bpow ld <= d → Rabs v <= M →
  d * (E + bpow (-53) * (M + E)) <= E' →
  (-900 <= l + ld)%Z → d * (M + E) <= bpow 100 →
  tracks (x * y) (v * d) E' (l + ld - 1).
Proof.
  intros (Hf & He & Hm) Hy Hd Hld Hv HE Hl HM.
  subst d.
  destruct (prod_range (value x) (value y) v E M l ld) as [R1 R2]; try done.
  destruct (mul_model x y) as [F1 F2]; try done.
  split; [done|]. by apply (prod_tracks _ (value x) (value y) v E M).
Qed.

Lemma tracks_mul_l x y v E l d ld M E' :
  tracks x v E l → finite y → value y = d → bpow ld <= d → Rabs v <= M →
  d * (E + bpow (-53) * (M + E)) <= E' →
  (-900 <= l + ld)%Z → d * (M + E) <= bpow 100 →
  tracks (y * x) (d * v) E' (l + ld - 1).
Proof.
  intros (Hf & He & Hm) Hy Hd Hld Hv HE Hl HM.
  subst d.
  destruct (prod_range (value x) (value y) v E M l ld) as [R1 R2]; try done.
  rewrite (Rmult_comm (value y) v).
  rewrite (Rmult_comm (value x)) in R1, R2.
  destruct (mul_model y x) as [F1 F2]; try done.
  rewrite (Rmult_comm (value y)) in F2.
  split; [done|]. by apply (prod_tracks _ (value x) (value y) v E M).
Qed.

Lemma tracks_div x y v E l d ld hd M v' E' :
  tracks x v E l → finite y → value y = d → bpow ld <= d → d <= bpow hd →
  Rabs v <= M → v = v' * d →
  E + bpow (-53) * (M + E) <= E' * d →
  (-900 <= l - hd)%Z → M + E <= bpow 100 * d →
  tracks (x / y) v' E' (l - hd - 1).
Proof.
  intros (Hf & He & Hm) Hy Hd Hld Hhd Hv Hv' HE Hl HM. subst d.
  set (d := value y) in *.
  pose proof (bpow_pos ld) as Hld0. pose proof (bpow_pos (-53)) as Hu.
  assert (0 < d) as Hd0 by lra.
  assert (0 < / d) as Hi by (by apply Rinv_0_lt_compat).
  set (a := value x) in *.
  assert (Rabs a <= M + E) as HA.
  { pose proof (Rabs_triang_inv a v). lra. }
  assert (Rabs (a / d) = Rabs a * / d) as Habs.
  { unfold Rdiv. rewrite Rabs_mult, (Rabs_pos_eq (/ d)) by lra. done. }
  assert (/ bpow hd <= / d) as Hinv.
  { apply Rinv_le_contravar; lra. }
  destruct (div_model x y) as [F1 F2]; try done; fold a; fold d.
  - lra.
  - destruct Hm as [?|Hm]; [by left|right]. rewrite Habs.
    eapply Rle_trans; [apply (bpow_le _ (l + - hd)); lia|].
    rewrite bpow_add, bpow_opp. apply Rmult_le_compat; try lra.
    + pose proof (bpow_pos l). lra.
    + pose proof (bpow_pos hd). apply Rlt_le. apply Rinv_0_lt_compat. lra.
  - rewrite Habs. pose proof (bpow_lt 100 900 ltac:(lia)).
    assert (Rabs a * / d <= bpow 100).
    { apply (Rmult_le_reg_r d); [done|].
      rewrite Rmult_assoc, Rinv_l by lra. lra. }
    lra.
  - change (value x) with a in F2. change (value y) with d in F2.
    unfold rel in F2. split; [done|]. split.
    + assert (Rabs (value (x / y) - a / d) <= bpow (-53) * ((M + E) * / d)) as H1.
      { eapply Rle_trans; [exact F2|]. rewrite Habs.
        apply Rmult_le_compat_l; [lra|]. apply Rmult_le_compat_r; lra. }
      assert (Rabs ((a - v) / d) <= E * / d) as H2.
      { unfold Rdiv. rewrite Rabs_mult, (Rabs_pos_eq (/ d)) by lra.
        apply Rmult_le_compat_r; lra. }
      assert (v' = v / d) as -> by (rewrite Hv'; field; lra).
      replace (value (x / y) - v / d)
        with ((value (x / y) - a / d) + (a - v) / d) by (field; lra).
      eapply Rle_trans; [apply Rabs_triang|].
      assert ((E + bpow (-53) * (M + E)) * / d <= E').
      { apply (Rmult_le_reg_r d); [done|].
        rewrite Rmult_assoc, Rinv_l by lra. lra. }
      lra.
    + destruct Hm as [Hm|Hm].
      * left. rewrite Hm in F2. unfold Rdiv in F2. rewrite Rmult_0_l in F2.
        by apply rel_zero.
      * right. apply rel_lower in F2. rewrite Habs in F2.
        replace (l - hd - 1)%Z with ((l + - hd) + - (1))%Z by lia.
        rewrite bpow_add, bpow_add, !bpow_opp, bpow_1.
        assert (bpow l * / bpow hd <= Rabs a * / d).
        { apply Rmult_le_compat; try lra.
          - pose proof (bpow_pos l). lra.
          - pose proof (bpow_pos hd). apply Rlt_le, Rinv_0_lt_compat. lra. }
        lra.
Qed.

(** The rounded sum or difference [f] of two tracked numbers, [s] being the
    exact one. *)
Lemma sum_tracks X Y f s v Ea Eb M l E' :
  Rabs (s - v) <= Ea + Eb → Rabs v <= M →
  rel f s → apart X Y s →
  (B2R X = 0 ∨ bpow l <= Rabs (B2R X)) →
  (B2R Y = 0 ∨ bpow l <= Rabs (B2R Y)) →
  (B2R X = 0 → Rabs s = Rabs (B2R Y)) →
  (B2R Y = 0 → Rabs s = Rabs (B2R X)) →
  Ea + Eb + bpow (-53) * (M + Ea + Eb) <= E' →
  Rabs (f - v) <= E' ∧ (f = 0 ∨ bpow (l - 54) <= Rabs f).
Proof.
  intros Hs Hv Hr Hap HX HY H0X H0Y HE.
  pose proof (bpow_pos (-53)) as Hu.
  assert (Rabs s <= M + Ea + Eb) as HS.
  { pose proof (Rabs_triang_inv s v). lra. }
  split.
  - replace (f - v) with ((f - s) + (s - v)) by ring.
    eapply Rle_trans; [apply Rabs_triang|].
    assert (Rabs (f - s) <= bpow (-53) * (M + Ea + Eb)).
    { eapply Rle_trans; [exact Hr|]. apply Rmult_le_compat_l; lra. }
    lra.
  - assert (s = 0 ∨ bpow (l - 52) <= Rabs s) as Hm.
    { destruct Hap as [?|Hap]; [by left|].
      destruct HX as [HX|HX].
      - rewrite (H0X HX). destruct HY as [HY|HY].
        + left. apply H0X in HX. rewrite HY, Rabs_R0 in HX.
          destruct (Req_dec s 0) as [?|Hne]; [done|].
          apply Rabs_no_R0 in Hne. done.
        + right. pose proof (bpow_le (l - 52) l ltac:(lia)). lra.
      - destruct HY as [HY|HY].
        + rewrite (H0Y HY). right.
          pose proof (bpow_le (l - 52) l ltac:(lia)). lra.
        + right. by apply Hap. }
    destruct Hm as [->|Hm]; [left; by apply rel_zero|right].
    apply rel_lower in Hr.
    replace (l - 54)%Z with ((l - 52) + (-2))%Z by lia.
    rewrite bpow_add. num. pose proof (bpow_pos (l - 52)). lra.
Qed.

Lemma tracks_add x y a b Ea Eb lx ly l M E' :
  tracks x a Ea lx → tracks y b Eb ly → (l <= lx)%Z → (l <= ly)%Z →
  Rabs (a + b) <= M →
  Ea + Eb + bpow (-53) * (M + Ea + Eb) <= E' → M + Ea + Eb <= bpow 100 →
  tracks (x + y) (a + b) E' (l - 54).
Proof.
  intros Hx Hy Hlx Hly Hv HE HM.
  apply (tracks_weaken _ _ _ _ Ea l) in Hx; [|lra|done].
  apply (tracks_weaken _ _ _ _ Eb l) in Hy; [|lra|done].
  destruct Hx as (Fx & Ex & Mx), Hy as (Fy & Ey & My).
  assert (Rabs (value x + value y - (a + b)) <= Ea + Eb) as Hs.
  { replace (value x + value y - (a + b))
      with ((value x - a) + (value y - b)) by ring.
    eapply Rle_trans; [apply Rabs_triang|]. lra. }
  pose proof (bpow_lt 100 900 ltac:(lia)).
  destruct (add_model x y) as (F1 & F2 & F3); try done.
  { pose proof (Rabs_triang_inv (value x + value y) (a + b)). lra. }
  split; [done|].
  apply (sum_tracks (Prim2SF x) (Prim2SF y) _ (value x + value y) _ Ea Eb M);
    try done.
  - fold (value x). intros ->. by rewrite Rplus_0_l.
  - fold (value y). intros ->. by rewrite Rplus_0_r.
Qed.

Lemma tracks_sub x y a b Ea Eb lx ly l M E' :
  tracks x a Ea lx → tracks y b Eb ly → (l <= lx)%Z → (l <= ly)%Z →
  Rabs (a - b) <= M →
  Ea + Eb + bpow (-53) * (M + Ea + Eb) <= E' → M + Ea + Eb <= bpow 100 →
  tracks (x - y) (a - b) E' (l - 54).
Proof.
  intros Hx Hy Hlx Hly Hv HE HM.
  apply (tracks_weaken _ _ _ _ Ea l) in Hx; [|lra|done].
  apply (tracks_weaken _ _ _ _ Eb l) in Hy; [|lra|done].
  destruct Hx as (Fx & Ex & Mx), Hy as (Fy & Ey & My).
  assert (Rabs (value x - value y - (a - b)) <= Ea + Eb) as Hs.
  { replace (value x - value y - (a - b))
      with ((value x - a) + - (value y - b)) by ring.
    eapply Rle_trans; [apply Rabs_triang|]. rewrite Rabs_Ropp. lra. }
  pose proof (bpow_lt 100 900 ltac:(lia)).
  destruct (sub_model x y) as (F1 & F2 & F3); try done.
  { pose proof (Rabs_triang_inv (value x - value y) (a - b)). lra. }
  split; [done|].
  apply (sum_tracks (Prim2SF x) (Prim2SF y) _ (value x - value y) _ Ea Eb M);
    try done.
  - fold (value x). intros ->. by rewrite Rminus_0_l, Rabs_Ropp.
  - fold (value y). intros ->. by rewrite Rminus_0_r.
Qed.

Ltac num_in H :=
  repeat match type of H with
  | context [bpow (Zneg ?p)] =>
      let z := eval vm_compute in (Pos.pow 2 p) in
      rewrite (bpow_neg_num p) in H; change (Pos.pow 2 p) with z in H
  | context [bpow (Zpos ?p)] =>
      let z := eval vm_compute in (Pos.pow 2 p) in
      rewrite (bpow_pos_num p) in H; change (Pos.pow 2 p) with z in H
  | context [bpow 0] => rewrite bpow_0 in H
  end.

(** The class and the value of a closed float. *)
Ltac const c Hf Hv :=
  let t := eval vm_compute in (Prim2SF c) in
  assert (Prim2SF c = t) as Hv by (vm_compute; reflexivity);
  assert (finite c) as Hf by (unfold finite; rewrite Hv; reflexivity);
  apply (f_equal B2R) in Hv; fold (value c) in Hv; cbn [B2R sgn] in Hv;
  num_in Hv.

Lemma tracks_zero l : tracks 0%float 0 0 l.
Proof.
  const 0%float F0 V0. rewrite <- V0 at 2. apply tracks_exact; [done|by left].
Qed.

Lemma tracks_finite x v E l : tracks x v E l → finite x.
Proof. by intros [? _]. Qed.

Lemma tracks_near x v E l : tracks x v E l → - E <= value x - v <= E.
Proof. intros (_ & H & _). by apply Rabs_le_inv. Qed.

Lemma tracks_positive x d l : finite x → value x = d → bpow l <= d → tracks x d 0 l.
Proof.
  intros Hf Hd Hl. subst d. apply tracks_exact; [done|right].
  pose proof (bpow_pos l). rewrite Rabs_pos_eq by lra. done.
Qed.

Lemma IZR_bound z M : (Z.abs z <= M)%Z → - IZR M <= IZR z <= IZR M.
Proof. intros H. rewrite <- opp_IZR. split; apply IZR_le; lia. Qed.

(** *** The 2D layout *)

(** The spacings [updateDimensions] computes for an integer hex size. *)
Lemma grid_dimensions h :
  (1 <= h <= 1048576)%Z →
  let g := Hex2D.updateDimensions (JsNum.of_Z h) in
  finite (Hex2D.horizontalSpacing g)
  ∧ 1 <= value (Hex2D.horizontalSpacing g) <= 2097152
  ∧ finite (Hex2D.hexHeight g)
  ∧ 1 <= value (Hex2D.hexHeight g) <= 2097152.
Proof.
  intros Hh. cbn [Hex2D.updateDimensions Hex2D.horizontalSpacing Hex2D.hexHeight].
  pose proof (IZR_bound h 1048576 ltac:(lia)) as HB.
  assert (1 <= IZR h) as H1 by (apply (IZR_le 1); lia).
  pose proof (tracks_of_Z h 1048576 ltac:(lia) ltac:(num; lra)) as T0.
  const 2%float F2 V2. const 0.75%float F3 V3. const (PrimFloat.sqrt 3) F4 V4.
  assert (tracks (JsNum.of_Z h * 2) (IZR h * 2) (/ 1024) (-1 + 1 - 1)) as T1.
  { eapply (tracks_mul_r _ _ _ _ _ _ 1 1048576);
      [exact T0|exact F2|rewrite V2; lra|num; lra|apply Rabs_le; lra|
       num; lra|lia|num; lra]. }
  assert (tracks (JsNum.of_Z h * 2 * 0.75) (IZR h * 2 * (3 / 4)) (/ 512)
            (-1 + 1 - 1 + -1 - 1)) as T2.
  { eapply (tracks_mul_r _ _ _ _ _ _ (-1) 2097152);
      [exact T1|exact F3|rewrite V3; lra|num; lra|apply Rabs_le; lra|
       num; lra|lia|num; lra]. }
  assert (tracks (PrimFloat.sqrt 3 * JsNum.of_Z h)
            (7800463371553962 / 4503599627370496 * IZR h) (/ 1024)
            (-1 + 0 - 1)) as T3.
  { eapply (tracks_mul_l _ _ _ _ _ _ 0 1048576);
      [exact T0|exact F4|rewrite V4; lra|num; lra|apply Rabs_le; lra|
       num; lra|lia|num; lra]. }
  pose proof (tracks_near _ _ _ _ T2). pose proof (tracks_near _ _ _ _ T3).
  split; [exact (tracks_finite _ _ _ _ T2)|]. split; [lra|].
  split; [exact (tracks_finite _ _ _ _ T3)|]. lra.
Qed.

Lemma scaled_bound x p M : - M <= x <= M → 0 <= p → - (M * p) <= x * p <= M * p.
Proof.
  intros Hx Hp. apply Rabs_le_inv. rewrite Rabs_mult, (Rabs_pos_eq p) by done.
  apply Rmult_le_compat_r; [done|]. by apply Rabs_le.
Qed.

(** The column: [col * horizontalSpacing], then what [pixelToHex] does to
    it at offset 0 and zoom 1. *)
Lemma col_chain (HS : float) (p : R) (col : Z) :
  finite HS → value HS = p → 1 <= p <= 2097152 →
  (Z.abs col <= 140737488355328)%Z →
  tracks ((JsNum.of_Z col * HS - 0) / 1 / HS) (IZR col) (9 / 64)
    (-57 - 21 - 1).
Proof.
  intros HF Hp Hp1 Hc.
  pose proof (IZR_bound col _ Hc) as HB.
  pose proof (scaled_bound _ p _ HB ltac:(lra)) as HS1.
  pose proof (tracks_of_Z col _ Hc ltac:(num; lra)) as T0.
  const 1%float F1 V1.
  assert (tracks (JsNum.of_Z col * HS) (IZR col * p) (3 / 64 * p)
            (-1 + 0 - 1)) as T1.
  { eapply (tracks_mul_r _ _ _ _ _ _ 0 140737488355328);
      [exact T0|exact HF|exact Hp|num; lra|apply Rabs_le; lra|
       num; lra|lia|num; lra]. }
  assert (tracks (JsNum.of_Z col * HS - 0) (IZR col * p - 0) (5 / 64 * p)
            (-2 - 54)) as T2.
  { eapply (tracks_sub _ _ _ _ _ _ _ _ _ (140737488355328 * p));
      [exact T1|apply (tracks_zero 0)|lia|lia|apply Rabs_le; lra|
       num; lra|num; lra]. }
  assert (tracks ((JsNum.of_Z col * HS - 0) / 1) (IZR col * p) (7 / 64 * p)
            (-56 - 0 - 1)) as T3.
  { eapply (tracks_div _ _ _ _ _ 1 0 0 (140737488355328 * p));
      [exact T2|exact F1|rewrite V1; lra|num; lra|num; lra|apply Rabs_le; lra|
       lra|num; lra|lia|num; lra]. }
  eapply (tracks_div _ _ _ _ _ p 0 21 (140737488355328 * p));
    [exact T3|exact HF|exact Hp|num; lra|num; lra|apply Rabs_le; lra|
     reflexivity|num; lra|lia|num; lra].
Qed.

(** The row, with the row offset [off] of the column. *)
Lemma row_chain (VS off : float) (V o : R) (row : Z) :
  finite VS → value VS = V → 1 <= V <= 2097152 →
  tracks off o 0 (-2) → 0 <= o <= V →
  (Z.abs row <= 140737488355328)%Z →
  tracks (((JsNum.of_Z row * VS + off - 0) / 1 - off) / VS) (IZR row)
    (13 / 64) (-165 - 21 - 1).
Proof.
  intros HF HV HV1 Toff Ho Hr.
  pose proof (IZR_bound row _ Hr) as HB.
  pose proof (scaled_bound _ V _ HB ltac:(lra)) as HS1.
  pose proof (tracks_of_Z row _ Hr ltac:(num; lra)) as T0.
  const 1%float F1 V1.
  assert (tracks (JsNum.of_Z row * VS) (IZR row * V) (3 / 64 * V)
            (-1 + 0 - 1)) as T1.
  { eapply (tracks_mul_r _ _ _ _ _ _ 0 140737488355328);
      [exact T0|exact HF|exact HV|num; lra|apply Rabs_le; lra|
       num; lra|lia|num; lra]. }
  assert (tracks (JsNum.of_Z row * VS + off) (IZR row * V + o) (5 / 64 * V)
            (-2 - 54)) as T2.
  { eapply (tracks_add _ _ _ _ _ _ _ _ _ (140737488355329 * V));
      [exact T1|exact Toff|lia|lia|apply Rabs_le; lra|num; lra|num; lra]. }
  assert (tracks (JsNum.of_Z row * VS + off - 0) (IZR row * V + o - 0)
            (7 / 64 * V) (-56 - 54)) as T3.
  { eapply (tracks_sub _ _ _ _ _ _ _ _ _ (140737488355329 * V));
      [exact T2|apply (tracks_zero 0)|lia|lia|apply Rabs_le; lra|
       num; lra|num; lra]. }
  assert (tracks ((JsNum.of_Z row * VS + off - 0) / 1) (IZR row * V + o)
            (9 / 64 * V) (-110 - 0 - 1)) as T4.
  { eapply (tracks_div _ _ _ _ _ 1 0 0 (140737488355329 * V));
      [exact T3|exact F1|rewrite V1; lra|num; lra|num; lra|apply Rabs_le; lra|
       lra|num; lra|lia|num; lra]. }
  assert (tracks ((JsNum.of_Z row * VS + off - 0) / 1 - off)
            (IZR row * V + o - o) (11 / 64 * V) (-111 - 54)) as T5.
  { eapply (tracks_sub _ _ _ _ _ _ _ _ _ (140737488355328 * V));
      [exact T4|exact Toff|lia|lia|apply Rabs_le; lra|num; lra|num; lra]. }
  eapply (tracks_div _ _ _ _ _ V 0 21 (140737488355328 * V));
    [exact T5|exact HF|exact HV|num; lra|num; lra|apply Rabs_le; lra|
     lra|num; lra|lia|num; lra].
Qed.

Lemma tracks_round x n E l :
  tracks x (IZR n) E l → E < / 2 → (Z.abs n <= 140737488355328)%Z →
  PrimFloat.eqb (JsNum.Math_round x) (JsNum.of_Z n) = true
  ∧ JsNum.mod2_nonzero (JsNum.Math_round x) = JsNum.mod2_nonzero (JsNum.of_Z n).
Proof.
  intros (Hf & He & _) HE Hn. apply Math_round_same; [done|lra|].
  pose proof (IZR_bound n _ Hn) as HB.
  pose proof (bpow_lt 100 900 ltac:(lia)) as Hb.
  assert (140737488355328 <= bpow 100) by (num; lra).
  apply Rle_lt_trans with 140737488355328; [by apply Rabs_le|]. lra.
Qed.

Lemma roundTrip2D_holds (hexSize col row : Z) :
  (1 <= hexSize <= 1048576)%Z →
  (Z.abs col <= 140737488355328)%Z → (Z.abs row <= 140737488355328)%Z →
  RoundTrip.roundTrip2D (JsNum.of_Z hexSize) (JsNum.of_Z col) (JsNum.of_Z row)
  = true.
Proof.
  intros Hh Hc Hr.
  destruct (grid_dimensions hexSize Hh) as (HF & Hp & VF & HV).
  unfold RoundTrip.roundTrip2D, RoundTrip.same_hex.
  set (g := Hex2D.updateDimensions (JsNum.of_Z hexSize)) in *.
  change (Hex2D.verticalSpacing g) with (Hex2D.hexHeight g).
  unfold Hex2D.hexToPixel, Hex2D.pixelToHex.
  change (Hex2D.verticalSpacing g) with (Hex2D.hexHeight g).
  cbn [fst snd].
  set (HS := Hex2D.horizontalSpacing g) in *.
  set (HH := Hex2D.hexHeight g) in *.
  destruct (tracks_round _ col _ _
              (col_chain HS _ col HF eq_refl Hp Hc)) as [E1 E2]; [lra|done|].
  rewrite E1, E2. clear E1 E2. cbn [andb].
  set (off := if JsNum.mod2_nonzero (JsNum.of_Z col) then (HH / 2)%float
              else 0%float).
  assert (∃ o, tracks off o 0 (-2) ∧ 0 <= o <= value HH) as (o & Toff & Ho).
  { subst off. destruct (JsNum.mod2_nonzero (JsNum.of_Z col)).
    - const 2%float F2 V2.
      assert (tracks (HH / 2) (value HH / 2) (bpow (-53) * value HH)
                (0 - 1 - 1)) as T.
      { eapply (tracks_div _ _ _ 0 _ 2 1 1 (value HH));
          [apply (tracks_positive _ _ 0); [done|done|num; lra]|exact F2|
           rewrite V2; lra|num; lra|num; lra|apply Rabs_le; lra|lra|
           num; lra|lia|num; lra]. }
      exists (value (HH / 2)). split.
      + apply tracks_exact; [exact (tracks_finite _ _ _ _ T)|].
        by destruct T as (_ & _ & T).
      + apply tracks_near in T. num_in T. lra.
    - exists 0. split; [apply tracks_zero|lra]. }
  destruct (tracks_round _ row _ _
              (row_chain HH off _ o row VF eq_refl HV Toff Ho Hr)) as [E3 _];
    [lra|done|].
  exact E3.
Qed.

Lemma tracks_shift x v v' E D l :
  tracks x v E l → Rabs (v - v') <= D → tracks x v' (E + D) l.
Proof.
  intros (Hf & He & Hm) HD. split; [done|]. split; [|done].
  replace (value x - v') with ((value x - v) + (v - v')) by ring.
  eapply Rle_trans; [apply Rabs_triang|]. lra.
Qed.

(** *** The 3D layout *)

Lemma roundTrip3D_holds (q r : Z) :
  (Z.abs q <= 140737488355328)%Z → (Z.abs r <= 140737488355328)%Z →
  RoundTrip.roundTrip3D (JsNum.of_Z q) (JsNum.of_Z r) = true.
Proof.
  intros Hq Hr.
  pose proof (IZR_bound q _ Hq) as HQ. pose proof (IZR_bound r _ Hr) as HR.
  pose proof (tracks_of_Z q _ Hq ltac:(num; lra)) as Tq.
  pose proof (tracks_of_Z r _ Hr ltac:(num; lra)) as Tr.
  unfold RoundTrip.roundTrip3D, RoundTrip.same_hex, Hex3D.hexToWorld,
    Hex3D.worldToHex.
  cbn [fst snd].
  const (Hex3D.hexRadius * PrimFloat.sqrt 3)%float F1 V1.
  const (Hex3D.hexRadius * 1.5)%float F2 V2.
  const (PrimFloat.sqrt 3 / 3)%float F3 V3.
  const (1 / 3)%float F4 V4.
  const (2 / 3)%float F5 V5.
  const Hex3D.hexRadius F6 V6.
  const 2%float F7 V7.
  set (c1 := (Hex3D.hexRadius * PrimFloat.sqrt 3)%float) in *.
  set (c2 := (Hex3D.hexRadius * 1.5)%float) in *.
  set (cA := (PrimFloat.sqrt 3 / 3)%float) in *.
  set (cB := (1 / 3)%float) in *.
  set (cC := (2 / 3)%float) in *.
  set (q0 := JsNum.of_Z q) in *. set (r0 := JsNum.of_Z r) in *.
  set (Q := IZR q) in *. set (R := IZR r) in *.
  assert (tracks (r0 / 2) (R / 2) (2 / 64) (-1 - 1 - 1)) as Th.
  { eapply (tracks_div _ _ _ _ _ 2 1 1 140737488355328);
      [exact Tr|exact F7|rewrite V7; lra|num; lra|num; lra|apply Rabs_le; lra|
       lra|num; lra|lia|num; lra]. }
  assert (tracks (q0 + r0 / 2) (Q + R / 2) (5 / 64) (-3 - 54)) as Ts.
  { eapply (tracks_add _ _ _ _ _ _ _ _ _ 211106232532992);
      [exact Tq|exact Th|lia|lia|apply Rabs_le; lra|num; lra|num; lra]. }
  assert (tracks (c1 * (q0 + r0 / 2)) ((7800463371553962 / 4503599627370496) * (Q + R / 2)) (12 / 64)
            (-57 + 0 - 1)) as Tx.
  { eapply (tracks_mul_l _ _ _ _ _ _ 0 211106232532992);
      [exact Ts|exact F1|rewrite V1; lra|num; lra|apply Rabs_le; lra|
       num; lra|lia|num; lra]. }
  assert (tracks (c2 * r0) (3 / 2 * R) (4 / 64) (-1 + 0 - 1)) as Tz.
  { eapply (tracks_mul_l _ _ _ _ _ _ 0 140737488355328);
      [exact Tr|exact F2|rewrite V2; lra|num; lra|apply Rabs_le; lra|
       num; lra|lia|num; lra]. }
  assert (tracks (cA * (c1 * (q0 + r0 / 2))) ((5200308914369308 / 9007199254740992) * ((7800463371553962 / 4503599627370496) * (Q + R / 2)))
            (9 / 64) (-58 + -1 - 1)) as Tax.
  { eapply (tracks_mul_l _ _ _ _ _ _ (-1) 367360000000000);
      [exact Tx|exact F3|rewrite V3; lra|num; lra|apply Rabs_le; lra|
       num; lra|lia|num; lra]. }
  assert (tracks (cB * (c2 * r0)) ((6004799503160661 / 18014398509481984) * (3 / 2 * R)) (2 / 64)
            (-2 + -2 - 1)) as Tbz.
  { eapply (tracks_mul_l _ _ _ _ _ _ (-2) 211106232532992);
      [exact Tz|exact F4|rewrite V4; lra|num; lra|apply Rabs_le; lra|
       num; lra|lia|num; lra]. }
  assert (tracks (cA * (c1 * (q0 + r0 / 2)) - cB * (c2 * r0))
            ((5200308914369308 / 9007199254740992) * ((7800463371553962 / 4503599627370496) * (Q + R / 2)) - (6004799503160661 / 18014398509481984) * (3 / 2 * R)) (16 / 64)
            (-60 - 54)) as Td.
  { eapply (tracks_sub _ _ _ _ _ _ _ _ _ 562949953421312);
      [exact Tax|exact Tbz|lia|lia|apply Rabs_le; lra|num; lra|num; lra]. }
  assert (tracks ((cA * (c1 * (q0 + r0 / 2)) - cB * (c2 * r0)) / Hex3D.hexRadius)
            ((5200308914369308 / 9007199254740992) * ((7800463371553962 / 4503599627370496) * (Q + R / 2)) - (6004799503160661 / 18014398509481984) * (3 / 2 * R)) (21 / 64)
            (-114 - 0 - 1)) as Td1.
  { eapply (tracks_div _ _ _ _ _ 1 0 0 562949953421312);
      [exact Td|exact F6|rewrite V6; lra|num; lra|num; lra|apply Rabs_le; lra|
       lra|num; lra|lia|num; lra]. }
  apply (tracks_shift _ _ Q _ (/ 8)) in Td1; [|apply Rabs_le; lra].
  assert (tracks (cC * (c2 * r0)) ((6004799503160661 / 9007199254740992) * (3 / 2 * R)) (4 / 64)
            (-2 + -1 - 1)) as Tzr.
  { eapply (tracks_mul_l _ _ _ _ _ _ (-1) 211106232532992);
      [exact Tz|exact F5|rewrite V5; lra|num; lra|apply Rabs_le; lra|
       num; lra|lia|num; lra]. }
  assert (tracks (cC * (c2 * r0) / Hex3D.hexRadius) ((6004799503160661 / 9007199254740992) * (3 / 2 * R))
            (6 / 64) (-4 - 0 - 1)) as Tzr1.
  { eapply (tracks_div _ _ _ _ _ 1 0 0 211106232532992);
      [exact Tzr|exact F6|rewrite V6; lra|num; lra|num; lra|apply Rabs_le; lra|
       lra|num; lra|lia|num; lra]. }
  apply (tracks_shift _ _ R _ (/ 8)) in Tzr1; [|apply Rabs_le; lra].
  destruct (tracks_round _ q _ _ Td1) as [E1 _]; [lra|done|].
  destruct (tracks_round _ r _ _ Tzr1) as [E2 _]; [lra|done|].
  subst q0 r0. by rewrite E1, E2.
Qed.

End LayoutBounds.

(** C6, as the code has it. With pan offset (0,0) and zoom 1,
    [pixelToHex(hexToPixel(col, row))] is [(col, row)] at every integer hex
    size from 1 to 2^20 for all integers [col], [row] of magnitude at most
    2^47; and [worldToHex(hexToWorld(q, r))] is [(q, r)] for all integers
    [q], [r] of magnitude at most 2^47. The binary64 operations of the two
    layouts are followed one by one: below 2^47 their rounding errors add
    up to less than one half, so that [Math.round] gives the cell back. *)
Theorem round_trip_on_the_grid (hexSize col row q r : Z) :
  (1 <= hexSize <= 2 ^ 20)%Z →
  (Z.abs col <= 2 ^ 47)%Z → (Z.abs row <= 2 ^ 47)%Z →
  (Z.abs q <= 2 ^ 47)%Z → (Z.abs r <= 2 ^ 47)%Z →
  RoundTrip.roundTrip2D (JsNum.of_Z hexSize) (JsNum.of_Z col) (JsNum.of_Z row)
    = true
  ∧ RoundTrip.roundTrip3D (JsNum.of_Z q) (JsNum.of_Z r) = true.
Proof.
  change (2 ^ 20)%Z with 1048576%Z. change (2 ^ 47)%Z with 140737488355328%Z.
  intros Hs Hc Hw Hq Hr. split.
  - by apply LayoutBounds.roundTrip2D_holds.
  - by apply LayoutBounds.roundTrip3D_holds.
Qed.

Lemma round_trip_on_the_grid_witness :
  RoundTrip.roundTrip2D (JsNum.of_Z 45) (JsNum.of_Z 3) (JsNum.of_Z 2) = true
  ∧ RoundTrip.roundTrip3D (JsNum.of_Z (-1)) (JsNum.of_Z 2) = true.
Proof. apply (round_trip_on_the_grid 45 3 2 (-1) 2); lia. Defined.

(** C6 as stated, refuted. Near 2^52 the binary64 products and quotients
    are off by more than a half: the 3D round trip of (4263071755123557, 1)
    gives (4263071755123556, 1), and the 2D round trip of
    (2, 4437243385803064) gives (2, 4437243385803065). *)
Lemma round_trip_fails_near_2p52 :
  (let p := Hex3D.hexToWorld (JsNum.of_Z 4263071755123557) (JsNum.of_Z 1) in
   Hex3D.worldToHex p.1 p.2 = (JsNum.of_Z 4263071755123556, JsNum.of_Z 1))
  ∧ (let g := Hex2D.updateDimensions 30 in
     let p := Hex2D.hexToPixel g (JsNum.of_Z 2) (JsNum.of_Z 4437243385803064) in
     Hex2D.pixelToHex g 1 p.1 p.2 (0, 0)%float
     = (JsNum.of_Z 2, JsNum.of_Z 4437243385803065))
  ∧ ¬ (∀ q r : Z,
         RoundTrip.roundTrip3D (JsNum.of_Z q) (JsNum.of_Z r) = true)
  ∧ ¬ (∀ col row : Z,
         RoundTrip.roundTrip2D 30 (JsNum.of_Z col) (JsNum.of_Z row) = true).
Proof.
  split; [vm_compute; reflexivity|]. split; [vm_compute; reflexivity|].
  split.
  - intros H. specialize (H 4263071755123557 1)%Z. vm_compute in H. discriminate.
  - intros H. specialize (H 2 4437243385803064)%Z. vm_compute in H. discriminate.
Qed.

(* ===================================================================== *)
(** ** Further properties of the two editors *)
(* ===================================================================== *)

(** X1. In the 3D builder, undo followed by redo returns normally and gives
    back the block store as it was, after any session of edits (and after
    any session at all whose history index is past the first snapshot). *)
Theorem undo_redo_roundtrip_3D (evs : list Hex3D.Event) :
  Forall Sessions3D.is_edit evs
  ∨ (0 < Hex3D.historyIndex (Hex3D.run evs Hex3D.init))%Z →
  ∃ st1 st2,
    Hex3D.undo (Hex3D.run evs Hex3D.init) = (Hex3D.Normal tt, st1)
    ∧ Hex3D.redo st1 = (Hex3D.Normal tt, st2)
    ∧ Hex3D.blocks st2 = Hex3D.blocks (Hex3D.run evs Hex3D.init)
    ∧ Hex3D.history st2 = Hex3D.history (Hex3D.run evs Hex3D.init)
    ∧ Hex3D.historyIndex st2 = Hex3D.historyIndex (Hex3D.run evs Hex3D.init).
Proof.
  intros H. apply Sessions3D.undo_redo_restores.
  - apply History3D.run_inv, History3D.init_inv.
  - destruct H as [Hed|Hpos]; [right|by left].
    apply Sessions3D.edits_at_end;
      [apply History3D.init_inv|done|apply Sessions3D.init_at_end].
Qed.

Lemma undo_redo_roundtrip_3D_witness :
  let evs := [Hex3D.Hover (Some (5, 5, -1)%Z); Hex3D.LeftDown;
              Hex3D.MaterialChosen 2; Hex3D.Hover (Some (5, 5, 1)%Z);
              Hex3D.LeftDown; Hex3D.RightDown (Some (0, 0, 0)%Z)] in
  ∃ st1 st2,
    Hex3D.undo (Hex3D.run evs Hex3D.init) = (Hex3D.Normal tt, st1)
    ∧ Hex3D.redo st1 = (Hex3D.Normal tt, st2)
    ∧ Hex3D.blocks st2 = Hex3D.blocks (Hex3D.run evs Hex3D.init)
    ∧ Hex3D.history st2 = Hex3D.history (Hex3D.run evs Hex3D.init)
    ∧ Hex3D.historyIndex st2 = Hex3D.historyIndex (Hex3D.run evs Hex3D.init).
Proof.
  apply undo_redo_roundtrip_3D. left. repeat constructor.
Defined.

(** X2. In the 3D builder an edit that leaves the block store as it was
    leaves the whole state, the history included, as it was. *)
Theorem noop_edit_3D_keeps_history (st : Hex3D.State) (hit : option (Z * Z * Z)) :
  (Hex3D.currentMaterial st < length Hex3D.MATERIALS)%nat →
  (Hex3D.blocks (Hex3D.placeBlock st).2 = Hex3D.blocks st →
   Hex3D.placeBlock st = (Hex3D.Normal tt, st))
  ∧ (Hex3D.blocks (Hex3D.removeBlockAtCursor hit st).2 = Hex3D.blocks st →
     Hex3D.removeBlockAtCursor hit st = (Hex3D.Normal tt, st)).
Proof.
  intros Hm. split.
  - destruct (History3D.placeBlock_cases st Hm)
      as [->|(k & st1 & Hfree & Hb & _ & _ & ->)]; [done|].
    simpl. destruct (History3D.saveState_blocks st1) as (-> & _).
    rewrite Hb. intros E. apply (f_equal (λ b, b !! k)) in E.
    rewrite lookup_insert_eq, Hfree in E. done.
  - destruct (History3D.removeBlockAtCursor_cases hit st)
      as [->|(k & st1 & [m0 Hocc] & Hb & _ & _ & ->)]; [done|].
    simpl. destruct (History3D.saveState_blocks st1) as (-> & _).
    rewrite Hb. intros E. apply (f_equal (λ b, b !! k)) in E.
    rewrite lookup_delete_eq, Hocc in E. done.
Qed.

Lemma noop_edit_3D_keeps_history_witness :
  (Hex3D.blocks (Hex3D.placeBlock over_origin).2 = Hex3D.blocks over_origin →
   Hex3D.placeBlock over_origin = (Hex3D.Normal tt, over_origin))
  ∧ (Hex3D.blocks (Hex3D.removeBlockAtCursor None over_origin).2
       = Hex3D.blocks over_origin →
     Hex3D.removeBlockAtCursor None over_origin = (Hex3D.Normal tt, over_origin)).
Proof.
  apply (noop_edit_3D_keeps_history over_origin None). vm_compute. lia.
Defined.

(** X3. In the 2D editor, [floodFill] with the replacement equal to the
    target returns the state it was given, and so does [drawAtPosition] with
    the fill tool on a cell that holds the current colour. *)
Theorem floodFill_same_colour_is_identity
    (st : Hex2D.State) (col row : Z) (fillColor : string) :
  Hex2D.floodFill col row (Some fillColor) fillColor st = st
  ∧ (Hex2D.currentTool st = "fill" →
     Hex2D.hexCells st !! (col, row) = Some (Hex2D.currentColor st) →
     Hex2D.drawAtPosition (col, row) st = st).
Proof.
  assert (∀ f c r, Hex2D.floodFill c r (Some f) f st = st) as Hself.
  { intros f c r. unfold Hex2D.floodFill, Hex2D.floodFill_run.
    rewrite decide_True by done. by destruct st. }
  split; [apply Hself|].
  intros Htool Hcell. unfold Hex2D.drawAtPosition.
  destruct (_ || _); [done|]. rewrite Htool, Hcell. simpl. apply Hself.
Qed.

Lemma floodFill_same_colour_is_identity_witness :
  Hex2D.floodFill 0 0 (Some "#6366f1") "#6366f1" before_self_fill = before_self_fill
  ∧ Hex2D.drawAtPosition (0, 0)%Z before_self_fill = before_self_fill.
Proof.
  destruct (floodFill_same_colour_is_identity before_self_fill 0 0 "#6366f1")
    as [H1 H2].
  split; [exact H1|]. apply H2; vm_compute; reflexivity.
Defined.

(** An empty grid of 40 x 40 cells. *)
Definition empty_grid_40 : Hex2D.State := Hex2D.applySettings 40 Hex2D.init.

(** X4. On an empty grid of 1600 connected cells the fill stops at the cap:
    exactly 1000 cells are filled and the store holds exactly 1000 cells. *)
Theorem floodFill_stops_at_the_cap :
  (λ res, (res.2, size res.1))
    <$> Hex2D.floodFill_run 0 0 None "#ff0000" empty_grid_40
  = Some (1000%nat, 1000%nat).
Proof. vm_compute. reflexivity. Qed.

(** A 3 x 3 block of one colour on the default grid. *)
Definition block_3x3 : Hex2D.State :=
  Hex2D.set_hexCells
    (list_to_map
       [ ((4, 4), "#ef4444"); ((4, 5), "#ef4444"); ((4, 6), "#ef4444");
         ((5, 4), "#ef4444"); ((5, 5), "#ef4444"); ((5, 6), "#ef4444");
         ((6, 4), "#ef4444"); ((6, 5), "#ef4444"); ((6, 6), "#ef4444") ]%Z)
    Hex2D.init.

(** X5. Filling a 3 x 3 block of one colour with another colour fills
    exactly its 9 cells. *)
Theorem floodFill_fills_the_3x3_block :
  Hex2D.floodFill_run 5 5 (Some "#ef4444") "#22c55e" block_3x3
  = Some (list_to_map
       [ ((4, 4), "#22c55e"); ((4, 5), "#22c55e"); ((4, 6), "#22c55e");
         ((5, 4), "#22c55e"); ((5, 5), "#22c55e"); ((5, 6), "#22c55e");
         ((6, 4), "#22c55e"); ((6, 5), "#22c55e"); ((6, 6), "#22c55e") ]%Z,
          9%nat).
Proof. vm_compute. reflexivity. Qed.

(** X6. [getNeighbors] returns at most six cells, each inside the grid, in
    the same or an adjacent column and at most one row away, and never the
    cell itself. *)
Theorem getNeighbors_in_grid (gs col row : Z) (n : Z * Z) :
  n ∈ Hex2D.getNeighbors gs col row →
  (length (Hex2D.getNeighbors gs col row) ≤ 6)%nat
  ∧ (0 <= n.1 < gs ∧ 0 <= n.2 < gs)%Z
  ∧ (col - 1 <= n.1 <= col + 1 ∧ row - 1 <= n.2 <= row + 1)%Z
  ∧ n ≠ (col, row).
Proof.
  intros Hin. split; [apply FloodFill.getNeighbors_length|].
  unfold Hex2D.getNeighbors in Hin. cbv zeta in Hin.
  apply list_elem_of_filter in Hin as [Hb Hin].
  split; [lia|].
  destruct (negb (Z.rem col 2 =? 0)%Z);
    repeat (apply elem_of_cons in Hin as [->|Hin];
            [simpl; split; [lia|intros [=]; lia]|]);
    by apply elem_of_nil in Hin.
Qed.

Lemma getNeighbors_in_grid_witness :
  (length (Hex2D.getNeighbors 20 0 0) ≤ 6)%nat
  ∧ (0 <= 1 < 20 ∧ 0 <= 0 < 20)%Z
  ∧ (0 - 1 <= 1 <= 0 + 1 ∧ 0 - 1 <= 0 <= 0 + 1)%Z
  ∧ (1, 0)%Z ≠ (0, 0)%Z.
Proof.
  apply (getNeighbors_in_grid 20 0 0 (1, 0)%Z). vm_compute.
  apply list_elem_of_In. simpl. tauto.
Defined.

Lemma step_index_nonneg_2D ev st :
  History2D.hist_wf st → (0 <= Hex2D.historyIndex st)%Z →
  (0 <= Hex2D.historyIndex (Hex2D.step ev st))%Z.
Proof.
  intros Hwf Hpos.
  assert (∀ st0, History2D.hist_wf st0 →
            (0 <= Hex2D.historyIndex (Hex2D.saveState st0))%Z) as Hsave.
  { intros st0 [_ Hi0].
    destruct (History2D.saveState_history st0 Hi0) as [Hh Hidx].
    assert (1 ≤ length (Hex2D.history (Hex2D.saveState st0)))%nat; [|lia].
    rewrite Hh. destruct (_ <? _)%nat eqn:E.
    - apply Nat.ltb_lt in E. rewrite length_drop.
      unfold Hex2D.maxHistorySteps in E. lia.
    - rewrite length_app. simpl. lia. }
  assert (∀ hex st0, Hex2D.historyIndex (Hex2D.drawAtPosition hex st0)
                     = Hex2D.historyIndex st0) as Hdraw.
  { intros hex st0. apply History2D.drawAtPosition_history. }
  destruct ev; simpl; try done.
  - unfold Hex2D.handleMouseDown. repeat case_match; try done.
    rewrite Hdraw. by apply Hsave.
  - unfold Hex2D.handleMouseMove. repeat case_match; try done.
    by rewrite Hdraw.
  - unfold Hex2D.handleTouchStart. rewrite Hdraw. by apply Hsave.
  - unfold Hex2D.undo. destruct (_ <? _)%Z eqn:E; [|done].
    apply Z.ltb_lt in E. simpl. lia.
  - unfold Hex2D.redo. destruct (_ <? _)%Z eqn:E; [|done]. simpl. lia.
  - unfold Hex2D.clearCanvas. case_match; [done|]. simpl. by apply (Hsave st).
Qed.

Lemma run_index_in_range_2D evs st :
  History2D.hist_wf st → (0 <= Hex2D.historyIndex st)%Z →
  History2D.hist_wf (Hex2D.run evs st)
  ∧ (0 <= Hex2D.historyIndex (Hex2D.run evs st))%Z.
Proof.
  revert st. induction evs as [|ev evs IH]; intros st Hwf Hpos; [done|].
  simpl. apply IH; [by apply History2D.step_wf|by apply step_index_nonneg_2D].
Qed.

(** X7. In every state of a session, of either variant, the history is not
    empty and the index is a position of it: [0 <= index < length]. *)
Theorem history_index_in_range
    (evs2 : list Hex2D.Event) (evs3 : list Hex3D.Event) :
  (0 <= Hex2D.historyIndex (Hex2D.run evs2 Hex2D.init)
     < Z.of_nat (length (Hex2D.history (Hex2D.run evs2 Hex2D.init))))%Z
  ∧ (0 <= Hex3D.historyIndex (Hex3D.run evs3 Hex3D.init)
       < Z.of_nat (length (Hex3D.history (Hex3D.run evs3 Hex3D.init))))%Z.
Proof.
  split.
  - destruct (run_index_in_range_2D evs2 Hex2D.init) as [[_ Hi] Hpos].
    + apply History2D.saveState_wf, History2D.STATE0_wf.
    + vm_compute. discriminate.
    + lia.
  - pose proof (History3D.run_inv evs3 _ History3D.init_inv) as I.
    destruct (History3D.inv_wf _ I) as [_ Hi].
    pose proof (History3D.inv_idx _ I). lia.
Qed.

(** X8. In every state of a session of the 3D builder the handlers return
    normally: no [addBlock] is passed an index outside [MATERIALS] and no
    [loadState] is passed [undefined]; and the store holds indices of
    [MATERIALS] only. *)
Theorem handlers_3D_return_normally
    (evs : list Hex3D.Event) (hit : option (Z * Z * Z)) :
  let st := Hex3D.run evs Hex3D.init in
  (Hex3D.placeBlock st).1 = Hex3D.Normal tt
  ∧ (Hex3D.removeBlockAtCursor hit st).1 = Hex3D.Normal tt
  ∧ (Hex3D.undo st).1 = Hex3D.Normal tt
  ∧ (Hex3D.redo st).1 = Hex3D.Normal tt
  ∧ History3D.valid_store (Hex3D.blocks st).
Proof.
  intros st.
  assert (History3D.session_inv st) as I
    by apply History3D.run_inv, History3D.init_inv.
  split; [|split; [|split; [|split]]].
  - destruct (History3D.placeBlock_cases st (History3D.inv_material st I))
      as [->|(k & st1 & _ & _ & _ & _ & ->)]; done.
  - destruct (History3D.removeBlockAtCursor_cases hit st)
      as [->|(k & st1 & _ & _ & _ & _ & ->)]; done.
  - destruct (decide (0 < Hex3D.historyIndex st)%Z) as [Hpos|Hnot].
    + by destruct (Sessions3D.undo_moves st I Hpos) as (st' & -> & _).
    + unfold Hex3D.undo.
      destruct (_ <=? _)%Z eqn:E; [done|apply Z.leb_gt in E; lia].
  - destruct (decide (Hex3D.historyIndex st
                      < Z.of_nat (length (Hex3D.history st)) - 1)%Z) as [Hlt|Hnot].
    + by destruct (Sessions3D.redo_moves st I Hlt) as (st' & -> & _).
    + unfold Hex3D.redo.
      destruct (_ <=? _)%Z eqn:E; [done|apply Z.leb_gt in E; lia].
  - apply I.
Qed.

(* ===================================================================== *)
(** ** Edits against the history *)
(* ===================================================================== *)

Section BeforeLast.
Context {A : Type}.
Implicit Types (l : list A) (x c : A) (i : Z).

(** After recording [c] on top of the entries up to [i], the entry below
    the top is the one that was at [i], with or without the eviction of the
    oldest entry. *)
Lemma index_before_last l x c i :
  JsNum.index l i = Some x → (length l ≤ 50)%nat →
  let l2 := take (Z.to_nat (i + 1)) l ++ [c] in
  let l' := if (50 <? length l2)%nat then drop 1 l2 else l2 in
  JsNum.index l' (Z.of_nat (length l') - 2) = Some x.
Proof.
  intros Hx Hlen l2 l'. pose proof (index_Some_lt _ _ _ Hx) as Hi.
  unfold JsNum.index in Hx.
  destruct (i <? 0)%Z eqn:E; [apply Z.ltb_lt in E; lia|]. clear E.
  assert (length l2 = S (S (Z.to_nat i))) as Hl2.
  { subst l2. rewrite length_app, length_take. simpl. lia. }
  assert (l2 !! Z.to_nat i = Some x) as Hl2x.
  { subst l2. rewrite lookup_app_l by (rewrite length_take; lia).
    rewrite lookup_take_lt by lia. done. }
  subst l'. unfold JsNum.index. destruct (50 <? length l2)%nat eqn:E.
  - apply Nat.ltb_lt in E. rewrite length_drop.
    destruct (_ <? 0)%Z eqn:E2; [apply Z.ltb_lt in E2; lia|].
    rewrite lookup_drop.
    replace (1 + Z.to_nat (Z.of_nat (length l2 - 1) - 2))%nat
      with (Z.to_nat i) by lia.
    done.
  - destruct (_ <? 0)%Z eqn:E2; [apply Z.ltb_lt in E2; lia|].
    replace (Z.to_nat (Z.of_nat (length l2) - 2)) with (Z.to_nat i) by lia.
    done.
Qed.

End BeforeLast.

Module Edits3D.
Import Hex3D History3D.

(** Recording on a state of a session puts the store that was current
    right below the new top. *)
Lemma saveState_keeps_current st st1 :
  session_inv st → frame st st1 →
  JsNum.index (history (saveState st1)) (historyIndex (saveState st1) - 1)
  = Some (blocks st).
Proof.
  intros I (Hh & Hi & _).
  destruct (inv_wf st I) as [Hlen Hix].
  rewrite saveState_index.
  rewrite saveState3D_history by (rewrite Hh, Hi; done).
  unfold kept. rewrite Hh, Hi.
  replace (Z.of_nat (length _) - 1 - 1)%Z with (Z.of_nat (length
    (if (50 <? length (take (Z.to_nat (historyIndex st + 1)) (history st)
                         ++ [blocks st1]))%nat
     then drop 1 (take (Z.to_nat (historyIndex st + 1)) (history st)
                    ++ [blocks st1])
     else take (Z.to_nat (historyIndex st + 1)) (history st) ++ [blocks st1]))
    - 2)%Z by lia.
  apply index_before_last; [apply I|done].
Qed.

(** Undo right after a recorded edit gives back the store of before. *)
Lemma undo_after_record st st1 :
  session_inv st → session_inv (saveState st1) → frame st st1 →
  ∃ st', undo (saveState st1) = (Normal tt, st') ∧ blocks st' = blocks st.
Proof.
  intros I I1 Hf.
  pose proof (saveState_keeps_current st st1 I Hf) as Hcur.
  pose proof (index_Some_lt _ _ _ Hcur) as Hpos.
  destruct (Sessions3D.undo_moves (saveState st1) I1) as (st' & E & Hb & _); [lia|].
  exists st'. split; [done|]. congruence.
Qed.

End Edits3D.

(** X9. In every state of a session of the 3D builder the live block store
    is the snapshot at the history index. *)
Theorem live_store_is_current_snapshot_3D (evs : list Hex3D.Event) :
  JsNum.index (Hex3D.history (Hex3D.run evs Hex3D.init))
    (Hex3D.historyIndex (Hex3D.run evs Hex3D.init))
  = Some (Hex3D.blocks (Hex3D.run evs Hex3D.init)).
Proof. apply History3D.inv_current, History3D.run_inv, History3D.init_inv. Qed.

(** X10. In every state of a session of the 3D builder, undo right after a
    placement or a removal that changed the block store returns normally
    and gives back the block store as it was before that edit. *)
Theorem edit_then_undo_3D (evs : list Hex3D.Event) (hit : option (Z * Z * Z)) :
  let st := Hex3D.run evs Hex3D.init in
  (Hex3D.blocks (Hex3D.placeBlock st).2 ≠ Hex3D.blocks st →
   ∃ st', Hex3D.undo (Hex3D.placeBlock st).2 = (Hex3D.Normal tt, st')
     ∧ Hex3D.blocks st' = Hex3D.blocks st)
  ∧ (Hex3D.blocks (Hex3D.removeBlockAtCursor hit st).2 ≠ Hex3D.blocks st →
     ∃ st', Hex3D.undo (Hex3D.removeBlockAtCursor hit st).2 = (Hex3D.Normal tt, st')
       ∧ Hex3D.blocks st' = Hex3D.blocks st).
Proof.
  intros st.
  assert (History3D.session_inv st) as I
    by apply History3D.run_inv, History3D.init_inv.
  split; intros Hch.
  - pose proof (History3D.placeBlock_inv st I) as I1.
    destruct (History3D.placeBlock_cases st (History3D.inv_material st I))
      as [E|(k & st1 & _ & _ & _ & Hf & E)]; rewrite E in *; [done|].
    by apply Edits3D.undo_after_record.
  - pose proof (History3D.removeBlockAtCursor_inv hit st I) as I1.
    destruct (History3D.removeBlockAtCursor_cases hit st)
      as [E|(k & st1 & _ & _ & _ & Hf & E)]; rewrite E in *; [done|].
    by apply Edits3D.undo_after_record.
Qed.

Lemma edit_then_undo_3D_witness :
  (∃ st', Hex3D.undo (Hex3D.placeBlock over_free_ground).2 = (Hex3D.Normal tt, st')
     ∧ Hex3D.blocks st' = Hex3D.blocks over_free_ground)
  ∧ (∃ st', Hex3D.undo (Hex3D.removeBlockAtCursor (Some (0, 0, 0)%Z)
                          over_free_ground).2 = (Hex3D.Normal tt, st')
       ∧ Hex3D.blocks st' = Hex3D.blocks over_free_ground).
Proof.
  destruct (edit_then_undo_3D [Hex3D.Hover (Some (5, 5, -1)%Z)]
              (Some (0, 0, 0)%Z)) as [H1 H2].
  split.
  - apply H1. intros E. apply (f_equal (λ b, b !! (5, 5, 0)%Z)) in E.
    vm_compute in E. discriminate.
  - apply H2. intros E. apply (f_equal (λ b, b !! (0, 0, 0)%Z)) in E.
    vm_compute in E. discriminate.
Defined.

(* ===================================================================== *)
(** ** Meshes and the blocks they stand for *)
(* ===================================================================== *)

Module Meshes3D.
Import Hex3D History3D.

(** Every mesh is stored under the key of its [userData], for a block of
    the material in its [userData], in that material's colour. *)
Definition mesh_ok (st : State) : Prop :=
  ∀ k mesh, blockMeshes st !! k = Some mesh →
    (mesh_q mesh, mesh_r mesh, mesh_y mesh) = k
    ∧ blocks st !! k = Some (mesh_materialIndex mesh)
    ∧ color <$> MATERIALS !! mesh_materialIndex mesh = Some (mesh_color mesh).

Lemma addBlock_mesh_ok q r y m a st :
  mesh_ok st → mesh_ok (addBlock q r y m a st).2.
Proof.
  intros H. unfold addBlock, getBlockKey.
  destruct (decide _) as [Hocc|Hfree]; [done|].
  apply eq_None_not_Some in Hfree.
  destruct (MATERIALS !! m) as [mat|] eqn:Em; intros k mesh Hk; simpl in *.
  - destruct (decide (k = (q, r, y))) as [->|Hne].
    + rewrite lookup_insert_eq in Hk. injection Hk as <-. simpl.
      rewrite lookup_insert_eq, Em. done.
    + rewrite lookup_insert_ne in Hk by done.
      rewrite lookup_insert_ne by done. by apply H.
  - destruct (H k mesh Hk) as (? & Hb & ?).
    rewrite lookup_insert_ne; [done|]. intros <-. congruence.
Qed.

Lemma removeBlock_mesh_ok q r y a st :
  mesh_ok st → mesh_ok (removeBlock q r y a st).2.
Proof.
  intros H. unfold removeBlock, getBlockKey.
  destruct (decide _) as [Hocc|Hfree]; [|done]. simpl.
  destruct (blockMeshes st !! (q, r, y)) as [mesh0|] eqn:Em;
    intros k mesh Hk; simpl in *.
  - destruct (decide (k = (q, r, y))) as [->|Hne].
    + by rewrite lookup_delete_eq in Hk.
    + rewrite lookup_delete_ne in Hk by done.
      rewrite lookup_delete_ne by done. by apply H.
  - rewrite lookup_delete_ne; [by apply H|]. intros <-. congruence.
Qed.

Lemma saveState_mesh_ok st : mesh_ok st → mesh_ok (saveState st).
Proof.
  unfold mesh_ok. by destruct (saveState_blocks st) as (-> & -> & _).
Qed.

Lemma addBlocks_mesh_ok l st : mesh_ok st → mesh_ok (addBlocks l st).2.
Proof.
  revert st. induction l as [|[[[q r] y] m] l IH]; intros st H; [done|].
  simpl. unfold bind.
  pose proof (addBlock_mesh_ok q r y m false st H) as H1.
  destruct (addBlock q r y m false st) as [[b|] st1]; simpl in *; [|done].
  by apply IH.
Qed.

Lemma addStarterBlocks_mesh_ok l st :
  mesh_ok st → mesh_ok (addStarterBlocks l st).2.
Proof.
  revert st. induction l as [|[[[q r] y] m] l IH]; intros st H; [done|].
  simpl. unfold bind.
  pose proof (addBlock_mesh_ok q r y m true st H) as H1.
  destruct (addBlock q r y m true st) as [[b|] st1]; simpl in *; [|done].
  by apply IH.
Qed.

Lemma loadState_mesh_ok s st : mesh_ok (loadState s st).2.
Proof.
  unfold loadState.
  assert (mesh_ok (set_blocks ∅ (set_blockMeshes ∅ st))) as H0.
  { intros k mesh Hk. simpl in Hk. by rewrite lookup_empty in Hk. }
  destruct s as [snap|]; [by apply addBlocks_mesh_ok|done].
Qed.

Lemma placeBlock_mesh_ok st : mesh_ok st → mesh_ok (placeBlock st).2.
Proof.
  intros H. unfold placeBlock.
  destruct (hoveredBlock st) as [[[q r] y]|]; [|done].
  destruct (_ && _); [|done]. unfold bind.
  pose proof (addBlock_mesh_ok q r (placeY_of y) (currentMaterial st) true st H).
  destruct (addBlock _ _ _ _ _ _) as [[[|]|] st1]; simpl in *; try done.
  by apply saveState_mesh_ok.
Qed.

Lemma removeBlockAtCursor_mesh_ok hit st :
  mesh_ok st → mesh_ok (removeBlockAtCursor hit st).2.
Proof.
  intros H. unfold removeBlockAtCursor.
  destruct (hit ≫= _) as [block|]; [|done]. unfold bind.
  pose proof (removeBlock_mesh_ok (mesh_q block) (mesh_r block) (mesh_y block)
                true st H).
  destruct (removeBlock _ _ _ _ _) as [[[|]|] st1]; simpl in *; try done.
  by apply saveState_mesh_ok.
Qed.

Lemma step_mesh_ok ev st : mesh_ok st → mesh_ok (step ev st).
Proof.
  intros H. destruct ev; simpl.
  - done.
  - by apply placeBlock_mesh_ok.
  - by apply removeBlockAtCursor_mesh_ok.
  - by apply placeBlock_mesh_ok.
  - unfold undo. destruct (_ <=? _)%Z; [done|]. apply loadState_mesh_ok.
  - unfold redo. destruct (_ <=? _)%Z; [done|]. apply loadState_mesh_ok.
  - by destruct (_ <? _)%nat.
Qed.

Lemma run_mesh_ok evs st : mesh_ok st → mesh_ok (run evs st).
Proof.
  revert st. induction evs as [|ev evs IH]; intros st H; [done|].
  simpl. by apply IH, step_mesh_ok.
Qed.

Lemma init_mesh_ok : mesh_ok init.
Proof.
  unfold init, createStarterBlocks, bind.
  assert (mesh_ok STATE0) as H0.
  { intros k mesh Hk. simpl in Hk. by rewrite lookup_empty in Hk. }
  pose proof (addStarterBlocks_mesh_ok starterPositions STATE0 H0) as H1.
  destruct (addStarterBlocks starterPositions STATE0) as [[[]|] st1];
    simpl in *; [by apply saveState_mesh_ok|done].
Qed.

End Meshes3D.

(** X11. In every state of a session of the 3D builder each mesh of
    [blockMeshes] is stored under the key of its [userData] and stands for
    the block of that key, with the material index and the colour of that
    block; so a right click whose ray first meets the mesh of key [k]
    removes exactly the block [k] and its mesh and records the new store. *)
Theorem right_click_removes_the_block_hit
    (evs : list Hex3D.Event) (k : Z * Z * Z) (mesh : Hex3D.Mesh) :
  let st := Hex3D.run evs Hex3D.init in
  Hex3D.blockMeshes st !! k = Some mesh →
  ((Hex3D.mesh_q mesh, Hex3D.mesh_r mesh, Hex3D.mesh_y mesh) = k
   ∧ Hex3D.blocks st !! k = Some (Hex3D.mesh_materialIndex mesh)
   ∧ Hex3D.color <$> Hex3D.MATERIALS !! Hex3D.mesh_materialIndex mesh
     = Some (Hex3D.mesh_color mesh))
  ∧ ∃ st', Hex3D.removeBlockAtCursor (Some k) st = (Hex3D.Normal tt, st')
      ∧ Hex3D.blocks st' = delete k (Hex3D.blocks st)
      ∧ Hex3D.blockMeshes st' = delete k (Hex3D.blockMeshes st)
      ∧ JsNum.index (Hex3D.history st') (Hex3D.historyIndex st')
        = Some (Hex3D.blocks st').
Proof.
  intros st Hk.
  assert (Meshes3D.mesh_ok st) as Hok
    by apply Meshes3D.run_mesh_ok, Meshes3D.init_mesh_ok.
  destruct (Hok k mesh Hk) as (Hkey & Hb & Hc). split; [done|].
  unfold Hex3D.removeBlockAtCursor. simpl. rewrite Hk.
  destruct k as [[q r] y]. injection Hkey as Hq Hr Hy.
  rewrite Hq, Hr, Hy.
  destruct (History3D.removeBlock_present q r y true st) as (st1 & E & Hb1 & Hm1 & _).
  { by rewrite Hb. }
  unfold Hex3D.bind. rewrite E.
  exists (Hex3D.saveState st1). split; [done|].
  destruct (History3D.saveState_blocks st1) as (-> & -> & _).
  split; [done|]. split; [done|]. apply History3D.saveState3D_last.
Qed.

Lemma right_click_removes_the_block_hit_witness :
  ((0, 0, 0)%Z = (0, 0, 0)%Z
   ∧ Hex3D.blocks Hex3D.init !! (0, 0, 0)%Z = Some 0%nat
   ∧ Hex3D.color <$> Hex3D.MATERIALS !! 0%nat = Some "#6b7280")
  ∧ ∃ st', Hex3D.removeBlockAtCursor (Some (0, 0, 0)%Z) Hex3D.init
           = (Hex3D.Normal tt, st')
      ∧ Hex3D.blocks st' = delete (0, 0, 0)%Z (Hex3D.blocks Hex3D.init)
      ∧ Hex3D.blockMeshes st' = delete (0, 0, 0)%Z (Hex3D.blockMeshes Hex3D.init)
      ∧ JsNum.index (Hex3D.history st') (Hex3D.historyIndex st')
        = Some (Hex3D.blocks st').
Proof.
  apply (right_click_removes_the_block_hit [] (0, 0, 0)%Z
           {| Hex3D.mesh_q := 0; Hex3D.mesh_r := 0; Hex3D.mesh_y := 0;
              Hex3D.mesh_materialIndex := 0; Hex3D.mesh_color := "#6b7280" |}).
  vm_compute. reflexivity.
Defined.

(** X12. Adding a block to a free cell and removing it again, and removing
    a block and adding it back with its material, both return the block
    store and the key set of [blockMeshes] to what they were. *)
Theorem addBlock_removeBlock_cancel
    (st : Hex3D.State) (q r y : Z) (m : nat) (a a' : bool) :
  History3D.same_keys st → (m < length Hex3D.MATERIALS)%nat →
  (Hex3D.blocks st !! (q, r, y) = None →
   ∃ st1 st2, Hex3D.addBlock q r y m a st = (Hex3D.Normal true, st1)
     ∧ Hex3D.removeBlock q r y a' st1 = (Hex3D.Normal true, st2)
     ∧ Hex3D.blocks st2 = Hex3D.blocks st
     ∧ Hex3D.blockMeshes st2 = Hex3D.blockMeshes st)
  ∧ (Hex3D.blocks st !! (q, r, y) = Some m →
     ∃ st1 st2, Hex3D.removeBlock q r y a' st = (Hex3D.Normal true, st1)
       ∧ Hex3D.addBlock q r y m a st1 = (Hex3D.Normal true, st2)
       ∧ Hex3D.blocks st2 = Hex3D.blocks st
       ∧ dom (Hex3D.blockMeshes st2) = dom (Hex3D.blockMeshes st)).
Proof.
  intros Hk Hm. split.
  - intros Hfree.
    assert (Hex3D.blockMeshes st !! (q, r, y) = None) as Hmfree.
    { apply not_elem_of_dom. rewrite <- Hk. by apply not_elem_of_dom. }
    unfold Hex3D.addBlock, Hex3D.getBlockKey.
    rewrite decide_False by (rewrite Hfree; by intros [? ?]).
    destruct (lookup_lt_is_Some_2 Hex3D.MATERIALS m Hm) as [mat ->].
    eexists _, _. split; [done|].
    unfold Hex3D.removeBlock, Hex3D.getBlockKey. simpl.
    rewrite decide_True by (rewrite lookup_insert_eq; by eexists).
    rewrite lookup_insert_eq. split; [done|]. simpl.
    by rewrite !delete_insert_id.
  - intros Hocc.
    destruct (History3D.removeBlock_present q r y a' st) as (st1 & E1 & Hb1 & Hm1 & _).
    { by rewrite Hocc. }
    destruct (History3D.addBlock_free q r y m a st1) as (st2 & E2 & Hb2 & Hd2 & _).
    { by rewrite Hb1, lookup_delete_eq. } { done. }
    exists st1, st2. split; [done|]. split; [done|]. split.
    + by rewrite Hb2, Hb1, insert_delete_id.
    + rewrite Hd2, Hm1, dom_delete_L.
      assert ((q, r, y) ∈ dom (Hex3D.blockMeshes st)) as Hin.
      { rewrite <- Hk. apply elem_of_dom. by rewrite Hocc. }
      apply set_eq. intros k. rewrite elem_of_union, elem_of_difference,
        elem_of_singleton.
      destruct (decide (k = (q, r, y))) as [->|]; naive_solver.
Qed.

Lemma addBlock_removeBlock_cancel_witness :
  (∃ st1 st2, Hex3D.addBlock 5 5 0 0 true Hex3D.init = (Hex3D.Normal true, st1)
     ∧ Hex3D.removeBlock 5 5 0 true st1 = (Hex3D.Normal true, st2)
     ∧ Hex3D.blocks st2 = Hex3D.blocks Hex3D.init
     ∧ Hex3D.blockMeshes st2 = Hex3D.blockMeshes Hex3D.init).
Proof.
  destruct (addBlock_removeBlock_cancel Hex3D.init 5 5 0 0 true true) as [H _].
  - unfold History3D.same_keys. vm_compute. reflexivity.
  - vm_compute. lia.
  - apply H. vm_compute. reflexivity.
Defined.

Module Layers3D.
Import Hex3D History3D Hex3DUi.

(** Every block lies in a layer from -1 up to [maxHeight - 1]. *)
Definition layers_ok (b : gmap (Z * Z * Z) nat) : Prop :=
  map_Forall (λ k _, (-1 <= k.2 < maxHeight)%Z) b.

Definition layer_inv (st : State) : Prop :=
  layers_ok (blocks st) ∧ Forall layers_ok (history st).

Lemma addBlock_layers q r y m a st :
  (-1 <= y < maxHeight)%Z → layers_ok (blocks st) →
  layers_ok (blocks (addBlock q r y m a st).2).
Proof.
  intros Hy H. unfold addBlock, getBlockKey.
  destruct (decide _); [done|].
  destruct (MATERIALS !! m); simpl; by apply map_Forall_insert_2.
Qed.

Lemma addBlocks_layers l st :
  Forall (λ e, (-1 <= e.1.2 < maxHeight)%Z) l → layers_ok (blocks st) →
  layers_ok (blocks (addBlocks l st).2).
Proof.
  revert st. induction l as [|[[[q r] y] m] l IH]; intros st Hl H; [done|].
  apply Forall_cons in Hl as [Hy Hl]. simpl in Hy. simpl. unfold bind.
  pose proof (addBlock_layers q r y m false st Hy H) as H1.
  destruct (addBlock q r y m false st) as [[b|] st1]; simpl in *; [|done].
  by apply IH.
Qed.

Lemma loadState_layers s st :
  (∀ snap, s = Some snap → layers_ok snap) →
  layers_ok (blocks (loadState s st).2).
Proof.
  intros Hs. unfold loadState. destruct s as [snap|]; simpl.
  - apply addBlocks_layers; [|apply map_Forall_empty].
    apply Forall_forall. intros [k m] Hin%elem_of_map_to_list.
    simpl. by apply (Hs snap eq_refl k m).
  - apply map_Forall_empty.
Qed.

Lemma saveState_Forall (P : gmap (Z * Z * Z) nat → Prop) st :
  Forall P (history st) → P (blocks st) → Forall P (history (saveState st)).
Proof.
  intros Hh Hb. unfold saveState.
  set (h1 := if (_ <? _)%Z then _ else _).
  assert (Forall P h1) as Hh1.
  { subst h1. destruct (_ <? _)%Z; [|done].
    unfold JsNum.slice0. destruct (_ <? _)%Z; by apply Forall_take. }
  assert (Forall P (h1 ++ [blocks st])) as Hh2.
  { apply Forall_app. split; [done|]. by apply Forall_singleton. }
  destruct (_ <? _)%nat; simpl; [by apply Forall_drop|done].
Qed.

Lemma saveState_layer_inv st : layer_inv st → layer_inv (saveState st).
Proof.
  intros [Hb Hh]. split.
  - by destruct (saveState_blocks st) as (-> & _).
  - by apply saveState_Forall.
Qed.

Lemma index_Forall {A} (P : A → Prop) (l : list A) i x :
  Forall P l → JsNum.index l i = Some x → P x.
Proof.
  intros Hl. unfold JsNum.index. destruct (i <? 0)%Z; [done|].
  intros Hx. by eapply Forall_lookup_1.
Qed.

Lemma moved_layer_inv i st :
  layer_inv st →
  layer_inv (loadState (JsNum.index (history st) i)
               (set_history (history st) i st)).2.
Proof.
  intros [Hb Hh]. split.
  - apply loadState_layers. intros snap Hs. by eapply index_Forall.
  - by destruct (loadState_frame (JsNum.index (history st) i)
                   (set_history (history st) i st)) as (-> & _).
Qed.

Lemma placeBlock_layer_inv st : layer_inv st → layer_inv (placeBlock st).2.
Proof.
  intros [Hb Hh]. unfold placeBlock.
  destruct (hoveredBlock st) as [[[q r] y]|]; [|done].
  destruct (_ && _) eqn:E; [|done].
  apply andb_true_iff in E as [E1%Z.leb_le E2%Z.ltb_lt]. unfold bind.
  pose proof (addBlock_layers q r (placeY_of y) (currentMaterial st) true st) as H1.
  pose proof (addBlock_frame q r (placeY_of y) (currentMaterial st) true st)
    as (Hf & _).
  destruct (addBlock _ _ _ _ _ _) as [[[|]|] st1]; simpl in *.
  - apply saveState_layer_inv. split; [apply H1; [lia|done]|by rewrite Hf].
  - split; [apply H1; [lia|done]|by rewrite Hf].
  - split; [apply H1; [lia|done]|by rewrite Hf].
Qed.

Lemma removeBlock_layers q r y a st :
  layers_ok (blocks st) → layers_ok (blocks (removeBlock q r y a st).2).
Proof.
  intros H. unfold removeBlock, getBlockKey.
  destruct (decide _); [|done]. simpl.
  case_match; simpl; by apply map_Forall_delete.
Qed.

Lemma removeBlockAtCursor_layer_inv hit st :
  layer_inv st → layer_inv (removeBlockAtCursor hit st).2.
Proof.
  intros [Hb Hh]. unfold removeBlockAtCursor.
  destruct (hit ≫= _) as [block|]; [|done]. unfold bind.
  pose proof (removeBlock_layers (mesh_q block) (mesh_r block) (mesh_y block)
                true st Hb) as H1.
  pose proof (removeBlock_frame (mesh_q block) (mesh_r block) (mesh_y block)
                true st) as (Hf & _).
  destruct (removeBlock _ _ _ _ _) as [[[|]|] st1]; simpl in *.
  - apply saveState_layer_inv. split; [done|by rewrite Hf].
  - split; [done|by rewrite Hf].
  - split; [done|by rewrite Hf].
Qed.

Lemma step_layer_inv ev st : layer_inv st → layer_inv (step ev st).
Proof.
  intros H. destruct ev; simpl.
  - done.
  - by apply placeBlock_layer_inv.
  - by apply removeBlockAtCursor_layer_inv.
  - by apply placeBlock_layer_inv.
  - unfold undo. destruct (_ <=? _)%Z; [done|].
    apply (moved_layer_inv (historyIndex st - 1) st H).
  - unfold redo. destruct (_ <=? _)%Z; [done|].
    apply (moved_layer_inv (historyIndex st + 1) st H).
  - by destruct (_ <? _)%nat.
Qed.

Lemma run_layer_inv evs st : layer_inv st → layer_inv (run evs st).
Proof.
  revert st. induction evs as [|ev evs IH]; intros st H; [done|].
  simpl. by apply IH, step_layer_inv.
Qed.

Lemma init_layer_inv : layer_inv init.
Proof.
  assert (layers_ok (blocks init)) as Hb.
  { unfold layers_ok. apply (bool_decide_unpack _). by vm_compute. }
  split; [done|].
  assert (history init = [blocks init]) as -> by (vm_compute; reflexivity).
  by apply Forall_singleton.
Qed.

(** *** getTopBlockAt *)

Lemma topBlockFrom_spec b q r n :
  (topBlockFrom b q r n = (-1)%Z
   ∧ ∀ y, (0 <= y <= Z.of_nat n)%Z → b !! (q, r, y) = None)
  ∨ ((0 <= topBlockFrom b q r n <= Z.of_nat n)%Z
     ∧ is_Some (b !! (q, r, topBlockFrom b q r n))
     ∧ ∀ y, (topBlockFrom b q r n < y <= Z.of_nat n)%Z → b !! (q, r, y) = None).
Proof.
  induction n as [|n IH]; simpl; unfold getBlockKey;
    destruct (decide _) as [Hs|Hn].
  - right. split; [lia|]. split; [done|]. intros y Hy. lia.
  - left. split; [done|]. intros y Hy.
    replace y with 0%Z by lia. by apply eq_None_not_Some.
  - right. split; [lia|]. split; [done|]. intros y Hy. lia.
  - apply eq_None_not_Some in Hn.
    destruct IH as [[-> Hnone]|(Hr & Hs & Hnone)].
    + left. split; [done|]. intros y Hy.
      destruct (decide (y = Z.of_nat (S n))) as [->|]; [done|].
      apply Hnone. lia.
    + right. split; [lia|]. split; [done|]. intros y Hy.
      destruct (decide (y = Z.of_nat (S n))) as [->|]; [done|].
      apply Hnone. lia.
Qed.

End Layers3D.

(** X13. In every state of a session of the 3D builder every block lies in
    a layer [-1 <= y < maxHeight] (layer -1 holds starter blocks only), and
    [getTopBlockAt(q, r)] is -1 when the column holds no block in a layer
    [y >= 0] and else the highest layer of the column that holds one. *)
Theorem getTopBlockAt_is_the_top (evs : list Hex3D.Event) (q r : Z) :
  let st := Hex3D.run evs Hex3D.init in
  let top := Hex3DUi.getTopBlockAt q r st in
  (∀ q' r' y' m, Hex3D.blocks st !! (q', r', y') = Some m →
     (-1 <= y' < Hex3D.maxHeight)%Z)
  ∧ (-1 <= top < Hex3D.maxHeight)%Z
  ∧ (top = (-1)%Z → ∀ y, (0 <= y)%Z → Hex3D.blocks st !! (q, r, y) = None)
  ∧ ((0 <= top)%Z →
     is_Some (Hex3D.blocks st !! (q, r, top))
     ∧ ∀ y, (top < y)%Z → Hex3D.blocks st !! (q, r, y) = None).
Proof.
  intros st top.
  destruct (Layers3D.run_layer_inv evs _ Layers3D.init_layer_inv) as [Hl _].
  fold st in Hl.
  assert (∀ q' r' y' m, Hex3D.blocks st !! (q', r', y') = Some m →
            (-1 <= y' < Hex3D.maxHeight)%Z) as Hlay.
  { intros q' r' y' m Hb. apply (Hl (q', r', y') m Hb). }
  assert (∀ y, (Hex3D.maxHeight <= y)%Z → Hex3D.blocks st !! (q, r, y) = None)
    as Habove.
  { intros y Hy. destruct (Hex3D.blocks st !! (q, r, y)) eqn:E; [|done].
    apply Hlay in E. lia. }
  split; [done|].
  pose proof (Layers3D.topBlockFrom_spec (Hex3D.blocks st) q r
                (Z.to_nat Hex3D.maxHeight)) as Hspec.
  change (Hex3DUi.topBlockFrom (Hex3D.blocks st) q r (Z.to_nat Hex3D.maxHeight))
    with top in Hspec.
  destruct Hspec as [[Ht Hnone]|(Hr & Hs & Hnone)].
  - split; [unfold Hex3D.maxHeight; lia|]. split; [|lia].
    intros _ y Hy. destruct (decide (y < Hex3D.maxHeight)%Z).
    + apply Hnone. unfold Hex3D.maxHeight in *. lia.
    + apply Habove. lia.
  - assert (top < Hex3D.maxHeight)%Z as Hlt.
    { destruct Hs as [m Hm]. apply Hlay in Hm. lia. }
    split; [lia|]. split; [lia|]. intros _. split; [done|].
    intros y Hy. destruct (decide (y <= Hex3D.maxHeight)%Z).
    + apply Hnone. unfold Hex3D.maxHeight in *. lia.
    + apply Habove. lia.
Qed.

Module RayHits3D.
Import Hex3D History3D Hex3DUi.

Lemma side_index dir :
  ∃ n, JsNum.index sideNeighbors (Z.rem (Z.rem dir 6 + 6) 6) = Some n
    ∧ n ∈ sideNeighbors.
Proof.
  assert (-6 < Z.rem dir 6 < 6)%Z as H1.
  { pose proof (Z.rem_bound_abs dir 6). lia. }
  assert (0 <= Z.rem (Z.rem dir 6 + 6) 6 < 6)%Z as H2.
  { apply Z.rem_bound_pos; lia. }
  set (idx := Z.rem (Z.rem dir 6 + 6) 6) in *.
  assert (idx = 0 ∨ idx = 1 ∨ idx = 2 ∨ idx = 3 ∨ idx = 4 ∨ idx = 5)%Z
    as Hcases by lia.
  unfold sideNeighbors.
  destruct Hcases as [->|[->|[->|[->|[->| ->]]]]];
    (eexists; split; [reflexivity|]); apply list_elem_of_In; simpl; tauto.
Qed.

Lemma side_neighbor_nonzero n : n ∈ sideNeighbors → n ≠ (0, 0)%Z.
Proof.
  unfold sideNeighbors. intros H ->.
  apply list_elem_of_In in H. simpl in H. intuition discriminate.
Qed.

(** A hit on the mesh of a block hovers a cell next to that block. *)
Lemma block_hit_hovers_neighbor ui bq br by_ mesh normal_y dir :
  (mesh_q mesh, mesh_r mesh, mesh_y mesh) = (bq, br, by_) →
  ∃ q r y,
    updateRaycast (BlockHit mesh normal_y dir) ui
      = (Normal tt,
         set_hovered (Some (q, r, y))
           (if (0.5 <? normal_y)%float then "top" else "side") ui)
    ∧ ((q = bq ∧ r = br ∧ (y = by_ + 1 ∨ y = by_ - 1)%Z)
       ∨ (y = by_ ∧ (q - bq, r - br)%Z ∈ sideNeighbors))
    ∧ (q, r, y) ≠ (bq, br, by_).
Proof.
  intros [= Hq Hr Hy]. unfold updateRaycast. rewrite Hq, Hr, Hy.
  destruct (0.5 <? PrimFloat.abs normal_y)%float.
  - eexists _, _, _. split; [done|]. split.
    + left. destruct (0 <? normal_y)%float; auto.
    + destruct (0 <? normal_y)%float; intros [=]; lia.
  - destruct (side_index dir) as (n & -> & Hn).
    eexists _, _, _. split; [done|]. split.
    + right. split; [done|].
      replace (bq + n.1 - bq, br + n.2 - br)%Z with n; [done|].
      destruct n as [a b]. simpl. f_equal; lia.
    + intros [= Ha Hb]. apply (side_neighbor_nonzero n Hn).
      destruct n as [a b]. simpl in *. f_equal; lia.
Qed.

End RayHits3D.

(** X14. In every state of a session of the 3D builder, whatever the brush
    size and the hovered face, a ray that first meets one of the block
    meshes makes [updateRaycast] return normally (the index into the table
    of six side offsets is always one of its rows) and hover a cell next
    to the block the mesh is stored under, and different from it: the same
    column one layer up or down, or the same layer in one of the six axial
    directions. The call writes [STATE.hoveredBlock] and
    [STATE.hoveredFace] and nothing else of the state; the face is ['top']
    exactly when the [y] of the normal is above 0.5, else ['side']. *)
Theorem block_face_hover_is_adjacent
    (evs : list Hex3D.Event) (brush : Z) (face : option string)
    (bq br by_ : Z) (mesh : Hex3D.Mesh) (normal_y : float) (dir : Z) :
  let st := Hex3D.run evs Hex3D.init in
  let ui := {| Hex3DUi.core := st; Hex3DUi.brushSize := brush;
               Hex3DUi.hoveredFace := face |} in
  Hex3D.blockMeshes st !! (bq, br, by_) = Some mesh →
  ∃ q r y,
    Hex3DUi.updateRaycast (Hex3DUi.BlockHit mesh normal_y dir) ui
      = (Hex3D.Normal tt,
         {| Hex3DUi.core := Hex3D.set_hoveredBlock (Some (q, r, y)) st;
            Hex3DUi.brushSize := brush;
            Hex3DUi.hoveredFace :=
              Some (if (0.5 <? normal_y)%float then "top" else "side") |})
    ∧ ((q = bq ∧ r = br ∧ (y = by_ + 1 ∨ y = by_ - 1)%Z)
       ∨ (y = by_ ∧ (q - bq, r - br)%Z ∈ Hex3DUi.sideNeighbors))
    ∧ (q, r, y) ≠ (bq, br, by_).
Proof.
  intros st ui Hm.
  assert (Meshes3D.mesh_ok st) as Hok
    by apply Meshes3D.run_mesh_ok, Meshes3D.init_mesh_ok.
  destruct (Hok _ _ Hm) as (Hkey & _).
  by apply (RayHits3D.block_hit_hovers_neighbor ui bq br by_ mesh).
Qed.

Definition starter_mesh_0_0_0 : Hex3D.Mesh :=
  {| Hex3D.mesh_q := 0; Hex3D.mesh_r := 0; Hex3D.mesh_y := 0;
     Hex3D.mesh_materialIndex := 0; Hex3D.mesh_color := "#6b7280" |}.

Lemma block_face_hover_is_adjacent_witness :
  ∃ q r y,
    Hex3DUi.updateRaycast (Hex3DUi.BlockHit starter_mesh_0_0_0 0 2) Hex3DUi.ui0
      = (Hex3D.Normal tt,
         {| Hex3DUi.core := Hex3D.set_hoveredBlock (Some (q, r, y)) Hex3D.init;
            Hex3DUi.brushSize := 1;
            Hex3DUi.hoveredFace :=
              Some (if (0.5 <? 0)%float then "top" else "side") |})
    ∧ ((q = 0%Z ∧ r = 0%Z ∧ (y = 0 + 1 ∨ y = 0 - 1)%Z)
       ∨ (y = 0%Z ∧ (q - 0, r - 0)%Z ∈ Hex3DUi.sideNeighbors))
    ∧ (q, r, y) ≠ (0, 0, 0)%Z.
Proof.
  apply (block_face_hover_is_adjacent [] 1 None 0 0 0 starter_mesh_0_0_0
           0%float 2).
  vm_compute. reflexivity.
Defined.

(** X15. In every state of a session of the 3D builder, whatever the brush
    size and the hovered face: with the pointer on the ground over a hex
    cell whose layer 0 is free, and with the pointer on the top face
    (normal [y] above 0.5) of a block below layer [maxHeight - 1] whose
    cell above is free, [updateRaycast] followed by [placeBlock] returns
    normally, stores the current material in that cell (layer 0, resp. the
    layer above the block), changes no other cell and records the new
    store. *)
Theorem click_places_on_ground_or_on_top
    (evs : list Hex3D.Event) (brush : Z) (face : option string)
    (hit : Hex3DUi.RayHit) (q r y : Z) :
  let st := Hex3D.run evs Hex3D.init in
  let ui := {| Hex3DUi.core := st; Hex3DUi.brushSize := brush;
               Hex3DUi.hoveredFace := face |} in
  (hit = Hex3DUi.GroundHit (q, r) ∧ y = 0%Z)
  ∨ (∃ mesh normal_y dir,
       hit = Hex3DUi.BlockHit mesh normal_y dir
       ∧ Hex3D.blockMeshes st !! (q, r, y - 1)%Z = Some mesh
       ∧ (0.5 <? PrimFloat.abs normal_y)%float = true
       ∧ (0 <? normal_y)%float = true
       ∧ (y < Hex3D.maxHeight)%Z) →
  Hex3D.blocks st !! (q, r, y) = None →
  ∃ ui1 st2,
    Hex3DUi.updateRaycast hit ui = (Hex3D.Normal tt, ui1)
    ∧ Hex3D.placeBlock (Hex3DUi.core ui1) = (Hex3D.Normal tt, st2)
    ∧ Hex3D.blocks st2 = <[(q, r, y) := Hex3D.currentMaterial st]> (Hex3D.blocks st)
    ∧ JsNum.index (Hex3D.history st2) (Hex3D.historyIndex st2)
      = Some (Hex3D.blocks st2).
Proof.
  intros st ui Hhit Hfree.
  assert (History3D.session_inv st) as I
    by apply History3D.run_inv, History3D.init_inv.
  assert (∀ y0, Hex3D.placeY_of y0 = y → (0 <= y < Hex3D.maxHeight)%Z →
            ∃ st2,
              Hex3D.placeBlock (Hex3D.set_hoveredBlock (Some (q, r, y0)) st)
                = (Hex3D.Normal tt, st2)
              ∧ Hex3D.blocks st2
                = <[(q, r, y) := Hex3D.currentMaterial st]> (Hex3D.blocks st)
              ∧ JsNum.index (Hex3D.history st2) (Hex3D.historyIndex st2)
                = Some (Hex3D.blocks st2)) as Hplace.
  { intros y0 Hy0 Hy.
    destruct (History3D.placeBlock_free
                (Hex3D.set_hoveredBlock (Some (q, r, y0)) st) q r y0)
      as (st1 & _ & E & Hb & _); simpl; rewrite ?Hy0; try done.
    { apply I. }
    exists (Hex3D.saveState st1). split; [done|].
    destruct (History3D.saveState_blocks st1) as (-> & _).
    simpl in Hb. rewrite Hy0 in Hb.
    split; [done|]. apply History3D.saveState3D_last. }
  destruct Hhit as [[-> ->]|(mesh & ny & dir & -> & Hm & Hab & Hpos & Hlt)].
  - destruct (Hplace (-1)%Z) as (st2 & ?); [done|unfold Hex3D.maxHeight; lia|].
    eexists _, st2. split; [done|]. done.
  - assert (Meshes3D.mesh_ok st) as Hok
      by apply Meshes3D.run_mesh_ok, Meshes3D.init_mesh_ok.
    destruct (Hok _ _ Hm) as ([= Hq Hr Hy] & Hb & _).
    destruct (Layers3D.run_layer_inv evs _ Layers3D.init_layer_inv) as [Hl _].
    pose proof (Hl _ _ Hb) as Hlay. simpl in Hlay.
    destruct (Hplace y) as (st2 & ?).
    { unfold Hex3D.placeY_of. destruct (y =? -1)%Z eqn:E; [|done].
      apply Z.eqb_eq in E. lia. }
    { lia. }
    eexists _, st2. split.
    { unfold Hex3DUi.updateRaycast. rewrite Hab, Hpos, Hq, Hr, Hy.
      replace (y - 1 + 1)%Z with y by lia. reflexivity. }
    done.
Qed.

Definition starter_mesh_1_0_1 : Hex3D.Mesh :=
  {| Hex3D.mesh_q := 1; Hex3D.mesh_r := 0; Hex3D.mesh_y := 1;
     Hex3D.mesh_materialIndex := 0; Hex3D.mesh_color := "#6b7280" |}.

Lemma click_places_on_ground_or_on_top_witness :
  (∃ ui1 st2,
     Hex3DUi.updateRaycast (Hex3DUi.GroundHit (5, 5)%Z) Hex3DUi.ui0
       = (Hex3D.Normal tt, ui1)
     ∧ Hex3D.placeBlock (Hex3DUi.core ui1) = (Hex3D.Normal tt, st2)
     ∧ Hex3D.blocks st2
       = <[(5, 5, 0)%Z := Hex3D.currentMaterial Hex3D.init]>
           (Hex3D.blocks Hex3D.init)
     ∧ JsNum.index (Hex3D.history st2) (Hex3D.historyIndex st2)
       = Some (Hex3D.blocks st2))
  ∧ (∃ ui1 st2,
       Hex3DUi.updateRaycast (Hex3DUi.BlockHit starter_mesh_1_0_1 1 0) Hex3DUi.ui0
         = (Hex3D.Normal tt, ui1)
       ∧ Hex3D.placeBlock (Hex3DUi.core ui1) = (Hex3D.Normal tt, st2)
       ∧ Hex3D.blocks st2
         = <[(1, 0, 2)%Z := Hex3D.currentMaterial Hex3D.init]>
             (Hex3D.blocks Hex3D.init)
       ∧ JsNum.index (Hex3D.history st2) (Hex3D.historyIndex st2)
         = Some (Hex3D.blocks st2)).
Proof.
  split.
  - apply (click_places_on_ground_or_on_top [] 1 None
             (Hex3DUi.GroundHit (5, 5)%Z) 5 5 0).
    + left. done.
    + vm_compute. reflexivity.
  - apply (click_places_on_ground_or_on_top [] 1 None
             (Hex3DUi.BlockHit starter_mesh_1_0_1 1 0) 1 0 2).
    + right. exists starter_mesh_1_0_1, 1%float, 0%Z. split; [reflexivity|].
      split; [vm_compute; reflexivity|]. split; [reflexivity|].
      split; [reflexivity|]. vm_compute. reflexivity.
    + vm_compute. reflexivity.
Defined.

Module Keys3D.
Import Hex3D History3D Hex3DUi.

(** What the keyboard keeps: the brush size between 1 and 5, the material
    among the first ten of the palette. *)
Definition keys_inv (ui : Ui) : Prop :=
  (1 <= brushSize ui <= 5)%Z
  ∧ (currentMaterial (core ui) < 10)%nat
  ∧ session_inv (core ui).

Lemma digit_num code d :
  digitOfCode code = Some d →
  (if String.eqb code "Digit0" then 9%Z else (d - 1)%Z) = ((d + 9) mod 10)%Z
  ∧ (0 <= d <= 9)%Z
  ∧ String.eqb code "KeyQ" = false ∧ String.eqb code "KeyE" = false
  ∧ String.eqb code "KeyZ" = false ∧ String.eqb code "KeyY" = false.
Proof.
  unfold digitOfCode. intros H.
  repeat match type of H with
  | (if String.eqb code ?s then _ else _) = _ =>
      let E := fresh "E" in
      destruct (String.eqb code s) eqn:E;
      [ apply String.eqb_eq in E; subst code; injection H as <-;
        vm_compute; intuition discriminate | ]
  end.
  discriminate.
Qed.

Lemma undo_redo_material st :
  currentMaterial (undo st).2 = currentMaterial st
  ∧ currentMaterial (redo st).2 = currentMaterial st.
Proof.
  split.
  - unfold undo. destruct (_ <=? _)%Z; [done|].
    match goal with |- context [loadState ?s ?t] =>
      destruct (loadState_frame s t) as (_ & _ & -> & _) end. done.
  - unfold redo. destruct (_ <=? _)%Z; [done|].
    match goal with |- context [loadState ?s ?t] =>
      destruct (loadState_frame s t) as (_ & _ & -> & _) end. done.
Qed.

Lemma selectMaterial_inv index st :
  session_inv st → (index < length MATERIALS)%nat →
  session_inv (selectMaterial index st).
Proof. intros [] ?. by constructor. Qed.

Lemma onKeyDown_inv code ctrl ui : keys_inv ui → keys_inv (onKeyDown code ctrl ui).
Proof.
  intros (Hb & Hm & I). unfold onKeyDown.
  destruct (String.eqb code "KeyQ"); [split; [simpl; lia|done]|].
  destruct (String.eqb code "KeyE"); [split; [simpl; lia|done]|].
  destruct (String.eqb code "KeyZ").
  { destruct ctrl; [|done]. split; [done|]. simpl. split.
    - by rewrite (proj1 (undo_redo_material _)).
    - by apply undo_inv. }
  destruct (String.eqb code "KeyY").
  { destruct ctrl; [|done]. split; [done|]. simpl. split.
    - by rewrite (proj2 (undo_redo_material _)).
    - by apply redo_inv. }
  destruct (digitOfCode code) as [d|] eqn:Ed; [|done].
  destruct (digit_num _ _ Ed) as (-> & Hd & _).
  assert (0 <= (d + 9) mod 10 < 10)%Z as Hn by (apply Z.mod_pos_bound; lia).
  case_match; [|done].
  split; [done|]. simpl. split; [lia|].
  apply selectMaterial_inv; [done|]. simpl. lia.
Qed.

Lemma ui0_inv : keys_inv ui0.
Proof.
  split; [simpl; lia|]. split; [vm_compute; lia|]. apply init_inv.
Qed.

Lemma typeKeys_inv keys ui : keys_inv ui → keys_inv (typeKeys keys ui).
Proof.
  unfold typeKeys. revert ui.
  induction keys as [|k keys IH]; intros ui H; [done|].
  simpl. apply IH. by apply onKeyDown_inv.
Qed.

End Keys3D.

(** X16. Whatever keys are pressed in the 3D builder from its start
    ([onKeyDown], with or without Ctrl/Meta), the brush size stays between
    1 and 5, the current material stays among the first ten of the twelve
    materials of the palette (the digit keys reach no other, and Ctrl+Z
    and Ctrl+Y leave the material alone), and the history list stays
    between 1 and 50 snapshots with the index on one of them. *)
Theorem keyboard_keeps_brush_and_material
    (keys : list (string * bool)) :
  let ui := Hex3DUi.typeKeys keys Hex3DUi.ui0 in
  (1 <= Hex3DUi.brushSize ui <= 5)%Z
  ∧ (Hex3D.currentMaterial (Hex3DUi.core ui) < 10)%nat
  ∧ (1 ≤ length (Hex3D.history (Hex3DUi.core ui)) ≤ 50)%nat
  ∧ (0 <= Hex3D.historyIndex (Hex3DUi.core ui)
       < Z.of_nat (length (Hex3D.history (Hex3DUi.core ui))))%Z.
Proof.
  intros ui.
  destruct (Keys3D.typeKeys_inv keys _ Keys3D.ui0_inv) as (Hb & Hm & I).
  split; [done|]. split; [done|].
  destruct I as [Hwf Hidx _ _ _ _ _].
  unfold History3D.hist_wf in Hwf. fold ui in Hwf, Hidx. lia.
Qed.

(** X17. In every state of a session of the 3D builder, a placement or a
    removal that changes the block store discards the redo branch: the
    history becomes the snapshots up to the history index followed by the
    new store (without its oldest entry when that makes 51), and a redo
    right after it returns the state unchanged. *)
Theorem new_edit_discards_redo_3D
    (evs : list Hex3D.Event) (hit : option (Z * Z * Z)) (st' : Hex3D.State) :
  let st := Hex3D.run evs Hex3D.init in
  Hex3D.placeBlock st = (Hex3D.Normal tt, st')
  ∨ Hex3D.removeBlockAtCursor hit st = (Hex3D.Normal tt, st') →
  Hex3D.blocks st' ≠ Hex3D.blocks st →
  Hex3D.history st'
  = (let l := take (Z.to_nat (Hex3D.historyIndex st + 1)) (Hex3D.history st)
              ++ [Hex3D.blocks st'] in
     if (50 <? length l)%nat then drop 1 l else l)
  ∧ Hex3D.redo st' = (Hex3D.Normal tt, st').
Proof.
  intros st Hed Hch.
  assert (History3D.session_inv st) as I
    by apply History3D.run_inv, History3D.init_inv.
  assert (∃ st1, History3D.frame st st1 ∧ st' = Hex3D.saveState st1)
    as (st1 & (Hh & Hi & _) & ->).
  { destruct Hed as [E|E].
    - destruct (History3D.placeBlock_cases st (History3D.inv_material st I))
        as [E'|(k & st1 & _ & _ & _ & Hf & E')]; rewrite E' in E;
        injection E as <-; [done|by exists st1].
    - destruct (History3D.removeBlockAtCursor_cases hit st)
        as [E'|(k & st1 & _ & _ & _ & Hf & E')]; rewrite E' in E;
        injection E as <-; [done|by exists st1]. }
  destruct (History3D.inv_wf st I) as [_ Hix]. split.
  - rewrite History3D.saveState3D_history by (rewrite Hh, Hi; done).
    unfold History3D.kept. rewrite Hh, Hi.
    by destruct (History3D.saveState_blocks st1) as (-> & _).
  - unfold Hex3D.redo. rewrite History3D.saveState_index.
    by rewrite Z.leb_refl.
Qed.

Lemma new_edit_discards_redo_3D_witness :
  let st := Hex3D.run [Hex3D.Hover (Some (5, 5, -1)%Z); Hex3D.LeftDown;
                       Hex3D.UndoKey] Hex3D.init in
  let st' := (Hex3D.placeBlock st).2 in
  Hex3D.history st'
  = (let l := take (Z.to_nat (Hex3D.historyIndex st + 1)) (Hex3D.history st)
              ++ [Hex3D.blocks st'] in
     if (50 <? length l)%nat then drop 1 l else l)
  ∧ Hex3D.redo st' = (Hex3D.Normal tt, st').
Proof.
  apply (new_edit_discards_redo_3D
           [Hex3D.Hover (Some (5, 5, -1)%Z); Hex3D.LeftDown; Hex3D.UndoKey]
           None).
  - left. vm_compute. reflexivity.
  - intros E. apply (f_equal (λ b, b !! (5, 5, 0)%Z)) in E.
    vm_compute in E. discriminate.
Defined.

(** X18. In every state of a session of the 2D editor, the start of a
    stroke (a left button press without Alt, or a touch) and a clear of a
    canvas that is not empty discard the redo branch: the history becomes
    the snapshots up to the history index followed by the cells as they
    were before the edit (without its oldest entry when that makes 51), and
    a redo right after it returns the state unchanged. *)
Theorem new_stroke_discards_redo_2D
    (evs : list Hex2D.Event) (ev : Hex2D.Event) :
  let st := Hex2D.run evs Hex2D.init in
  (∃ e hex, ev = Hex2D.MouseDown e hex
     ∧ Hex2D.button e = 0%Z ∧ Hex2D.altKey e = false)
  ∨ (∃ hex, ev = Hex2D.TouchStart hex)
  ∨ (ev = Hex2D.ClearClick ∧ Hex2D.hexCells st ≠ ∅) →
  Hex2D.history (Hex2D.step ev st)
  = (let l := take (Z.to_nat (Hex2D.historyIndex st + 1)) (Hex2D.history st)
              ++ [Hex2D.hexCells st] in
     if (50 <? length l)%nat then drop 1 l else l)
  ∧ Hex2D.redo (Hex2D.step ev st) = Hex2D.step ev st.
Proof.
  intros st Hev.
  assert (History2D.hist_wf st) as Hwf.
  { apply History2D.run_wf, History2D.saveState_wf, History2D.STATE0_wf. }
  assert (∀ st0 st1,
            Hex2D.history st1 = Hex2D.history (Hex2D.saveState st0) →
            Hex2D.historyIndex st1 = Hex2D.historyIndex (Hex2D.saveState st0) →
            Hex2D.history st0 = Hex2D.history st →
            Hex2D.historyIndex st0 = Hex2D.historyIndex st →
            Hex2D.hexCells st0 = Hex2D.hexCells st →
            Hex2D.history st1
            = (let l := take (Z.to_nat (Hex2D.historyIndex st + 1))
                          (Hex2D.history st) ++ [Hex2D.hexCells st] in
               if (50 <? length l)%nat then drop 1 l else l)
            ∧ Hex2D.redo st1 = st1) as Hmain.
  { intros st0 st1 Hh1 Hi1 Hh0 Hi0 Hc0.
    destruct Hwf as [_ Hix].
    destruct (History2D.saveState_history st0) as [Hh Hidx];
      [rewrite Hh0, Hi0; done|].
    split.
    - rewrite Hh1, Hh. unfold History2D.kept. by rewrite Hh0, Hi0, Hc0.
    - unfold Hex2D.redo. rewrite Hh1, Hi1, Hidx.
      by rewrite Z.ltb_irrefl. }
  destruct Hev as [(e & hex & -> & Hb & Ha)|[(hex & ->)|(-> & Hne)]]; simpl.
  - unfold Hex2D.handleMouseDown. rewrite Hb, Ha. simpl.
    destruct (History2D.drawAtPosition_history hex
                (Hex2D.saveState (Hex2D.set_flags true (Hex2D.isPanning st) st)))
      as [H1 H2].
    by apply (Hmain (Hex2D.set_flags true (Hex2D.isPanning st) st)).
  - unfold Hex2D.handleTouchStart.
    destruct (History2D.drawAtPosition_history hex
                (Hex2D.saveState (Hex2D.set_flags true (Hex2D.isPanning st) st)))
      as [H1 H2].
    by apply (Hmain (Hex2D.set_flags true (Hex2D.isPanning st) st)).
  - unfold Hex2D.clearCanvas. destruct (_ =? _)%nat eqn:E.
    { apply Nat.eqb_eq, map_size_empty_iff in E. done. }
    by apply (Hmain st).
Qed.

Lemma new_stroke_discards_redo_2D_witness :
  let st := Hex2D.run [Hex2D.TouchStart (1, 1)%Z; Hex2D.TouchStart (2, 2)%Z;
                       Hex2D.UndoClick] Hex2D.init in
  let ev := Hex2D.TouchStart (3, 3)%Z in
  Hex2D.history (Hex2D.step ev st)
  = (let l := take (Z.to_nat (Hex2D.historyIndex st + 1)) (Hex2D.history st)
              ++ [Hex2D.hexCells st] in
     if (50 <? length l)%nat then drop 1 l else l)
  ∧ Hex2D.redo (Hex2D.step ev st) = Hex2D.step ev st.
Proof.
  apply (new_stroke_discards_redo_2D
           [Hex2D.TouchStart (1, 1)%Z; Hex2D.TouchStart (2, 2)%Z;
            Hex2D.UndoClick] (Hex2D.TouchStart (3, 3)%Z)).
  right. left. by eexists.
Defined.

Module Tools2D.
Import Hex2D FloodFill.

(** A cell the loop has visited is never written again. *)
Lemma floodFill_loop_visited fuel gs t c cells visited stack filled cells' n :
  floodFill_loop fuel gs t c cells visited stack filled = Some (cells', n) →
  ∀ k, k ∈ visited → cells' !! k = cells !! k.
Proof.
  revert cells visited stack filled.
  induction fuel as [|fuel IH]; intros cells visited stack filled H k Hk.
  - destruct stack as [|top rest]; cbn [floodFill_loop] in H; [by simplify_eq|].
    destruct (fillCap <=? filled)%nat; by simplify_eq.
  - destruct stack as [|top rest]; cbn [floodFill_loop] in H; [by simplify_eq|].
    destruct (fillCap <=? filled)%nat; [by simplify_eq|].
    destruct (decide (top ∈ visited)); [by eapply IH|].
    destruct (decide (cells !! top = t)).
    + rewrite (IH _ _ _ _ H k) by set_solver.
      rewrite lookup_fillCell. rewrite decide_False; [done|]. by intros ->.
    + eapply IH; [done|set_solver].
Qed.

(** A fill of free cells with a falsy colour deletes nothing. *)
Lemma floodFill_loop_delete_free fuel gs c cells visited stack filled cells' n :
  JsNum.truthy c = false →
  floodFill_loop fuel gs None c cells visited stack filled = Some (cells', n) →
  cells' = cells.
Proof.
  intros Hc. revert cells visited stack filled.
  induction fuel as [|fuel IH]; intros cells visited stack filled H.
  - destruct stack as [|top rest]; cbn [floodFill_loop] in H; [by simplify_eq|].
    destruct (fillCap <=? filled)%nat; by simplify_eq.
  - destruct stack as [|top rest]; cbn [floodFill_loop] in H; [by simplify_eq|].
    destruct (fillCap <=? filled)%nat; [by simplify_eq|].
    destruct (decide (top ∈ visited)); [by eapply IH|].
    destruct (decide (cells !! top = None)) as [E|]; [|by eapply IH].
    apply IH in H. rewrite H. unfold fillCell. rewrite Hc.
    by apply delete_id.
Qed.

(** The first iteration of a fill fills the start cell. *)
Lemma floodFill_loop_start fuel gs c cells start cells' n :
  floodFill_loop (S fuel) gs (cells !! start) c cells ∅ [start] 0
    = Some (cells', n) →
  cells' !! start = written c.
Proof.
  cbn [floodFill_loop]. change (fillCap <=? 0)%nat with false. cbv iota.
  rewrite decide_False by set_solver. rewrite decide_True by done.
  intros H.
  rewrite (floodFill_loop_visited _ _ _ _ _ _ _ _ _ _ H start) by set_solver.
  rewrite lookup_fillCell. by rewrite decide_True.
Qed.

Lemma floodFill_run_start col row c st cells' n :
  hexCells st !! (col, row) ≠ Some c →
  floodFill_run col row (hexCells st !! (col, row)) c st = Some (cells', n) →
  cells' !! (col, row) = written c.
Proof.
  intros Hne. unfold floodFill_run, floodFill_fuel.
  rewrite decide_False by done. rewrite Nat.add_1_r.
  apply floodFill_loop_start.
Qed.

Lemma floodFill_cells col row t c st :
  hexCells (floodFill col row t c st)
  = match floodFill_run col row t c st with
    | Some (cells, _) => cells
    | None => hexCells st
    end.
Proof. unfold floodFill. by destruct (floodFill_run _ _ _ _ _) as [[]|]. Qed.

Lemma floodFill_frame col row t c st :
  currentTool (floodFill col row t c st) = currentTool st
  ∧ currentColor (floodFill col row t c st) = currentColor st
  ∧ gridSize (floodFill col row t c st) = gridSize st.
Proof. unfold floodFill. by destruct (floodFill_run _ _ _ _ _) as [[]|]. Qed.

Lemma drawAtPosition_frame hex st :
  currentTool (drawAtPosition hex st) = currentTool st
  ∧ currentColor (drawAtPosition hex st) = currentColor st
  ∧ gridSize (drawAtPosition hex st) = gridSize st.
Proof.
  unfold drawAtPosition. destruct hex as [col row].
  repeat (first [done | apply floodFill_frame | case_match]).
Qed.

End Tools2D.

Module CellFacts.
Import Cells2D.

Definition in_grid (gs : Z) (k : Coord * Coord) : Prop :=
  ∃ c r, k = (Int c, Int r) ∧ (0 <= c < gs)%Z ∧ (0 <= r < gs)%Z.

Lemma inside_in_grid gs (n : Coord * Coord) :
  ge n.1 0 && lt n.1 gs && ge n.2 0 && lt n.2 gs = true → in_grid gs n.
Proof.
  destruct n as [[c| |s] [r| |s']]; simpl; intros H;
    repeat (apply andb_true_iff in H as [H ?]); try done;
    try (by destruct s); try (by destruct s').
  exists c, r. split; [done|]. lia.
Qed.

Lemma getNeighbors_grid gs col row n :
  n ∈ getNeighbors gs col row → in_grid gs n.
Proof.
  unfold getNeighbors. cbv zeta. intros H.
  apply list_elem_of_In, filter_In in H as [_ H]. by apply inside_in_grid.
Qed.

Lemma pushNeighbors_cells_elem visited ns stack k :
  k ∈ pushNeighbors visited ns stack → k ∈ ns ∨ k ∈ stack.
Proof.
  unfold pushNeighbors. revert stack.
  induction ns as [|n ns IH]; intros stack; simpl; [by right|].
  intros H. destruct (decide _); apply IH in H as [H|H].
  - left. by right.
  - by right.
  - left. by right.
  - apply elem_of_cons in H as [->|H]; [left; by left|by right].
Qed.

Lemma lookup_fillCell_ne c k k' cells :
  k ≠ k' → fillCell c k cells !! k' = cells !! k'.
Proof.
  intros Hne. unfold fillCell. destruct (JsNum.truthy c).
  - by apply lookup_insert_ne.
  - by apply lookup_delete_ne.
Qed.

(** The loop writes cells of its stack and cells of the grid only. *)
Lemma floodFill_loop_writes fuel gs t c start cells visited stack filled cells' n :
  (∀ k, k ∈ stack → in_grid gs k ∨ k = start) →
  floodFill_loop fuel gs t c cells visited stack filled = Some (cells', n) →
  ∀ k, cells' !! k ≠ cells !! k → in_grid gs k ∨ k = start.
Proof.
  revert cells visited stack filled.
  induction fuel as [|fuel IH]; intros cells visited stack filled Hst H k Hk.
  - destruct stack as [|top rest]; cbn [floodFill_loop] in H; [by simplify_eq|].
    destruct (Hex2D.fillCap <=? filled)%nat; by simplify_eq.
  - destruct stack as [|top rest]; cbn [floodFill_loop] in H; [by simplify_eq|].
    destruct (Hex2D.fillCap <=? filled)%nat; [by simplify_eq|].
    assert (∀ k, k ∈ rest → in_grid gs k ∨ k = start) as Hrest.
    { intros k' Hk'. apply Hst. by right. }
    destruct (decide (top ∈ visited)); [by eapply IH|].
    destruct (decide (cells !! top = t)); [|by eapply IH].
    destruct (decide (top = k)) as [<-|Hne]; [apply Hst; by left|].
    eapply IH; [|exact H|by rewrite lookup_fillCell_ne].
    intros k' Hk'. apply pushNeighbors_cells_elem in Hk' as [Hk'|Hk']; [|by auto].
    left. by eapply getNeighbors_grid.
Qed.

(** What passes the guard of [drawAtPosition]: integers of the grid, and
    [NaN]. *)
Lemma guard_passed gs (c : Coord) :
  lt c 0 = false → ge c gs = false → c = NaN ∨ ∃ z, c = Int z ∧ (0 <= z < gs)%Z.
Proof.
  destruct c as [z| |s]; simpl; intros H1 H2.
  - right. exists z. split; [done|]. lia.
  - by left.
  - by destruct s.
Qed.

(** *** On integer cells the tools are those of [Hex2D] *)

#[local] Instance cell_inj : Inj (=) (=) cell.
Proof. intros [a b] [a' b'] [= -> ->]. done. Qed.

Lemma getNeighbors_cell gs c r :
  getNeighbors gs (Int c) (Int r) = cell <$> Hex2D.getNeighbors gs c r.
Proof.
  assert (∀ l : list (Z * Z),
            List.filter (λ n, ge n.1 0 && lt n.1 gs && ge n.2 0 && lt n.2 gs)
              (cell <$> l)
            = cell <$> filter (λ n : Z * Z,
                         (0 <= n.1 ∧ n.1 < gs ∧ 0 <= n.2 ∧ n.2 < gs)%Z) l) as Hf.
  { induction l as [|[a b] l IH]; [done|].
    rewrite fmap_cons, filter_cons. cbn [List.filter]. rewrite IH.
    cbn [cell fst snd ge lt].
    destruct (decide _) as [Hd|Hd]; simpl in Hd.
    - replace (_ && _ && _ && _) with true; [done|].
      symmetry. rewrite !andb_true_iff. lia.
    - replace (_ && _ && _ && _) with false; [done|].
      symmetry. apply not_true_iff_false. rewrite !andb_true_iff. lia. }
  unfold getNeighbors, Hex2D.getNeighbors. cbv zeta. rewrite <- Hf.
  f_equal. simpl. by destruct (negb _).
Qed.

Lemma pushNeighbors_cell (visited : gset (Z * Z)) (ns stack : list (Z * Z)) :
  pushNeighbors (set_map cell visited) (cell <$> ns) (cell <$> stack)
  = cell <$> Hex2D.pushNeighbors visited ns stack.
Proof.
  unfold pushNeighbors, Hex2D.pushNeighbors. revert stack.
  induction ns as [|n ns IH]; intros stack; [done|].
  simpl. destruct (decide (n ∈ visited)) as [Hin|Hin].
  - rewrite decide_True by (by apply elem_of_map_2). apply IH.
  - rewrite decide_False.
    + rewrite <- fmap_cons. apply IH.
    + intros (n' & E & Hn')%elem_of_map. apply (inj cell) in E. by subst.
Qed.

Lemma fillCell_cell (c : string) (k : Z * Z) (cells : gmap (Z * Z) string) :
  fillCell c (cell k) (kmap cell cells) = kmap cell (Hex2D.fillCell c k cells).
Proof.
  unfold fillCell, Hex2D.fillCell. destruct (JsNum.truthy c).
  - by rewrite (kmap_insert cell).
  - by rewrite (kmap_delete cell).
Qed.

Definition lift_result (res : gmap (Z * Z) string * nat)
    : gmap (Coord * Coord) string * nat :=
  (kmap cell res.1, res.2).

Lemma floodFill_loop_cell (fuel : nat) (gs : Z) (t : option string)
    (c : string) (cells : gmap (Z * Z) string) (visited : gset (Z * Z))
    (stack : list (Z * Z)) (filled : nat) :
  floodFill_loop fuel gs t c (kmap cell cells) (set_map cell visited)
    (cell <$> stack) filled
  = lift_result
      <$> Hex2D.floodFill_loop fuel gs t c cells visited stack filled.
Proof.
  revert cells visited stack filled.
  induction fuel as [|fuel IH]; intros cells visited stack filled;
    destruct stack as [|top rest];
    cbn [floodFill_loop Hex2D.floodFill_loop fmap list_fmap]; try done.
  - by destruct (Hex2D.fillCap <=? filled)%nat.
  - destruct (Hex2D.fillCap <=? filled)%nat; [done|].
    rewrite (lookup_kmap cell).
    destruct (decide (top ∈ visited)) as [Hin|Hin].
    { rewrite decide_True by (by apply elem_of_map_2). apply IH. }
    rewrite decide_False.
    2: { intros (n' & E & Hn')%elem_of_map. apply (inj cell) in E. by subst. }
    assert ({[cell top]} ∪ set_map cell visited
            = (set_map cell ({[top]} ∪ visited) : gset _)) as Hv.
    { by rewrite set_map_union_L, set_map_singleton_L. }
    rewrite Hv.
    destruct (decide (cells !! top = t)); [|apply IH].
    rewrite fillCell_cell.
    change (cell top).1 with (Int top.1). change (cell top).2 with (Int top.2).
    rewrite getNeighbors_cell, pushNeighbors_cell. apply IH.
Qed.

Lemma drawAtPosition_cell k st :
  drawAtPosition (cell k) (of_state st) = of_state (Hex2D.drawAtPosition k st).
Proof.
  destruct k as [col row].
  unfold drawAtPosition, Hex2D.drawAtPosition, cell. cbn [fst snd lt ge].
  change (gridSize (of_state st)) with (Hex2D.gridSize st).
  destruct (_ || _)%Z; [done|].
  change (currentTool (of_state st)) with (Hex2D.currentTool st).
  change (currentColor (of_state st)) with (Hex2D.currentColor st).
  change (hexCells (of_state st))
    with (kmap (M2 := gmap (Coord * Coord)) cell (Hex2D.hexCells st)).
  change (Int col, Int row) with (cell (col, row)).
  rewrite (lookup_kmap (M2 := gmap (Coord * Coord)) cell).
  destruct (String.eqb _ "draw").
  { destruct (decide _); [done|].
    unfold of_state, set_hexCells. simpl. by rewrite (kmap_insert cell). }
  destruct (String.eqb _ "erase").
  { destruct (decide _); [|done].
    unfold of_state, set_hexCells. simpl. by rewrite (kmap_delete cell). }
  destruct (String.eqb _ "fill"); [|done].
  unfold floodFill, Hex2D.floodFill, floodFill_run, Hex2D.floodFill_run.
  destruct (decide _); [done|].
  change (gridSize (of_state st)) with (Hex2D.gridSize st).
  change (hexCells (of_state st))
    with (kmap (M2 := gmap (Coord * Coord)) cell (Hex2D.hexCells st)).
  pose proof (floodFill_loop_cell Hex2D.floodFill_fuel (Hex2D.gridSize st)
                (Hex2D.hexCells st !! (col, row)) (Hex2D.currentColor st)
                (Hex2D.hexCells st) ∅ [(col, row)] 0) as Hl.
  rewrite set_map_empty in Hl. cbn [fmap list_fmap] in Hl.
  change (cell (col, row)) with (Int col, Int row) in Hl.
  rewrite Hl.
  by destruct (Hex2D.floodFill_loop _ _ _ _ _ _ _ _) as [[cells' n']|].
Qed.

End CellFacts.

(** X19. In the 2D editor [drawAtPosition] writes inside the grid, with
    one exception: the guard lets a [NaN] column or row through (all four
    comparisons are false at [NaN]), and then the one cell under that key
    is written. For every tool, every canvas and every cell [hex] that
    [pixelToHex] can return (integers, [NaN], infinities): a key whose
    payload differs after the call is a pair of integers in
    [0, gridSize), or it is [hex] itself and [hex] has a [NaN] coordinate.
    On integer cells the call is the one of [Hex2D.drawAtPosition]. *)
Theorem drawAtPosition_writes_grid_or_NaN_cell
    (cv : Cells2D.Canvas) (hex k : Cells2D.Coord * Cells2D.Coord)
    (st : Hex2D.State) (cell : Z * Z) :
  (Cells2D.hexCells (Cells2D.drawAtPosition hex cv) !! k
     ≠ Cells2D.hexCells cv !! k →
   (∃ c r, k = (Cells2D.Int c, Cells2D.Int r)
      ∧ (0 <= c < Cells2D.gridSize cv)%Z ∧ (0 <= r < Cells2D.gridSize cv)%Z)
   ∨ (k = hex ∧ (hex.1 = Cells2D.NaN ∨ hex.2 = Cells2D.NaN)))
  ∧ Cells2D.drawAtPosition (Cells2D.cell cell) (Cells2D.of_state st)
    = Cells2D.of_state (Hex2D.drawAtPosition cell st).
Proof.
  split; [|apply CellFacts.drawAtPosition_cell].
  destruct hex as [col row]. unfold Cells2D.drawAtPosition.
  destruct (_ || _) eqn:Hg; [done|].
  repeat (apply orb_false_iff in Hg as [Hg ?]).
  assert (CellFacts.in_grid (Cells2D.gridSize cv) k ∨ k = (col, row) →
          (∃ c r, k = (Cells2D.Int c, Cells2D.Int r)
             ∧ (0 <= c < Cells2D.gridSize cv)%Z
             ∧ (0 <= r < Cells2D.gridSize cv)%Z)
          ∨ (k = (col, row)
             ∧ ((col, row).1 = Cells2D.NaN ∨ (col, row).2 = Cells2D.NaN)))
    as Hfin.
  { intros [Hin| ->]; [by left|].
    destruct (CellFacts.guard_passed (Cells2D.gridSize cv) col)
      as [->|(c & -> & Hc)]; [done..|by right; auto|].
    destruct (CellFacts.guard_passed (Cells2D.gridSize cv) row)
      as [->|(r & -> & Hr)]; [done..|by right; auto|].
    left. by exists c, r. }
  assert (∀ m, m !! k ≠ Cells2D.hexCells cv !! k →
            (m = <[(col, row) := Cells2D.currentColor cv]> (Cells2D.hexCells cv)
             ∨ m = delete (col, row) (Cells2D.hexCells cv)) →
            k = (col, row)) as Hone.
  { intros m Hk Hm. destruct (decide (k = (col, row))) as [->|Hne]; [done|].
    destruct Hk. destruct Hm as [-> | ->].
    - by rewrite lookup_insert_ne.
    - by rewrite lookup_delete_ne. }
  repeat case_match; try done; simpl; intros Hk; apply Hfin.
  - right. eapply Hone; [done|by left].
  - right. eapply Hone; [done|by right].
  - revert Hk. unfold Cells2D.floodFill, Cells2D.floodFill_run.
    destruct (decide _); [done|].
    destruct (Cells2D.floodFill_loop _ _ _ _ _ _ _ _) as [[cells' n']|] eqn:E;
      [|done].
    simpl. apply (CellFacts.floodFill_loop_writes _ _ _ _ (col, row)
                    _ _ _ _ _ _) with (2 := E).
    intros k' ->%list_elem_of_singleton. by right.
Qed.

(** A click whose column is [NaN] paints the cell of key ['NaN,3']. *)
Definition canvas_20 : Cells2D.Canvas := Cells2D.of_state Hex2D.init.

Lemma drawAtPosition_writes_grid_or_NaN_cell_witness :
  (∃ c r, (Cells2D.NaN, Cells2D.Int 3) = (Cells2D.Int c, Cells2D.Int r)
     ∧ (0 <= c < Cells2D.gridSize canvas_20)%Z
     ∧ (0 <= r < Cells2D.gridSize canvas_20)%Z)
  ∨ ((Cells2D.NaN, Cells2D.Int 3) = (Cells2D.NaN, Cells2D.Int 3)
     ∧ ((Cells2D.NaN, Cells2D.Int 3).1 = Cells2D.NaN
        ∨ (Cells2D.NaN, Cells2D.Int 3).2 = Cells2D.NaN)).
Proof.
  apply (drawAtPosition_writes_grid_or_NaN_cell canvas_20
           (Cells2D.NaN, Cells2D.Int 3) (Cells2D.NaN, Cells2D.Int 3)
           Hex2D.init (0, 0)%Z).
  vm_compute. discriminate.
Defined.

(** X20. In the 2D editor, applying a tool twice to the same cell is the
    same as applying it once: [drawAtPosition] is idempotent, for the draw
    tool, the eraser and the fill tool, from any state (so the repeated
    calls of a drag that stays over one cell change nothing further). *)
Theorem drawAtPosition_idempotent (st : Hex2D.State) (hex : Z * Z) :
  Hex2D.drawAtPosition hex (Hex2D.drawAtPosition hex st)
  = Hex2D.drawAtPosition hex st.
Proof.
  destruct hex as [col row].
  destruct (Tools2D.drawAtPosition_frame (col, row) st) as (Ht & Hc & Hg).
  set (st1 := Hex2D.drawAtPosition (col, row) st) in *.
  assert (st1 = Hex2D.drawAtPosition (col, row) st) as Hst1 by done.
  clearbody st1.
  unfold Hex2D.drawAtPosition. rewrite Ht, Hc, Hg.
  unfold Hex2D.drawAtPosition in Hst1.
  destruct (_ || _)%Z eqn:Hguard; [done|].
  destruct (String.eqb (Hex2D.currentTool st) "draw").
  { destruct (decide _) as [E|E] in Hst1; subst st1.
    - by rewrite decide_True.
    - simpl. by rewrite lookup_insert_eq, decide_True. }
  destruct (String.eqb (Hex2D.currentTool st) "erase").
  { destruct (decide _) as [E|E] in Hst1; subst st1.
    - simpl. rewrite lookup_delete_eq. rewrite decide_False; [done|].
      by intros [? [=]].
    - by rewrite decide_False. }
  destruct (String.eqb (Hex2D.currentTool st) "fill"); [|done].
  destruct (decide (Hex2D.hexCells st !! (col, row)
                    = Some (Hex2D.currentColor st))) as [E|E].
  { assert (st1 = st) as ->; [|done]. subst st1. rewrite E.
    unfold Hex2D.floodFill, Hex2D.floodFill_run.
    rewrite decide_True by done. by destruct st. }
  destruct (Hex2D.floodFill_run col row (Hex2D.hexCells st !! (col, row))
              (Hex2D.currentColor st) st) as [[cells' n]|] eqn:Hrun.
  2: { assert (st1 = st) as ->; [|done].
       subst st1. unfold Hex2D.floodFill. by rewrite Hrun. }
  assert (st1 = Hex2D.set_hexCells cells' st) as ->.
  { subst st1. unfold Hex2D.floodFill. by rewrite Hrun. }
  pose proof (Tools2D.floodFill_run_start _ _ _ _ _ _ E Hrun) as Hstart.
  simpl Hex2D.hexCells. rewrite Hstart.
  unfold FloodFill.written.
  destruct (JsNum.truthy (Hex2D.currentColor st)) eqn:Htr.
  - unfold Hex2D.floodFill, Hex2D.floodFill_run.
    rewrite decide_True by done. done.
  - unfold Hex2D.floodFill, Hex2D.floodFill_run.
    rewrite decide_False by done.
    cbn [Hex2D.hexCells Hex2D.gridSize Hex2D.set_hexCells].
    destruct (Hex2D.floodFill_loop _ _ _ _ _ _ _ _) as [[cells'' n']|] eqn:E2;
      [|done].
    apply Tools2D.floodFill_loop_delete_free in E2; [|done]. by rewrite E2.
Qed.

Module Strokes2D.
Import Hex2D.

Lemma run_app evs1 evs2 st : run (evs1 ++ evs2) st = run evs2 (run evs1 st).
Proof. unfold run. apply fold_left_app. Qed.

Lemma handleMouseMove_frame hex st :
  history (handleMouseMove hex st) = history st
  ∧ historyIndex (handleMouseMove hex st) = historyIndex st.
Proof.
  unfold handleMouseMove. destruct (isPanning st); [done|].
  destruct (isDrawing st); [|done]. apply History2D.drawAtPosition_history.
Qed.

Lemma moves_frame hexes st :
  history (run (map MouseMove hexes) st) = history st
  ∧ historyIndex (run (map MouseMove hexes) st) = historyIndex st.
Proof.
  revert st. induction hexes as [|hex hexes IH]; intros st; [done|].
  simpl. destruct (IH (handleMouseMove hex st)) as [-> ->].
  apply handleMouseMove_frame.
Qed.

End Strokes2D.

(** X21. In the 2D editor a whole stroke is one history step: a left
    button press without Alt, any number of pointer moves and the release
    leave the history list and the history index exactly as the one
    [saveState] call of the press made them, however many cells the moves
    paint; and both the drawing and the panning flag are off afterwards. *)
Theorem stroke_is_one_history_step
    (st : Hex2D.State) (e : Hex2D.MouseEvent) (hex : Z * Z)
    (hexes : list (Z * Z)) :
  Hex2D.button e = 0%Z → Hex2D.altKey e = false →
  let st' := Hex2D.run (Hex2D.MouseDown e hex
                          :: map Hex2D.MouseMove hexes ++ [Hex2D.MouseUp]) st in
  Hex2D.history st' = Hex2D.history (Hex2D.saveState st)
  ∧ Hex2D.historyIndex st' = Hex2D.historyIndex (Hex2D.saveState st)
  ∧ Hex2D.isDrawing st' = false
  ∧ Hex2D.isPanning st' = false.
Proof.
  intros Hb Ha st'. subst st'.
  change (Hex2D.run (?ev :: ?evs) st) with (Hex2D.run evs (Hex2D.step ev st)).
  rewrite Strokes2D.run_app. simpl.
  destruct (Strokes2D.moves_frame hexes
              (Hex2D.handleMouseDown e hex st)) as [-> ->].
  unfold Hex2D.handleMouseDown. rewrite Hb, Ha. simpl.
  destruct (History2D.drawAtPosition_history hex
              (Hex2D.saveState (Hex2D.set_flags true (Hex2D.isPanning st) st)))
    as [-> ->].
  unfold Hex2D.saveState. simpl. by destruct (_ <? _)%nat.
Qed.

Lemma stroke_is_one_history_step_witness :
  let st' := Hex2D.run (Hex2D.MouseDown leftClick (1, 1)%Z
                          :: map Hex2D.MouseMove [(1, 2); (2, 2); (2, 3)]%Z
                             ++ [Hex2D.MouseUp]) Hex2D.init in
  Hex2D.history st' = Hex2D.history (Hex2D.saveState Hex2D.init)
  ∧ Hex2D.historyIndex st' = Hex2D.historyIndex (Hex2D.saveState Hex2D.init)
  ∧ Hex2D.isDrawing st' = false
  ∧ Hex2D.isPanning st' = false.
Proof.
  apply (stroke_is_one_history_step Hex2D.init leftClick (1, 1)%Z
           [(1, 2); (2, 2); (2, 3)]%Z); reflexivity.
Defined.

(** X22. In the 2D editor [clearCanvas] always leaves the canvas empty, and
    a second clear right after the first changes nothing: no second
    snapshot is recorded. *)
Theorem clearCanvas_empties_once (st : Hex2D.State) :
  Hex2D.hexCells (Hex2D.clearCanvas st) = ∅
  ∧ Hex2D.clearCanvas (Hex2D.clearCanvas st) = Hex2D.clearCanvas st.
Proof.
  assert (Hex2D.hexCells (Hex2D.clearCanvas st) = ∅) as He.
  { unfold Hex2D.clearCanvas. destruct (_ =? _)%nat eqn:E; [|done].
    by apply Nat.eqb_eq, map_size_empty_iff in E. }
  split; [done|].
  unfold Hex2D.clearCanvas at 1. rewrite He. by rewrite map_size_empty.
Qed.

Module RecentColors.
Import Colors2D.

Lemma indexOf_spec l c :
  (indexOf l c = (-1)%Z ∧ c ∉ l)
  ∨ (0 <= indexOf l c ∧ l !! Z.to_nat (indexOf l c) = Some c)%Z.
Proof.
  induction l as [|x l IH]; simpl.
  - left. split; [done|]. apply not_elem_of_nil.
  - destruct (String.eqb x c) eqn:E.
    + apply String.eqb_eq in E as ->. right. done.
    + apply String.eqb_neq in E.
      destruct IH as [[Hi Hn]|[Hi Hl]].
      * left. rewrite Hi. simpl. split; [done|].
        apply not_elem_of_cons. done.
      * right. destruct (_ <? _)%Z eqn:E2; [apply Z.ltb_lt in E2; lia|].
        split; [lia|].
        replace (Z.to_nat (indexOf l c + 1)) with (S (Z.to_nat (indexOf l c)))
          by lia.
        done.
Qed.

Lemma delete_NoDup_absent (l : list string) i c :
  NoDup l → l !! i = Some c → (c ∉ delete i l) ∧ NoDup (delete i l).
Proof.
  intros Hnd Hl. rewrite delete_take_drop.
  rewrite <- (take_drop_middle l i c Hl) in Hnd.
  apply NoDup_app in Hnd as (H1 & H2 & H3).
  apply NoDup_cons in H3 as [H3 H4].
  split.
  - apply not_elem_of_app. split; [|done].
    intros Hin. apply (H2 c Hin). by left.
  - apply NoDup_app. split; [done|]. split; [|done].
    intros x Hx Hx'. apply (H2 x Hx). by right.
Qed.

(** One call keeps the list duplicate-free and within eight entries, and
    puts the colour first. *)
Lemma addRecentColor_step c l :
  NoDup l → (length l ≤ 8)%nat →
  NoDup (addRecentColor c l)
  ∧ (length (addRecentColor c l) ≤ 8)%nat
  ∧ head (addRecentColor c l) = Some c
  ∧ (∀ x, x ∈ addRecentColor c l → x = c ∨ x ∈ l).
Proof.
  intros Hnd Hlen. unfold addRecentColor.
  set (spliced := if (_ <? _)%Z then _ else _).
  assert (NoDup spliced ∧ (c ∉ spliced) ∧ (length spliced ≤ length l)%nat
          ∧ ∀ x, x ∈ spliced → x ∈ l) as (Hs1 & Hs2 & Hs3 & Hs4).
  { subst spliced. destruct (indexOf_spec l c) as [[-> Hn]|[Hi Hl]].
    - done.
    - destruct (_ <? _)%Z eqn:E; [|apply Z.ltb_ge in E; lia].
      destruct (delete_NoDup_absent l _ c Hnd Hl) as [H1 H2].
      split; [done|]. split; [done|]. split.
      + rewrite length_delete by (by eexists). lia.
      + intros x Hx. eapply elem_of_sublist; [done|apply sublist_delete]. }
  assert (NoDup (c :: spliced)) as Hnd2 by (by apply NoDup_cons).
  destruct (_ <? _)%nat eqn:E.
  - apply Nat.ltb_lt in E. simpl in E. unfold pop.
    split; [|split; [|split]].
    + eapply sublist_NoDup; [exact Hnd2|apply sublist_take].
    + rewrite length_take. simpl. lia.
    + simpl. replace (length spliced - 0)%nat with (S (length spliced - 1))
        by lia. done.
    + intros x Hx. apply elem_of_take in Hx as (i & Hx & _).
      apply list_elem_of_lookup_2 in Hx.
      apply elem_of_cons in Hx as [->|Hx]; auto.
  - apply Nat.ltb_ge in E. simpl in E.
    split; [done|]. split; [simpl; lia|]. split; [done|].
    intros x Hx. apply elem_of_cons in Hx as [->|Hx]; auto.
Qed.

Lemma recent_snoc colors c :
  recentAfter (colors ++ [c]) = addRecentColor c (recentAfter colors).
Proof. unfold recentAfter. by rewrite fold_left_app. Qed.

Lemma recentAfter_inv colors :
  NoDup (recentAfter colors)
  ∧ (length (recentAfter colors) ≤ 8)%nat
  ∧ head (recentAfter colors) = last colors
  ∧ (∀ x, x ∈ recentAfter colors → x ∈ colors).
Proof.
  induction colors as [|c colors IH] using rev_ind.
  - split; [constructor|]. split; [simpl; lia|]. split; [done|]. done.
  - destruct IH as (H1 & H2 & _ & H4). rewrite recent_snoc.
    destruct (addRecentColor_step c _ H1 H2) as (G1 & G2 & G3 & G4).
    split; [done|]. split; [done|]. split; [by rewrite last_snoc|].
    intros x Hx. apply elem_of_app. destruct (G4 x Hx) as [->|Hx'].
    + right. by left.
    + left. auto.
Qed.

End RecentColors.

(** X23. In the 2D editor, whatever colours are chosen and in whatever
    order, the list of recent colours never holds a colour twice, never
    holds more than eight colours, holds only colours that were chosen,
    and has the colour chosen last in front. *)
Theorem recent_colors_distinct_and_capped (colors : list string) :
  NoDup (Colors2D.recentAfter colors)
  ∧ (length (Colors2D.recentAfter colors) ≤ 8)%nat
  ∧ head (Colors2D.recentAfter colors) = last colors
  ∧ (∀ x, x ∈ Colors2D.recentAfter colors → x ∈ colors).
Proof. apply RecentColors.recentAfter_inv. Qed.

Module Zoom2D.
Import View2D.

(** *** Comparisons *)

Lemma SFcompare_antisym x y :
  SFcompare y x = option_map CompOpp (SFcompare x y).
Proof.
  destruct x as [s1|s1| |s1 m1 e1], y as [s2|s2| |s2 m2 e2]; simpl;
    try reflexivity;
    try (destruct s1; reflexivity);
    try (destruct s2; reflexivity);
    try (destruct s1, s2; reflexivity).
  destruct s1, s2; simpl; try reflexivity.
  - rewrite (Z.compare_antisym e1 e2).
    destruct (e1 ?= e2)%Z; simpl; try reflexivity.
    f_equal. rewrite CompOpp_involutive.
    apply (Pos.compare_cont_antisym m2 m1 Eq).
  - rewrite (Z.compare_antisym e1 e2).
    destruct (e1 ?= e2)%Z; simpl; try reflexivity.
    f_equal. symmetry. apply (Pos.compare_cont_antisym m1 m2 Eq).
Qed.

Lemma not_nan_compare x c :
  is_nan x = false → Prim2SF c ≠ S754_nan →
  ∃ o, SFcompare (Prim2SF x) (Prim2SF c) = Some o.
Proof.
  unfold is_nan. rewrite FloatAxioms.eqb_spec. unfold SFeqb. intros Hx Hc.
  destruct (Prim2SF x) as [s|s| |s m e] eqn:Ex; [| |done|];
    destruct (Prim2SF c) as [s'|s'| |s' m' e']; try done; by eexists.
Qed.

(** The three comparisons of [x] with [c], through one [SFcompare]. *)
Lemma compare_cases x c o :
  SFcompare (Prim2SF x) (Prim2SF c) = Some o →
  (x <? c)%float = (if o is Lt then true else false)
  ∧ (c <? x)%float = (if o is Gt then true else false)
  ∧ (x <=? c)%float = (if o is Gt then false else true)
  ∧ (c <=? x)%float = (if o is Lt then false else true).
Proof.
  intros H. rewrite !FloatAxioms.ltb_spec, !FloatAxioms.leb_spec. unfold SFltb, SFleb.
  rewrite (SFcompare_antisym (Prim2SF x) (Prim2SF c)), H.
  by destruct o.
Qed.

(** The clamp of [setZoom]. *)
Lemma clamp_cases x :
  is_nan x = false →
  let z := Math_max 0.25 (Math_min 4 x) in
  ((0.25 <=? z)%float = true ∧ (z <=? 4)%float = true)
  ∧ ((0.25 <? x)%float = true → (x <? 4)%float = true → z = x).
Proof.
  intros Hx.
  destruct (not_nan_compare x 4 Hx) as [o4 H4]; [by vm_compute|].
  destruct (not_nan_compare x 0.25 Hx) as [oq Hq]; [by vm_compute|].
  destruct (compare_cases x 4 o4 H4) as (A1 & A2 & A3 & A4).
  destruct (compare_cases x 0.25 oq Hq) as (B1 & B2 & B3 & B4).
  assert (∀ m, (m = x ∧ (x <=? 4)%float = true) ∨ m = 4%float →
            let z := Math_max 0.25 m in
            ((0.25 <=? z)%float = true ∧ (z <=? 4)%float = true)
            ∧ (m = x → (0.25 <? x)%float = true → z = x)) as Hmax.
  { intros m [[-> Hle] | ->].
    - unfold Math_max. rewrite Hx. simpl. rewrite B2, B1.
      destruct oq; simpl.
      + split; [split; reflexivity|]. by intros _ [=].
      + split; [split; reflexivity|]. by intros _ [=].
      + split; [split; [by rewrite B4|done]|done].
    - split; [by vm_compute|]. intros <-. by vm_compute in Hx. }
  unfold Math_min. rewrite Hx. simpl. rewrite A2, A1.
  destruct o4; simpl.
  - destruct (Hmax x) as [G1 G2]; [left; by rewrite A3|].
    split; [done|]. intros H1 H2. by apply G2.
  - destruct (Hmax x) as [G1 G2]; [left; by rewrite A3|].
    split; [done|]. intros H1 H2. by apply G2.
  - destruct (Hmax 4%float) as [G1 G2]; [by right|].
    split; [done|]. by intros _ [=].
Qed.

End Zoom2D.

(** X24. In the 2D editor [setZoom] clamps: for every requested zoom that
    is a number (not NaN), with or without a centre point, the zoom it
    stores lies between 0.25 and 4, and a request strictly between 0.25
    and 4 is stored as it is. *)
Theorem setZoom_clamps
    (newZoom : float) (centerX centerY : option float) (v : View2D.View) :
  is_nan newZoom = false →
  let z := View2D.zoom (View2D.setZoom newZoom centerX centerY v) in
  (0.25 <=? z)%float = true ∧ (z <=? 4)%float = true
  ∧ ((0.25 <? newZoom)%float = true → (newZoom <? 4)%float = true →
     z = newZoom).
Proof.
  intros Hx z.
  assert (z = View2D.Math_max 0.25 (View2D.Math_min 4 newZoom)) as ->.
  { subst z. unfold View2D.setZoom. by destruct centerX, centerY. }
  destruct (Zoom2D.clamp_cases newZoom Hx) as [[H1 H2] H3]. auto.
Qed.

Lemma setZoom_clamps_witness :
  let z := View2D.zoom
             (View2D.setZoom 5 (Some 100%float) (Some 50%float)
                {| View2D.zoom := 4; View2D.panOffset := (0%float, 0%float) |}) in
  (0.25 <=? z)%float = true ∧ (z <=? 4)%float = true
  ∧ ((0.25 <? 5)%float = true → (5 <? 4)%float = true → z = 5%float).
Proof.
  apply (setZoom_clamps 5 (Some 100%float) (Some 50%float)
           {| View2D.zoom := 4; View2D.panOffset := (0%float, 0%float) |}).
  reflexivity.
Defined.
